(** * Markdown to Telegraph conversion and multi-part publishing

    A shallow embedding of [scripts/telegraph.py]: the Markdown converter
    ([MarkdownToTelegraphConverter]), the size partitioner
    ([split_content_for_publishing]), the navigation linker
    ([add_navigation_links]) and the publish command ([cmd_publish]),
    followed by the properties established about them.

    Conventions of the embedding.
    - A Python [str] is a list of Unicode code points ([N]).  String
      literals of the source are written with [py], which decodes the
      UTF-8 bytes of a Rocq string literal.
    - The character classes of [str.strip] and [re] are exact up to
      U+00FF, and for whitespace everywhere; what [str.isalnum] and
      [str.isdecimal] say above U+00FF is a parameter ([unicode_db]).
    - A Telegraph node (a Python [str] or a [dict] with the keys [tag],
      [attrs], [children], always inserted in that order) is a value of
      the inductive type [node].
    - Python integers that measure sizes are in [Z]; indices and counts
      are in [nat].
    - [re] patterns are values of the type [regex], run by a backtracking
      matcher with the greedy, leftmost-first discipline of Python's [re].
    - [self.nodes] is threaded explicitly through the block handlers.
    - The recursion of [_parse_inline] is bounded by the length of the
      text; [markdown_to_nodes_total] shows that the bound is never
      reached.
    - The remote Telegraph API is a deterministic function of the history
      of requests; [cmd_publish] returns what it prints, its exit status
      and the requests it issued. *)

From Stdlib Require Import String Ascii Numbers.DecimalString.
From Stdlib Require Import List NArith ZArith Lia Bool Arith.
Import ListNotations.

Set Implicit Arguments.

(* ================================================================== *)
(** * Python strings *)
(* ================================================================== *)

Definition char := N.
Definition str := list char.

Local Open Scope N_scope.

(** Decoder for well-formed UTF-8, used to write the literals of the
    source. *)
Fixpoint utf8_decode (bs : list N) : str :=
  match bs with
  | [] => []
  | b0 :: r0 =>
    if b0 <? 0x80 then b0 :: utf8_decode r0
    else
      match r0 with
      | [] => []
      | b1 :: r1 =>
        if b0 <? 0xE0 then ((b0 - 0xC0) * 64 + (b1 - 0x80)) :: utf8_decode r1
        else
          match r1 with
          | [] => []
          | b2 :: r2 =>
            if b0 <? 0xF0
            then ((b0 - 0xE0) * 4096 + (b1 - 0x80) * 64 + (b2 - 0x80))
                   :: utf8_decode r2
            else
              match r2 with
              | [] => []
              | b3 :: r3 =>
                ((b0 - 0xF0) * 262144 + (b1 - 0x80) * 4096
                 + (b2 - 0x80) * 64 + (b3 - 0x80)) :: utf8_decode r3
              end
          end
      end
  end.

Definition py (s : string) : str :=
  utf8_decode (map N_of_ascii (list_ascii_of_string s)).

(** [s.encode("utf-8")] *)
Definition utf8_encode_char (c : char) : list N :=
  if c <? 0x80 then [c]
  else if c <? 0x800 then [0xC0 + c / 64; 0x80 + c mod 64]
  else if c <? 0x10000
       then [0xE0 + c / 4096; 0x80 + (c / 64) mod 64; 0x80 + c mod 64]
       else [0xF0 + c / 262144; 0x80 + (c / 4096) mod 64;
             0x80 + (c / 64) mod 64; 0x80 + c mod 64].

Definition utf8_encode (s : str) : list N := flat_map utf8_encode_char s.

Definition NL : char := 10.       (* "\n" *)
Definition CR : char := 13.       (* "\r" *)
Definition SP : char := 32.       (* " "  *)
Definition DQUOTE : char := 34.
Definition BACKSLASH : char := 92.
Definition PIPE : char := 124.     (* "|"  *)
Definition UNDERSCORE : char := 95.

Definition char_in (set : str) (c : char) : bool := existsb (N.eqb c) set.

(** [str.isspace] on one character; also the class [\s] of [re]. *)
Definition isspace (c : char) : bool :=
  ((9 <=? c) && (c <=? 13)) || ((28 <=? c) && (c <=? 32))
  || (c =? 0x85) || (c =? 0xA0) || (c =? 0x1680)
  || ((0x2000 <=? c) && (c <=? 0x200A))
  || (c =? 0x2028) || (c =? 0x2029) || (c =? 0x202F) || (c =? 0x205F)
  || (c =? 0x3000).

(** [str.isalnum] and [str.isdecimal] on the code points up to U+00FF. *)
Definition latin1_isalnum (c : char) : bool :=
  ((0x30 <=? c) && (c <=? 0x39)) || ((0x41 <=? c) && (c <=? 0x5A))
  || ((0x61 <=? c) && (c <=? 0x7A))
  || (c =? 0xAA) || (c =? 0xB2) || (c =? 0xB3) || (c =? 0xB5)
  || (c =? 0xB9) || (c =? 0xBA) || ((0xBC <=? c) && (c <=? 0xBE))
  || ((0xC0 <=? c) && (c <=? 0xD6)) || ((0xD8 <=? c) && (c <=? 0xF6))
  || ((0xF8 <=? c) && (c <=? 0xFF)).

Definition latin1_isdecimal (c : char) : bool := (0x30 <=? c) && (c <=? 0x39).

(** The Unicode character database of the Python runtime beyond U+00FF
    is not part of the program; it is a parameter of the converter. *)
Record unicode_db := {
  db_isalnum : char -> bool;     (* str.isalnum above U+00FF *)
  db_isdecimal : char -> bool    (* str.isdecimal above U+00FF *)
}.

(** A database without alphanumeric characters above U+00FF, for the
    evaluations on Latin-1 input, which never consult it. *)
Definition latin1_db : unicode_db :=
  {| db_isalnum := fun _ => false; db_isdecimal := fun _ => false |}.

Local Close Scope N_scope.

Fixpoint lstrip (s : str) : str :=
  match s with
  | c :: tl => if isspace c then lstrip tl else s
  | [] => []
  end.

Definition rstrip (s : str) : str := rev (lstrip (rev s)).

(** [s.strip()] *)
Definition strip (s : str) : str := rstrip (lstrip s).

(** [s.startswith(p)] *)
Fixpoint startswith (p s : str) : bool :=
  match p, s with
  | [], _ => true
  | a :: p', b :: s' => N.eqb a b && startswith p' s'
  | _ :: _, [] => false
  end.

(** [s.endswith(p)] *)
Definition endswith (p s : str) : bool := startswith (rev p) (rev s).

Definition str_eqb (a b : str) : bool :=
  (length a =? length b)%nat && startswith a b.

(** [s * n] *)
Definition str_mul (s : str) (n : nat) : str := concat (repeat s n).

(** [s.split(sep)] for a separator of one character. *)
Fixpoint str_split (sep : char) (s : str) : list str :=
  match s with
  | [] => [[]]
  | c :: tl =>
    if N.eqb c sep then [] :: str_split sep tl
    else match str_split sep tl with
         | w :: ws => (c :: w) :: ws
         | [] => [[c]]
         end
  end.

(** [sep.join(l)] *)
Fixpoint str_join (sep : str) (l : list str) : str :=
  match l with
  | [] => []
  | [w] => w
  | w :: ws => w ++ sep ++ str_join sep ws
  end.

(** [s.replace(old, new)] for a non-empty [old]: leftmost, non-overlapping
    occurrences; [skip] counts the characters of an occurrence still to
    be dropped. *)
Fixpoint replace_from (old new : str) (skip : nat) (s : str) : str :=
  match s with
  | [] => []
  | c :: tl =>
    match skip with
    | S k => replace_from old new k tl
    | O => if startswith old s
           then new ++ replace_from old new (length old - 1) tl
           else c :: replace_from old new 0 tl
    end
  end.

Definition replace (old new s : str) : str := replace_from old new 0 s.

(** [str(n)] for a non-negative integer. *)
Definition str_of_nat (n : nat) : str :=
  py (NilEmpty.string_of_uint (Nat.to_uint n)).

(** The text with the given lines, for writing inputs. *)
Definition text_of (lines : list string) : str := str_join [NL] (map py lines).

Local Open Scope string_scope.
Local Open Scope list_scope.
Local Open Scope nat_scope.

(* ================================================================== *)
(** * Regular expressions of [re] *)
(* ================================================================== *)

(** The patterns of the source only repeat character classes, so
    repetition is over a class. *)
Inductive regex :=
| Bol                                            (* ^ *)
| Eol                                            (* $ *)
| Chr (p : char -> bool)                         (* one character of a class *)
| Rep (p : char -> bool) (lo : nat) (hi : option nat)
                                                 (* greedy class{lo,hi} *)
| Opt (r : regex)                                (* greedy r? *)
| Cat (r1 r2 : regex)
| Alt (r1 r2 : regex)                            (* r1|r2 *)
| Grp (i : nat) (r : regex)                      (* capturing group i *)
| NotBehind (p : char -> bool)                   (* (?<![class]) *)
| NotAhead (p : char -> bool).                   (* (?![class]) *)

Infix ">>" := Cat (at level 61, right associativity).

(** Position of the matcher in the subject string. *)
Record cursor := {
  pos : nat;                     (* index of the next character *)
  prev : option char;            (* character before the position *)
  rest : str;                    (* text from the position on *)
  groups : list (nat * str)      (* groups captured so far, latest first *)
}.

Definition last_char (s : str) (d : option char) : option char :=
  match rev s with c :: _ => Some c | [] => d end.

Definition advance (n : nat) (st : cursor) : cursor :=
  {| pos := pos st + n;
     prev := last_char (firstn n (rest st)) (prev st);
     rest := skipn n (rest st);
     groups := groups st |}.

Definition set_group (i : nat) (g : str) (st : cursor) : cursor :=
  {| pos := pos st; prev := prev st; rest := rest st;
     groups := (i, g) :: groups st |}.

(** Length of the longest prefix in the class, at most [hi]. *)
Fixpoint run (p : char -> bool) (hi : option nat) (s : str) : nat :=
  match hi with
  | Some O => O
  | _ =>
    match s with
    | c :: tl => if p c then S (run p (option_map Nat.pred hi) tl) else O
    | [] => O
    end
  end.

(** Greedy repetition: try [n] characters, then fewer, down to [lo]. *)
Fixpoint rep_try (n lo : nat) (st : cursor)
         (k : cursor -> option cursor) : option cursor :=
  match k (advance n st) with
  | Some m => Some m
  | None =>
    match n with
    | S n' => if (lo <=? n')%nat then rep_try n' lo st k else None
    | O => None
    end
  end.

(** Backtracking matcher in continuation-passing style. *)
Fixpoint exec (r : regex) (st : cursor)
         (k : cursor -> option cursor) : option cursor :=
  match r with
  | Bol => if (pos st =? 0)%nat then k st else None
  | Eol =>
    match rest st with
    | [] => k st
    | [c] => if N.eqb c NL then k st else None
    | _ => None
    end
  | Chr p =>
    match rest st with
    | c :: _ => if p c then k (advance 1 st) else None
    | [] => None
    end
  | Rep p lo hi =>
    let n := run p hi (rest st) in
    if (lo <=? n)%nat then rep_try n lo st k else None
  | Opt r1 =>
    match exec r1 st k with
    | Some m => Some m
    | None => k st
    end
  | Cat r1 r2 => exec r1 st (fun st' => exec r2 st' k)
  | Alt r1 r2 =>
    match exec r1 st k with
    | Some m => Some m
    | None => exec r2 st k
    end
  | Grp i r1 =>
    exec r1 st
         (fun st' => k (set_group i (firstn (pos st' - pos st) (rest st)) st'))
  | NotBehind p =>
    match prev st with
    | Some c => if p c then None else k st
    | None => k st
    end
  | NotAhead p =>
    match rest st with
    | c :: _ => if p c then None else k st
    | [] => k st
    end
  end.

(** A match object: [start()], [end()] and the groups. *)
Record match_obj := {
  m_start : nat;
  m_end : nat;
  m_groups : list (nat * str)
}.

(** [m.group(i)] *)
Fixpoint group (i : nat) (gs : list (nat * str)) : str :=
  match gs with
  | (j, g) :: tl => if (i =? j)%nat then g else group i tl
  | [] => []
  end.

Definition start_cursor (s : str) : cursor :=
  {| pos := 0; prev := None; rest := s; groups := [] |}.

(** [re.match(r, s)] *)
Definition re_match (r : regex) (s : str) : option match_obj :=
  match exec r (start_cursor s) Some with
  | Some c => Some {| m_start := 0; m_end := pos c; m_groups := groups c |}
  | None => None
  end.

Fixpoint search_from (r : regex) (p : nat) (pv : option char) (s : str)
  : option match_obj :=
  match exec r {| pos := p; prev := pv; rest := s; groups := [] |} Some with
  | Some c => Some {| m_start := p; m_end := pos c; m_groups := groups c |}
  | None =>
    match s with
    | c :: tl => search_from r (S p) (Some c) tl
    | [] => None
    end
  end.

(** [re.search(r, s)] *)
Definition re_search (r : regex) (s : str) : option match_obj :=
  search_from r 0 None s.

(** [re.sub(r, '', s)]: every non-overlapping match is removed; [skip]
    counts the characters of a match still to be dropped. *)
Fixpoint sub_from (r : regex) (p : nat) (pv : option char) (skip : nat)
         (s : str) : str :=
  match s with
  | [] => []
  | c :: tl =>
    match skip with
    | S k => sub_from r (S p) (Some c) k tl
    | O =>
      match exec r {| pos := p; prev := pv; rest := s; groups := [] |} Some with
      | Some m =>
        match pos m - p with
        | S k => sub_from r (S p) (Some c) k tl
        | O => c :: sub_from r (S p) (Some c) 0 tl
        end
      | None => c :: sub_from r (S p) (Some c) 0 tl
      end
    end
  end.

Definition re_sub_empty (r : regex) (s : str) : str := sub_from r 0 None 0 s.

Definition is_match (m : option match_obj) : bool :=
  match m with Some _ => true | None => false end.

(** Character classes. *)
Definition one (c : string) : char -> bool := fun x => char_in (py c) x.
Definition none_of (c : string) : char -> bool := fun x => negb (char_in (py c) x).
Definition not_newline : char -> bool := fun x => negb (N.eqb x NL).   (* . *)

(* ================================================================== *)
(** * Telegraph nodes *)
(* ================================================================== *)

Inductive tag :=
| TagP | TagH3 | TagH4 | TagB | TagI | TagCode | TagPre | TagBlockquote
| TagOl | TagUl | TagLi | TagA | TagImg | TagHr.

Definition tag_name (t : tag) : str :=
  match t with
  | TagP => py "p" | TagH3 => py "h3" | TagH4 => py "h4" | TagB => py "b"
  | TagI => py "i" | TagCode => py "code" | TagPre => py "pre"
  | TagBlockquote => py "blockquote" | TagOl => py "ol" | TagUl => py "ul"
  | TagLi => py "li" | TagA => py "a" | TagImg => py "img" | TagHr => py "hr"
  end.

(** A node is a bare string or a dict [{"tag": t, "attrs": {...},
    "children": [...]}] whose last two keys may be absent. *)
#[warnings="-register-all"]
Inductive node :=
| Text (s : str)
| Element (t : tag) (attrs : option (list (str * str)))
          (children : option (list node)).

(** [{"tag": t, "children": children}] *)
Definition elem (t : tag) (children : list node) : node :=
  Element t None (Some children).

(** [{"tag": t}] *)
Definition leaf (t : tag) : node := Element t None None.

(* ================================================================== *)
(** * MarkdownToTelegraphConverter *)
(* ================================================================== *)

Section Converter.

Variable db : unicode_db.

Definition isalnum (c : char) : bool :=
  if (c <? 256)%N then latin1_isalnum c else db_isalnum db c.

(** The class [\d]. *)
Definition isdecimal (c : char) : bool :=
  if (c <? 256)%N then latin1_isdecimal c else db_isdecimal db c.

(** The class [\w]. *)
Definition isword (c : char) : bool := isalnum c || N.eqb c UNDERSCORE.

(** ** _split_blocks *)

(** The pattern  ^(`{3,}|~{3,})(\w* )?$  (the space after the star is not
    part of it). *)
Definition fence_re : regex :=
  Bol >> Grp 1 (Alt (Rep (one "`") 3 None) (Rep (one "~") 3 None))
      >> Opt (Grp 2 (Rep isword 0 None)) >> Eol.

(** The pattern  ^{code_fence}{{3,}}$  (an f-string), where [code_fence]
    is one character. *)
Definition close_re (code_fence : str) : regex :=
  match code_fence with
  | [c] => Bol >> Rep (N.eqb c) 3 None >> Eol
  | _ => Chr (fun _ => false)
  end.

Record split_state := {
  blocks : list str;
  current_block : list str;
  in_code_block : bool;
  code_fence : str
}.

Definition split_init : split_state :=
  {| blocks := []; current_block := []; in_code_block := false;
     code_fence := [] |}.

(** [blocks.append("\n".join(current_block))] when [current_block] is
    not empty. *)
Definition flush (bs : list str) (cur : list str) : list str :=
  match cur with
  | [] => bs
  | _ => bs ++ [str_join [NL] cur]
  end.

(** The test that ends a code block. *)
Definition closes_fence (code_fence line : str) : bool :=
  startswith (str_mul code_fence 3) (strip line)
  && str_eqb (strip line) (str_mul code_fence (length (strip line)))
  && is_match (re_match (close_re code_fence) (strip line)).

(** One iteration of the loop over the lines. *)
Definition split_step (st : split_state) (line : str) : split_state :=
  let fence_match := re_match fence_re (strip line) in
  match fence_match, in_code_block st with
  | Some m, false =>
    {| blocks := flush (blocks st) (current_block st);
       current_block := [line];
       in_code_block := true;
       code_fence := firstn 1 (group 1 (m_groups m)) |}
  | _, true =>
    if closes_fence (code_fence st) line
    then {| blocks := blocks st ++ [str_join [NL] (current_block st ++ [line])];
            current_block := [];
            in_code_block := false;
            code_fence := code_fence st |}
    else {| blocks := blocks st;
            current_block := current_block st ++ [line];
            in_code_block := true;
            code_fence := code_fence st |}
  | None, false =>
    if str_eqb (strip line) []
    then {| blocks := flush (blocks st) (current_block st);
            current_block := [];
            in_code_block := false;
            code_fence := code_fence st |}
    else {| blocks := blocks st;
            current_block := current_block st ++ [line];
            in_code_block := false;
            code_fence := code_fence st |}
  end.

Definition split_finish (st : split_state) : list str :=
  flush (blocks st) (current_block st).

Definition split_lines (lines : list str) : list str :=
  split_finish (fold_left split_step lines split_init).

Definition _split_blocks (text : str) : list str :=
  split_lines (str_split NL text).

(** ** _parse_inline *)

Inductive handler := HImage | HLink | HBold | HItalic | HCode.

Definition patterns : list (regex * handler) :=
  [ (* !\[([^\]]* )\]\(([^)]+)\)   (without the space after the star) *)
    (Chr (one "!") >> Chr (one "[") >> Grp 1 (Rep (none_of "]") 0 None)
       >> Chr (one "]") >> Chr (one "(") >> Grp 2 (Rep (none_of ")") 1 None)
       >> Chr (one ")"), HImage);
    (* \[([^\]]+)\]\(([^)]+)\) *)
    (Chr (one "[") >> Grp 1 (Rep (none_of "]") 1 None)
       >> Chr (one "]") >> Chr (one "(") >> Grp 2 (Rep (none_of ")") 1 None)
       >> Chr (one ")"), HLink);
    (* \*\*([^*]+)\*\* *)
    (Chr (one "*") >> Chr (one "*") >> Grp 1 (Rep (none_of "*") 1 None)
       >> Chr (one "*") >> Chr (one "*"), HBold);
    (* __([^_]+)__ *)
    (Chr (one "_") >> Chr (one "_") >> Grp 1 (Rep (none_of "_") 1 None)
       >> Chr (one "_") >> Chr (one "_"), HBold);
    (* (?<![*\w])\*([^*]+)\*(?![*\w]) *)
    (NotBehind (fun c => one "*" c || isword c) >> Chr (one "*")
       >> Grp 1 (Rep (none_of "*") 1 None) >> Chr (one "*")
       >> NotAhead (fun c => one "*" c || isword c), HItalic);
    (* (?<![_\w])_([^_]+)_(?![_\w]) *)
    (NotBehind (fun c => one "_" c || isword c) >> Chr (one "_")
       >> Grp 1 (Rep (none_of "_") 1 None) >> Chr (one "_")
       >> NotAhead (fun c => one "_" c || isword c), HItalic);
    (* `([^`]+)` *)
    (Chr (one "`") >> Grp 1 (Rep (none_of "`") 1 None) >> Chr (one "`"),
     HCode) ].

(** The [for pattern, handler in patterns] loop: the match that starts
    first, the earlier pattern winning among equal starts. *)
Definition earliest_step (remaining : str)
           (acc : option (match_obj * handler) * nat)
           (ph : regex * handler) : option (match_obj * handler) * nat :=
  match re_search (fst ph) remaining with
  | Some m => if (m_start m <? snd acc)%nat
              then (Some (m, snd ph), m_start m) else acc
  | None => acc
  end.

Definition earliest (remaining : str) : option (match_obj * handler) :=
  fst (fold_left (earliest_step remaining) patterns (None, length remaining)).

(** The clean-up loop: adjacent strings are merged, empty strings are
    not added. *)
Definition clean_step (cleaned : list node) (item : node) : list node :=
  match item with
  | Text s =>
    match rev cleaned with
    | Text t :: before => rev before ++ [Text (t ++ s)]
    | _ => match s with [] => cleaned | _ => cleaned ++ [item] end
    end
  | _ => cleaned ++ [item]
  end.

Definition clean (result : list node) : list node :=
  match fold_left clean_step result [] with
  | [] => [Text []]
  | cleaned => cleaned
  end.

(** [_handle_image] *)
Definition _handle_image (m : match_obj) : node :=
  let alt := group 1 (m_groups m) in
  let url := group 2 (m_groups m) in
  match alt with
  | [] => Element TagImg (Some [(py "src", url)]) None
  | _ => Element TagImg (Some [(py "src", url); (py "alt", alt)]) None
  end.

(** [_handle_link] *)
Definition _handle_link (m : match_obj) : node :=
  let text := group 1 (m_groups m) in
  let url := group 2 (m_groups m) in
  Element TagA (Some [(py "href", url)]) (Some [Text text]).

(** [_handle_code] *)
Definition _handle_code (m : match_obj) : node :=
  elem TagCode [Text (group 1 (m_groups m))].

(** The [while remaining] loop of [_parse_inline]; [_handle_bold] and
    [_handle_italic] call [_parse_inline] again on their group.  The
    recursion is bounded by [fuel]; [None] means the bound was reached. *)
Fixpoint parse_loop (fuel : nat) (remaining : str) (result : list node)
  : option (list node) :=
  match fuel with
  | O => None
  | S fuel' =>
    match remaining with
    | [] => Some result
    | _ =>
      match earliest remaining with
      | Some (m, h) =>
        let result1 :=
          if (0 <? m_start m)%nat
          then result ++ [Text (firstn (m_start m) remaining)] else result in
        let nested (t : tag) :=
          match parse_loop fuel' (group 1 (m_groups m)) [] with
          | Some r => Some (elem t (clean r))
          | None => None
          end in
        let element :=
          match h with
          | HImage => Some (_handle_image m)
          | HLink => Some (_handle_link m)
          | HBold => nested TagB
          | HItalic => nested TagI
          | HCode => Some (_handle_code m)
          end in
        match element with
        | Some e => parse_loop fuel' (skipn (m_end m) remaining) (result1 ++ [e])
        | None => None
        end
      | None => Some (result ++ [Text remaining])
      end
    end
  end.

Definition _parse_inline (text : str) : option (list node) :=
  option_map clean (parse_loop (S (length text)) text []).


(** ** Block handlers

    Each handler takes [self.nodes] and returns it after its appends. *)

(** The pattern  ^(#{1,6})\s+(.+)$ *)
Definition heading_re : regex :=
  Bol >> Grp 1 (Rep (one "#") 1 (Some 6)) >> Rep isspace 1 None
      >> Grp 2 (Rep not_newline 1 None) >> Eol.

(** The pattern  ^[-*_]{3,}$ *)
Definition hr_re : regex := Bol >> Rep (one "-*_") 3 None >> Eol.

(** The pattern  ^[\-\*\+]\s *)
Definition bullet_re : regex := Bol >> Chr (one "-*+") >> Chr isspace.

(** The pattern  ^\d+\.\s *)
Definition number_re : regex :=
  Bol >> Rep isdecimal 1 None >> Chr (one ".") >> Chr isspace.

(** The pattern  ^\|?[\s\-:]+\| *)
Definition table_sep_re : regex :=
  Bol >> Opt (Chr (one "|")) >> Rep (fun c => isspace c || one "-:" c) 1 None
      >> Chr (one "|").

(** The pattern  ^>\s? *)
Definition quote_re : regex := Bol >> Chr (one ">") >> Opt (Chr isspace).

Definition is_fence_start (line : str) : bool :=
  startswith (py "```") (strip line) || startswith (py "~~~") (strip line).

(** [_process_heading] *)
Definition _process_heading (nodes : list node) (line : str)
  : option (list node) :=
  match re_match heading_re line with
  | Some m =>
    let level := length (group 1 (m_groups m)) in
    let text := strip (group 2 (m_groups m)) in
    let t := if (level <=? 2)%nat then TagH3 else TagH4 in
    match _parse_inline text with
    | Some children => Some (nodes ++ [elem t children])
    | None => None
    end
  | None => Some nodes
  end.

(** [_process_code_block] *)
Definition _process_code_block (nodes : list node) (block : str)
  : list node :=
  let lines := str_split NL block in
  let lines1 :=
    if is_fence_start (hd [] lines) then tl lines else lines in
  let lines2 :=
    match lines1 with
    | [] => lines1
    | _ => if is_fence_start (last lines1 []) then removelast lines1
           else lines1
    end in
  let code_text := str_join [NL] lines2 in
  match code_text with
  | [] => nodes
  | _ => nodes ++ [elem TagPre [Text code_text]]
  end.

(** [_process_blockquote] *)
Definition _process_blockquote (nodes : list node) (block : str)
  : option (list node) :=
  let text_lines := map (re_sub_empty quote_re) (str_split NL block) in
  let text := strip (str_join [SP] text_lines) in
  match _parse_inline text with
  | Some children => Some (nodes ++ [elem TagBlockquote children])
  | None => None
  end.

Definition is_list_item (line : str) : bool :=
  is_match (re_match bullet_re (strip line))
  || is_match (re_match number_re (strip line)).

(** The loop of [_process_list] that gathers the items. *)
Definition list_step (acc : list str * list str) (line : str)
  : list str * list str :=
  let (items, current_item) := acc in
  if is_list_item line
  then
    let items1 :=
      match current_item with
      | [] => items
      | _ => items ++ [str_join [SP] current_item]
      end in
    let text := re_sub_empty number_re (re_sub_empty bullet_re (strip line)) in
    (items1, [text])
  else (items, current_item ++ [strip line]).

(** [children.append({"tag": "li", "children": self._parse_inline(item)})]
    for every item. *)
Fixpoint list_items (items : list str) : option (list node) :=
  match items with
  | [] => Some []
  | item :: more =>
    match _parse_inline item, list_items more with
    | Some item_children, Some children =>
      Some (elem TagLi item_children :: children)
    | _, _ => None
    end
  end.

(** [_process_list] *)
Definition _process_list (nodes : list node) (block : str)
  : option (list node) :=
  let lines := str_split NL block in
  let is_ordered := is_match (re_match number_re (strip (hd [] lines))) in
  let t := if is_ordered then TagOl else TagUl in
  let (items, current_item) := fold_left list_step lines ([], []) in
  let items1 :=
    match current_item with
    | [] => items
    | _ => items ++ [str_join [SP] current_item]
    end in
  match list_items items1 with
  | Some children => Some (nodes ++ [elem t children])
  | None => None
  end.

(** [_parse_table_row] *)
Definition _parse_table_row (line : str) : list str :=
  let line0 := strip line in
  let line1 := if startswith (py "|") line0 then tl line0 else line0 in
  let line2 := if endswith (py "|") line1 then removelast line1 else line1 in
  map strip (str_split PIPE line2).

Definition nonblank (line : str) : bool :=
  match strip line with [] => false | _ => true end.

(** [_process_table] *)
Definition _process_table (nodes : list node) (block : str)
  : option (list node) :=
  let lines := str_split NL block in
  let header_cells := _parse_table_row (hd [] lines) in
  let data_rows := map _parse_table_row (filter nonblank (skipn 2 lines)) in
  let nodes1 :=
    match header_cells with
    | [] => nodes
    | _ => nodes ++ [elem TagP [elem TagB [Text (str_join (py " | ") header_cells)]]]
    end in
  match data_rows with
  | [] => Some nodes1
  | _ =>
    match list_items (map (str_join (py " | ")) data_rows) with
    | Some items => Some (nodes1 ++ [elem TagUl items])
    | None => None
    end
  end.

(** [_process_paragraph] *)
Definition _process_paragraph (nodes : list node) (block : str)
  : option (list node) :=
  let text := strip (str_join [SP] (map strip (str_split NL block))) in
  match text with
  | [] => Some nodes
  | _ =>
    match _parse_inline text with
    | Some children => Some (nodes ++ [elem TagP children])
    | None => None
    end
  end.

(** [_process_block] *)
Definition _process_block (nodes : list node) (block : str)
  : option (list node) :=
  let lines := str_split NL block in
  let first_line := strip (hd [] lines) in
  if startswith (py "```") first_line || startswith (py "~~~") first_line
  then Some (_process_code_block nodes block)
  else if startswith (py "#") first_line
  then _process_heading nodes first_line
  else if is_match (re_match hr_re first_line)
  then Some (nodes ++ [leaf TagHr])
  else if startswith (py ">") first_line
  then _process_blockquote nodes block
  else if is_match (re_match bullet_re first_line)
          || is_match (re_match number_re first_line)
  then _process_list nodes block
  else if char_in first_line PIPE && (1 <? length lines)%nat
          && is_match (re_match table_sep_re (nth 1 lines []))
  then _process_table nodes block
  else _process_paragraph nodes block.

(** The loop of [convert] over the blocks. *)
Fixpoint convert_blocks (nodes : list node) (bs : list str)
  : option (list node) :=
  match bs with
  | [] => Some nodes
  | block :: more =>
    if nonblank block
    then match _process_block nodes block with
         | Some nodes' => convert_blocks nodes' more
         | None => None
         end
    else convert_blocks nodes more
  end.

(** [convert] *)
Definition convert (markdown : str) : option (list node) :=
  let markdown1 := replace [CR] [NL] (replace [CR; NL] [NL] markdown) in
  convert_blocks [] (_split_blocks markdown1).

(** [markdown_to_nodes] *)
Definition markdown_to_nodes (markdown : str) : option (list node) :=
  convert markdown.

End Converter.

(* ================================================================== *)
(** * Serialization: json.dumps(..., ensure_ascii=False) *)
(* ================================================================== *)

Definition hex_digit (d : N) : char :=
  if (d <? 10)%N then (48 + d)%N else (87 + d)%N.

(** One character inside a JSON string: the escapes of [json.encoder]. *)
Definition escape_char (c : char) : str :=
  if N.eqb c BACKSLASH then [BACKSLASH; BACKSLASH]
  else if N.eqb c DQUOTE then [BACKSLASH; DQUOTE]
  else if N.eqb c 8 then BACKSLASH :: py "b"
  else if N.eqb c 12 then BACKSLASH :: py "f"
  else if N.eqb c 10 then BACKSLASH :: py "n"
  else if N.eqb c 13 then BACKSLASH :: py "r"
  else if N.eqb c 9 then BACKSLASH :: py "t"
  else if (c <? 32)%N
       then BACKSLASH :: py "u00" ++ [hex_digit (c / 16); hex_digit (c mod 16)]
       else [c].

Definition dumps_str (s : str) : str :=
  DQUOTE :: flat_map escape_char s ++ [DQUOTE].

Definition dumps_attrs (kv : list (str * str)) : str :=
  py "{"
  ++ str_join (py ", ")
       (map (fun e => dumps_str (fst e) ++ py ": " ++ dumps_str (snd e)) kv)
  ++ py "}".

(** [json.dumps(node, ensure_ascii=False)]: items are separated by
    a comma and a space, keys from values by a colon and a space. *)
Fixpoint dumps (n : node) : str :=
  match n with
  | Text s => dumps_str s
  | Element t attrs children =>
    py "{" ++ dumps_str (py "tag") ++ py ": " ++ dumps_str (tag_name t)
    ++ match attrs with
       | Some kv => py ", " ++ dumps_str (py "attrs") ++ py ": " ++ dumps_attrs kv
       | None => []
       end
    ++ match children with
       | Some ch =>
         py ", " ++ dumps_str (py "children") ++ py ": "
         ++ py "[" ++ str_join (py ", ") (map dumps ch) ++ py "]"
       | None => []
       end
    ++ py "}"
  end.

(** [json.dumps(content, ensure_ascii=False)] for a list of nodes. *)
Definition dumps_list (content : list node) : str :=
  py "[" ++ str_join (py ", ") (map dumps content) ++ py "]".

(** [len(s.encode("utf-8"))] *)
Definition byte_len (s : str) : Z := Z.of_nat (length (utf8_encode s)).

(* ================================================================== *)
(** * Content splitting *)
(* ================================================================== *)

Definition MAX_CONTENT_SIZE : Z := (64 * 1024)%Z.

(** [estimate_content_size] *)
Definition estimate_content_size (content : list node) : Z :=
  byte_len (dumps_list content).

Record part_state := {
  parts : list (list node);
  current_part : list node;
  current_size : Z
}.

Definition part_init : part_state :=
  {| parts := []; current_part := []; current_size := 2 |}.

Definition nonempty {A : Type} (l : list A) : bool :=
  match l with [] => false | _ => true end.

(** One iteration of the loop over the nodes. *)
Definition part_step (max_size : Z) (st : part_state) (n : node)
  : part_state :=
  let node_size := (byte_len (dumps n) + 1)%Z in
  let st1 :=
    if (current_size st + node_size >? max_size)%Z && nonempty (current_part st)
    then {| parts := parts st ++ [current_part st];
            current_part := [];
            current_size := 2 |}
    else st in
  {| parts := parts st1;
     current_part := current_part st1 ++ [n];
     current_size := (current_size st1 + node_size)%Z |}.

Definition part_finish (st : part_state) : list (list node) :=
  if nonempty (current_part st) then parts st ++ [current_part st]
  else parts st.

(** [split_content_for_publishing] *)
Definition split_content_for_publishing (content : list node) (max_size : Z)
  : list (list node) :=
  let total_size := estimate_content_size content in
  if (total_size <=? max_size)%Z then [content]
  else part_finish (fold_left (part_step max_size) content part_init).

(* ================================================================== *)
(** * Navigation links *)
(* ================================================================== *)

(** [{"tag": "a", "attrs": {"href": href}, "children": [text]}] *)
Definition link (href text : str) : node :=
  Element TagA (Some [(py "href", href)]) (Some [Text text]).

(** The body of the loop of [add_navigation_links] for part [i] of
    [n]; [None] stands for an IndexError on [urls]. *)
Definition nav_part (n : nat) (urls : list str) (title : str)
           (i : nat) (part : list node) : option (list node) :=
  let part_header :=
    elem TagP [elem TagI [Text (py "Часть " ++ str_of_nat (i + 1)
                                ++ py " из " ++ str_of_nat n)]] in
  let new_part := part_header :: part in
  let back :=
    if (0 <? i)%nat
    then match nth_error urls (i - 1) with
         | Some u => Some [link u (py "← Назад"); Text (py " | ")]
         | None => None
         end
    else Some [] in
  let first :=
    match nth_error urls 0 with
    | Some u => Some [link u (title ++ py " (начало)")]
    | None => None
    end in
  let next :=
    if (i <? n - 1)%nat
    then match nth_error urls (i + 1) with
         | Some u => Some [Text (py " | "); link u (py "Далее →")]
         | None => None
         end
    else Some [] in
  match back, first, next with
  | Some b, Some f, Some x =>
    Some (new_part ++ [leaf TagHr] ++ [elem TagP (b ++ f ++ x)])
  | _, _, _ => None
  end.

(** The loop [for i, part in enumerate(parts)]. *)
Fixpoint nav_loop (n : nat) (urls : list str) (title : str) (i : nat)
         (ps : list (list node)) (result : list (list node))
  : option (list (list node)) :=
  match ps with
  | [] => Some result
  | part :: more =>
    match nav_part n urls title i part with
    | Some new_part => nav_loop n urls title (S i) more (result ++ [new_part])
    | None => None
    end
  end.

(** [add_navigation_links] *)
Definition add_navigation_links (ps : list (list node)) (urls : list str)
           (title : str) : option (list (list node)) :=
  if (length ps <=? 1)%nat then Some ps
  else nav_loop (length ps) urls title 0 ps [].

(* ================================================================== *)
(** * The publish command *)
(* ================================================================== *)

(** The [result] object of a Telegraph response, as far as the command
    reads it. *)
Record page := {
  page_path : str;
  page_title : str;
  page_views : option Z
}.

(** What [api_request] returns: [{"success": True, "result": page}] or
    [{"success": False, "error": error}]. *)
Inductive api_result :=
| ApiOk (p : page)
| ApiError (error : str).

(** The two requests of the command, with their parameters. *)
Inductive api_call :=
| CreatePage (access_token title : str) (content : list node)
             (author_name : option str)
| EditPage (access_token path title : str) (content : list node)
           (author_name : option str).

(** The remote service: the answer to a request after a history of
    requests. *)
Definition service := list api_call -> api_call -> api_result.

(** The JSON object printed by the command. *)
Inductive report :=
| ReportError (error : str)
    (* {"success": False, "error": error} *)
| ReportPage (url path title : str) (views : Z)
    (* {"success": True, "url": .., "path": .., "title": .., "views": ..} *)
| ReportParts (n : nat) (urls : list str) (main_url : str).
    (* {"success": True, "parts": n, "urls": urls, "main_url": main_url} *)

(** How a run ends. *)
Inductive outcome (A : Type) :=
| Return (a : A)                  (* falls through *)
| Exit (printed : report) (status : Z)   (* print(...); sys.exit(status) *)
| Crash.                          (* uncaught IndexError *)

Arguments Return {A} a.
Arguments Exit {A} printed status.
Arguments Crash {A}.

(** Computations that issue requests: the history of requests is the
    state. *)
Definition io (A : Type) : Type := list api_call -> outcome A * list api_call.

Definition ret {A : Type} (a : A) : io A := fun h => (Return a, h).

Definition bind {A B : Type} (m : io A) (f : A -> io B) : io B :=
  fun h =>
    match m h with
    | (Return a, h') => f a h'
    | (Exit r s, h') => (Exit r s, h')
    | (Crash, h') => (Crash, h')
    end.

Notation "x <- m ;; f" := (bind m (fun x => f))
  (at level 62, m at next level, right associativity).

Definition sys_exit {A : Type} (printed : report) (status : Z) : io A :=
  fun h => (Exit printed status, h).

Definition crash {A : Type} : io A := fun h => (Crash, h).

(** [api_request]: the request is answered by the service and recorded. *)
Definition api_request (srv : service) (c : api_call) : io api_result :=
  fun h => (Return (srv h c), h ++ [c]).

(** [create_page] *)
Definition create_page (srv : service) (access_token title : str)
           (content : list node) (author_name : option str) : io api_result :=
  api_request srv (CreatePage access_token title content author_name).

(** [edit_page] *)
Definition edit_page (srv : service) (access_token path title : str)
           (content : list node) (author_name : option str) : io api_result :=
  api_request srv (EditPage access_token path title content author_name).

(** What [open(args.file).read()] gives. *)
Inductive read_result :=
| FileNotFound
| ReadError (e : str)
| Contents (markdown : str).

Record publish_args := {
  arg_file : str;                (* args.file *)
  arg_title : str;               (* args.title *)
  arg_author : option str;       (* args.author *)
  arg_token : option str         (* args.token *)
}.

(** Truth value of an optional string. *)
Definition truthy (s : option str) : bool :=
  match s with Some (_ :: _) => true | _ => false end.

(** [a or b] *)
Definition py_or (a b : option str) : option str :=
  if truthy a then a else b.

Definition telegraph_url (path : str) : str := py "https://telegra.ph/" ++ path.

(** [part_title] *)
Definition part_title (title : str) (i : nat) : str :=
  if (0 <? i)%nat then title ++ py " (часть " ++ str_of_nat (i + 1) ++ py ")"
  else title.

Section Publish.

Variable db : unicode_db.
Variable srv : service.

(** The loop that creates the placeholder pages, from part [i] on;
    [urls] and [paths] are the lists filled so far. *)
Fixpoint create_parts (token title : str) (author : option str) (i : nat)
         (ps : list (list node)) (urls paths : list str)
  : io (list str * list str) :=
  match ps with
  | [] => ret (urls, paths)
  | part :: more =>
    result <- create_page srv token (part_title title i) part author ;;
    match result with
    | ApiError error =>
      sys_exit (ReportError (py "Failed to create part " ++ str_of_nat (i + 1)
                             ++ py ": " ++ error)) 1
    | ApiOk pg =>
      create_parts token title author (S i) more
                   (urls ++ [telegraph_url (page_path pg)])
                   (paths ++ [page_path pg])
    end
  end.

(** The loop that rewrites the pages: the result of [edit_page] is not
    looked at. *)
Fixpoint edit_parts (token title : str) (author : option str) (i : nat)
         (pairs : list (str * list node)) : io unit :=
  match pairs with
  | [] => ret tt
  | (path, part) :: more =>
    _ <- edit_page srv token path (part_title title i) part author ;;
    edit_parts token title author (S i) more
  end.

(** The branch of [cmd_publish] for several parts. *)
Definition publish_parts (token title : str) (author : option str)
           (ps : list (list node)) : io report :=
  created <- create_parts token title author 0 ps [] [] ;;
  let (urls, paths) := created in
  match add_navigation_links ps urls title with
  | None => crash
  | Some parts_with_nav =>
    _ <- edit_parts token title author 0 (combine paths parts_with_nav) ;;
    match nth_error urls 0 with
    | Some main_url => ret (ReportParts (length ps) urls main_url)
    | None => crash
    end
  end.

(** The branch of [cmd_publish] for one part. *)
Definition publish_single (token title : str) (author : option str)
           (content : list node) : io report :=
  result <- create_page srv token title content author ;;
  match result with
  | ApiError error => sys_exit (ReportError error) 1
  | ApiOk pg =>
    ret (ReportPage (telegraph_url (page_path pg)) (page_path pg)
                    (page_title pg)
                    (match page_views pg with Some v => v | None => 0%Z end))
  end.

(** [cmd_publish]; [config_token] is what [get_telegraph_token()] gives
    and [file] what reading [args.file] gives.  [None] from the
    converter (its recursion bound was reached) is kept apart. *)
Definition cmd_publish (args : publish_args) (config_token : option str)
           (file : read_result) : option (io report) :=
  let token := py_or (arg_token args) config_token in
  match token with
  | Some ((_ :: _) as tok) =>
    match file with
    | FileNotFound =>
      Some (sys_exit (ReportError (py "File not found: " ++ arg_file args)) 1)
    | ReadError e =>
      Some (sys_exit (ReportError (py "Error reading file: " ++ e)) 1)
    | Contents markdown =>
      match markdown_to_nodes db markdown with
      | None => None
      | Some [] =>
        Some (sys_exit (ReportError (py "Empty content after conversion")) 1)
      | Some content =>
        let ps := split_content_for_publishing content MAX_CONTENT_SIZE in
        match ps with
        | [single] =>
          Some (publish_single tok (arg_title args) (arg_author args) single)
        | _ =>
          Some (publish_parts tok (arg_title args) (arg_author args) ps)
        end
      end
    end
  | _ =>
    Some (sys_exit (ReportError (py "No Telegraph token. Run 'create-account' first or provide --token")) 1)
  end.

End Publish.

(* ================================================================== *)
(** * The edit command *)
(* ================================================================== *)

Record edit_args := {
  earg_url : str;                (* args.url *)
  earg_file : str;               (* args.file *)
  earg_title : option str;       (* args.title *)
  earg_author : option str;      (* args.author *)
  earg_token : option str        (* args.token *)
}.

(** The requests of [cmd_edit]: [get_page(path)], whose
    [return_content] is [True] by default, and [edit_page]. *)
Inductive edit_request :=
| GetPageCall (path : str) (return_content : bool)
| EditPageCall (access_token path title : str) (content : list node)
               (author_name : option str).

(** What [get_page] returns, as far as the command reads it: the
    [title] of the page, a key that may be absent, or an error. *)
Inductive get_result :=
| GetOk (title : option str)
| GetError (error : str).

(** The remote service for the two requests, after a history of
    requests. *)
Record edit_service := {
  answer_get : list edit_request -> edit_request -> get_result;
  answer_edit : list edit_request -> edit_request -> api_result
}.

(** The path of a page from its URL: the prefix of the site is cut. *)
Definition url_path (url : str) : str :=
  if startswith (py "https://telegra.ph/") url
  then skipn (length (py "https://telegra.ph/")) url
  else if startswith (py "http://telegra.ph/") url
       then skipn (length (py "http://telegra.ph/")) url
       else url.

(** [args.title or current_page.get("title", "Untitled")] *)
Definition edit_title (arg_title : option str) (current : option str) : str :=
  match arg_title with
  | Some ((_ :: _) as t) => t
  | _ => match current with
         | Some t => t
         | None => py "Untitled"
         end
  end.

(** [cmd_edit]: what it prints, how it ends and the requests it
    issued.  [None] from the converter is kept apart, as in
    [cmd_publish]. *)
Definition cmd_edit (db : unicode_db) (srv : edit_service)
           (args : edit_args) (config_token : option str)
           (file : read_result)
  : option (outcome report * list edit_request) :=
  match py_or (earg_token args) config_token with
  | Some ((_ :: _) as tok) =>
    let path := url_path (earg_url args) in
    let get := GetPageCall path true in
    match answer_get srv [] get with
    | GetError e =>
      Some (Exit (ReportError (py "Failed to get page: " ++ e)) 1%Z, [get])
    | GetOk current =>
      let title := edit_title (earg_title args) current in
      match file with
      | FileNotFound =>
        Some (Exit (ReportError (py "File not found: " ++ earg_file args)) 1%Z,
              [get])
      | ReadError e =>
        Some (Exit (ReportError (py "Error reading file: " ++ e)) 1%Z, [get])
      | Contents markdown =>
        match markdown_to_nodes db markdown with
        | None => None
        | Some [] =>
          Some (Exit (ReportError (py "Empty content after conversion")) 1%Z,
                [get])
        | Some content =>
          if (estimate_content_size content >? MAX_CONTENT_SIZE)%Z
          then Some (Exit (ReportError (py "Content exceeds 64KB limit. Edit doesn't support multi-part. Consider publishing as new article.")) 1%Z,
                     [get])
          else
            let edit :=
                EditPageCall tok path title content (earg_author args) in
            match answer_edit srv [get] edit with
            | ApiError e => Some (Exit (ReportError e) 1%Z, [get; edit])
            | ApiOk p =>
              Some (Return (ReportPage (telegraph_url (page_path p))
                                       (page_path p) (page_title p)
                                       (match page_views p with
                                        | Some v => v
                                        | None => 0%Z
                                        end)),
                    [get; edit])
            end
        end
      end
    end
  | _ =>
    Some (Exit (ReportError (py "No Telegraph token. Run 'create-account' first or provide --token")) 1%Z,
          [])
  end.

(* ================================================================== *)
(** * Definitions for the statements *)
(* ================================================================== *)

(** Definitions used to state the properties below: sizes as the loop of
    the partitioner accounts them, the chunks of the navigation linker as
    the specification describes them, the requests of a run of the publish
    command, and inputs for the evaluations. *)

(** A line that, stripped, is three or more times the character [ch]. *)
Definition is_fence_run (ch : char) (line : str) : bool :=
  (3 <=? length (strip line)) && forallb (N.eqb ch) (strip line).

(** The state with the blocks [b] emitted before its own. *)
Definition prepend (b : list str) (st : split_state) : split_state :=
  {| blocks := b ++ blocks st;
     current_block := current_block st;
     in_code_block := in_code_block st;
     code_fence := code_fence st |}.

(** Outside a code block the recorded fence character is not read. *)
Definition same_outside (st1 st2 : split_state) : Prop :=
  blocks st1 = blocks st2 /\ current_block st1 = current_block st2
  /\ in_code_block st1 = in_code_block st2
  /\ (in_code_block st1 = true -> code_fence st1 = code_fence st2).

(** Least number of characters a pattern consumes. *)
Fixpoint min_len (r : regex) : nat :=
  match r with
  | Chr _ => 1
  | Rep _ lo _ => lo
  | Cat r1 r2 => min_len r1 + min_len r2
  | Alt r1 r2 => Nat.min (min_len r1) (min_len r2)
  | Grp _ r1 => min_len r1
  | _ => 0
  end.

(** [st'] is [st] moved on by [n] characters, with more groups, none
    longer than [n]. *)
Definition moved (n : nat) (st st' : cursor) : Prop :=
  pos st' = pos st + n /\ n <= length (rest st)
  /\ rest st' = skipn n (rest st)
  /\ exists gs, groups st' = gs ++ groups st
                /\ Forall (fun g => length (snd g) <= n) gs.

(** A pattern that consumes a character before its groups: its match
    ends after its start, within the text, and every group is shorter
    than the text from the start on. *)
Definition consuming (r : regex) : Prop :=
  forall (st c : cursor),
    groups st = [] ->
    exec r st Some = Some c ->
    pos st < pos c <= pos st + length (rest st)
    /\ forall i, length (group i (groups c)) < length (rest st).

Local Open Scope Z_scope.

(** Sum of the serialized sizes of the nodes of a chunk. *)
Fixpoint sum_sizes (chunk : list node) : Z :=
  match chunk with
  | [] => 0
  | n :: more => byte_len (dumps n) + sum_sizes more
  end.

(** The size the loop accounts for a chunk: one byte per node on top of
    the nodes and the brackets. *)
Definition accounted_size (chunk : list node) : Z :=
  2 + sum_sizes chunk + Z.of_nat (length chunk).

(** A closed chunk is a single node or was accounted within the
    budget. *)
Definition chunk_ok (max_size : Z) (chunk : list node) : Prop :=
  chunk <> [] /\ (length chunk = 1%nat \/ accounted_size chunk <= max_size).

Record part_inv (max_size : Z) (st : part_state) : Prop := {
  inv_size : current_size st = accounted_size (current_part st);
  inv_parts : Forall (chunk_ok max_size) (parts st);
  inv_current : current_part st = [] \/ chunk_ok max_size (current_part st)
}.

Local Close Scope Z_scope.

(** The texts of the navigation nodes. *)
Record nav_labels := {
  label_part : nat -> nat -> str;   (* the counter of part k of n *)
  label_back : str;
  label_start : str -> str;         (* from the title *)
  label_next : str
}.

(** The texts as the specification words them. *)
Definition labels_of_spec : nav_labels :=
  {| label_part := fun k n => py "Part " ++ str_of_nat k ++ py " of " ++ str_of_nat n;
     label_back := py "← Back";
     label_start := fun title => title ++ py " (start)";
     label_next := py "Next →" |}.

(** The texts as the source has them. *)
Definition labels_of_source : nav_labels :=
  {| label_part := fun k n => py "Часть " ++ str_of_nat k ++ py " из " ++ str_of_nat n;
     label_back := py "← Назад";
     label_start := fun title => title ++ py " (начало)";
     label_next := py "Далее →" |}.

(** Chunk [i] of [n] as the specification describes it: the counter
    paragraph, the chunk, a rule, and the paragraph of links. *)
Definition nav_chunk (L : nav_labels) (n : nat) (urls : list str)
           (title : str) (i : nat) (part : list node) : list node :=
  [elem TagP [elem TagI [Text (label_part L (i + 1) n)]]]
  ++ part
  ++ [leaf TagHr;
      elem TagP
        ((if (i =? 0)%nat then []
          else [link (nth (i - 1) urls []) (label_back L); Text (py " | ")])
         ++ [link (nth 0 urls []) (label_start L title)]
         ++ (if (i <? n - 1)%nat
             then [Text (py " | "); link (nth (i + 1) urls []) (label_next L)]
             else []))].

(** All the chunks, numbered from [i]. *)
Fixpoint nav_chunks (L : nav_labels) (n : nat) (urls : list str)
         (title : str) (i : nat) (ps : list (list node))
  : list (list node) :=
  match ps with
  | [] => []
  | part :: more =>
    nav_chunk L n urls title i part :: nav_chunks L n urls title (S i) more
  end.

(** [needle in hay] *)
Fixpoint contains (needle hay : str) : bool :=
  startswith needle hay
  || match hay with
     | [] => false
     | _ :: tl => contains needle tl
     end.

(** The strings of a printed report. *)
Definition report_texts (r : report) : list str :=
  match r with
  | ReportError error => [error]
  | ReportPage url path title _ => [url; path; title]
  | ReportParts _ urls main_url => urls ++ [main_url]
  end.

(** The request that creates part [i], and the first [k] of them. *)
Definition create_call (token title : str) (author : option str)
           (ps : list (list node)) (i : nat) : api_call :=
  CreatePage token (part_title title i) (nth i ps []) author.

Definition create_calls (token title : str) (author : option str)
           (ps : list (list node)) (k : nat) : list api_call :=
  map (create_call token title author ps) (seq 0 k).

(** The request that rewrites part [i]. *)
Definition edit_call (token title : str) (author : option str)
           (i : nat) (pr : str * list node) : api_call :=
  EditPage token (fst pr) (part_title title i) (snd pr) author.

Fixpoint edit_calls (token title : str) (author : option str) (i : nat)
         (pairs : list (str * list node)) : list api_call :=
  match pairs with
  | [] => []
  | pr :: more =>
    edit_call token title author i pr
    :: edit_calls token title author (S i) more
  end.

(** A Markdown text of [n] horizontal rules; 4682 of them convert to a
    document that is split into two chunks. *)
Definition rules (n : nat) : str :=
  str_join [NL] (concat (repeat [py "---"; []] n)).

Definition demo_args : publish_args :=
  {| arg_file := py "doc.md"; arg_title := py "T"; arg_author := None;
     arg_token := Some (py "secret") |}.

(** A service that creates the first page and fails afterwards. *)
Definition second_create_fails : service :=
  fun h _ =>
    match h with
    | [] => ApiOk {| page_path := py "page-0"; page_title := py "T";
                     page_views := Some 0%Z |}
    | _ => ApiError (py "boom")
    end.

(** A service that creates every page and fails every edit. *)
Definition edits_fail : service :=
  fun h c =>
    match c with
    | CreatePage _ title _ _ =>
      ApiOk {| page_path := py "page-" ++ str_of_nat (length h);
               page_title := title; page_views := Some 0%Z |}
    | EditPage _ _ _ _ _ => ApiError (py "boom")
    end.

Definition is_edit (c : api_call) : bool :=
  match c with
  | EditPage _ _ _ _ _ => true
  | CreatePage _ _ _ _ => false
  end.

(** ** Shapes of token lists *)

Definition is_text (n : node) : bool :=
  match n with Text _ => true | Element _ _ _ => false end.

Definition is_empty_text (n : node) : bool :=
  match n with Text [] => true | _ => false end.

Definition starts_with_text (l : list node) : bool :=
  match l with n :: _ => is_text n | [] => false end.

Definition ends_with_text (l : list node) : bool :=
  starts_with_text (rev l).

(** No string of the list is empty and no two strings are neighbours. *)
Fixpoint merged (l : list node) : bool :=
  match l with
  | [] => true
  | n :: more =>
    negb (is_empty_text n) && negb (is_text n && starts_with_text more)
    && merged more
  end.

(** A text without the characters that start a link, an emphasis or a
    code span. *)
Definition plain (s : str) : bool := forallb (none_of "[*_`") s.

(** ** States of the segmenter *)

(** The open block starts with a line that is not blank, and a code
    block that is open has its opening line. *)
Record split_inv (st : split_state) : Prop := {
  inv_blocks : Forall (fun b => nonblank b = true) (blocks st);
  inv_first : match current_block st with
              | [] => in_code_block st = false
              | l :: _ => nonblank l = true
              end
}.

(** The lines kept so far: those of the blocks and those of the open
    block. *)
Definition kept_lines (st : split_state) : list str :=
  concat (map (str_split NL) (blocks st)) ++ current_block st.

(** The class does not hold of the first character, if there is one. *)
Definition stops (p : char -> bool) (b : str) : Prop :=
  match b with [] => True | c :: _ => p c = false end.

(** ** Chunks of the partitioner *)

Local Open Scope Z_scope.

(** Sum of the serialized sizes of the chunks. *)
Fixpoint total_size (chunks : list (list node)) : Z :=
  match chunks with
  | [] => 0%Z
  | c :: more => (estimate_content_size c + total_size more)%Z
  end.

(** Every chunk but the last was closed because the first node of the
    next one did not fit, by the accounting of the loop. *)
Fixpoint closed_when_full (max_size : Z) (chunks : list (list node)) : Prop :=
  match chunks with
  | c :: more =>
    match more with
    | d :: _ =>
      match d with
      | n :: _ => (max_size < accounted_size c + (byte_len (dumps n) + 1))%Z
      | [] => False
      end
    | [] => True
    end
    /\ closed_when_full max_size more
  | [] => True
  end.

(** What the loop keeps: the size it counts is the accounted size of
    the open chunk, chunks are closed only when they are not empty,
    and every chunk was closed when it was full. *)
Record full_inv (max_size : Z) (st : part_state) : Prop := {
  full_size : current_size st = accounted_size (current_part st);
  full_first : current_part st = [] -> parts st = [];
  full_closed : closed_when_full max_size (parts st ++ [current_part st])
}.

Local Close Scope Z_scope.

(** ** Runs of the publish and edit commands *)


(** The content of a request to edit a page is within the budget. *)
Definition edit_within_budget (c : edit_request) : Prop :=
  match c with
  | EditPageCall _ _ _ content _ =>
    content <> [] /\ (estimate_content_size content <= MAX_CONTENT_SIZE)%Z
  | GetPageCall _ _ => True
  end.

(** A service that finds every page and accepts every edit, and
    arguments of an edit, for the evaluations. *)
Definition always_ok : edit_service :=
  {| answer_get := fun _ _ => GetOk (Some (py "Old title"));
     answer_edit := fun _ c =>
       match c with
       | EditPageCall _ path title _ _ =>
         ApiOk {| page_path := path; page_title := title;
                  page_views := None |}
       | GetPageCall _ _ => ApiError (py "not an edit")
       end |}.

Definition demo_edit_args : edit_args :=
  {| earg_url := py "https://telegra.ph/Page-01-01";
     earg_file := py "doc.md"; earg_title := None; earg_author := None;
     earg_token := Some (py "secret") |}.

(* ================================================================== *)
(** * Properties of strings *)
(* ================================================================== *)

Lemma startswith_true (p s : str) :
  startswith p s = true <-> exists r, s = p ++ r.
Proof.
  revert s. induction p as [|a p IH]; intros s; cbn.
  - split; [intros _; now exists s | reflexivity].
  - destruct s as [|b s].
    + split; [discriminate | intros [r H]; discriminate].
    + rewrite andb_true_iff, N.eqb_eq, IH. split.
      * intros [-> [r ->]]. now exists r.
      * intros [r H]. injection H as -> ->. split; [reflexivity | now exists r].
Qed.

Lemma startswith_refl (s : str) : startswith s s = true.
Proof. apply startswith_true. exists []. now rewrite app_nil_r. Qed.

Lemma str_eqb_eq (a b : str) : str_eqb a b = true <-> a = b.
Proof.
  unfold str_eqb. rewrite andb_true_iff, Nat.eqb_eq, startswith_true. split.
  - intros [Hlen [r ->]]. rewrite length_app in Hlen.
    destruct r; [now rewrite app_nil_r | cbn in Hlen; lia].
  - intros ->. split; [reflexivity | exists []; now rewrite app_nil_r].
Qed.

Lemma str_mul_single (c : char) (n : nat) : str_mul [c] n = repeat c n.
Proof. unfold str_mul. induction n; cbn; [|rewrite IHn]; reflexivity. Qed.

Lemma lstrip_nil (s : str) : lstrip s = [] <-> forallb isspace s = true.
Proof.
  induction s as [|c s IH]; cbn; [tauto|].
  destruct (isspace c); cbn; [exact IH | split; discriminate].
Qed.

Lemma lstrip_head (s : str) (c : char) (t : str) :
  lstrip s = c :: t -> isspace c = false.
Proof.
  induction s as [|a s IH]; cbn; [discriminate|].
  destruct (isspace a) eqn:Ha; [exact IH|]. intros H. injection H as <- _.
  exact Ha.
Qed.

Lemma forallb_rev {A : Type} (f : A -> bool) (l : list A) :
  forallb f (rev l) = forallb f l.
Proof.
  induction l as [|a l IH]; cbn; [reflexivity|].
  rewrite forallb_app, IH. cbn. rewrite andb_true_r. apply andb_comm.
Qed.

Lemma rstrip_nil (s : str) : rstrip s = [] <-> forallb isspace s = true.
Proof.
  unfold rstrip. rewrite <- (forallb_rev isspace s), <- lstrip_nil.
  split; intros H.
  - apply (f_equal (@rev _)) in H. now rewrite rev_involutive in H.
  - now rewrite H.
Qed.

(** A string strips to nothing exactly when it is all whitespace. *)
Lemma strip_nil (s : str) : strip s = [] <-> forallb isspace s = true.
Proof.
  unfold strip. rewrite rstrip_nil. split; intros H.
  - destruct (lstrip s) as [|c t] eqn:E; [now apply lstrip_nil|].
    apply lstrip_head in E. cbn in H. now rewrite E in H.
  - apply lstrip_nil in H. now rewrite H.
Qed.

Lemma nonblank_true (s : str) : nonblank s = true <-> strip s <> [].
Proof.
  unfold nonblank. destruct (strip s); split; congruence.
Qed.

(** Lines and the texts they make up. *)
Lemma str_split_not_nil (sep : char) (s : str) : str_split sep s <> [].
Proof.
  destruct s as [|c s]; cbn; [discriminate|].
  destruct (N.eqb c sep); [discriminate|].
  destruct (str_split sep s); discriminate.
Qed.

Lemma str_split_no_sep (sep : char) (s : str) :
  Forall (fun l => ~ In sep l) (str_split sep s).
Proof.
  induction s as [|c s IH]; cbn.
  - constructor; [intros [] | constructor].
  - destruct (N.eqb_spec c sep) as [-> | Hne].
    + constructor; [intros [] | exact IH].
    + destruct (str_split sep s) as [|w ws].
      * constructor; [|constructor]. intros [H | []]. congruence.
      * inversion IH as [|? ? Hw Hws]; subst. constructor; [|exact Hws].
        intros [H | H]; [congruence | contradiction].
Qed.

Lemma str_split_line (sep : char) (l : str) :
  ~ In sep l -> str_split sep l = [l].
Proof.
  induction l as [|c l IH]; intros H; cbn; [reflexivity|].
  destruct (N.eqb_spec c sep) as [-> | Hne]; [exfalso; apply H; now left|].
  rewrite IH; [reflexivity|]. intros Hin. apply H. now right.
Qed.

Lemma str_split_app (sep : char) (l : str) (s : str) :
  ~ In sep l ->
  str_split sep (l ++ sep :: s) = l :: str_split sep s.
Proof.
  induction l as [|c l IH]; intros H; cbn.
  - now rewrite N.eqb_refl.
  - destruct (N.eqb_spec c sep) as [-> | Hne]; [exfalso; apply H; now left|].
    rewrite IH; [reflexivity|]. intros Hin. apply H. now right.
Qed.

(** Splitting the join of lines gives the lines back. *)
Lemma str_split_join (sep : char) (ls : list str) :
  ls <> [] -> Forall (fun l => ~ In sep l) ls ->
  str_split sep (str_join [sep] ls) = ls.
Proof.
  induction ls as [|l ls IH]; intros Hne Hall; [congruence|].
  inversion Hall as [|? ? Hl Hls]; subst.
  destruct ls as [|l' ls].
  - cbn. now apply str_split_line.
  - change (str_join [sep] (l :: l' :: ls))
      with (l ++ sep :: str_join [sep] (l' :: ls)).
    rewrite str_split_app by exact Hl.
    rewrite IH; [reflexivity | discriminate | exact Hls].
Qed.

Lemma forallb_join_false (f : char -> bool) (sep : str) (l : str)
      (ls : list str) :
  forallb f l = false -> forallb f (str_join sep (l :: ls)) = false.
Proof.
  intros H. destruct ls as [|l' ls]; cbn [str_join]; [exact H|].
  rewrite forallb_app, H. reflexivity.
Qed.

(* ================================================================== *)
(** * Properties of the matcher *)
(* ================================================================== *)

(** The characters counted by [run] are in the class. *)
Lemma run_firstn (p : char -> bool) (s : str) (j : nat) :
  j <= run p None s -> forallb p (firstn j s) = true /\ j <= length s.
Proof.
  revert j. induction s as [|c s IH]; intros j Hj; cbn in Hj.
  - assert (j = 0) as -> by lia. split; [reflexivity | cbn; lia].
  - destruct (p c) eqn:Hc.
    + destruct j as [|j]; [split; [reflexivity | cbn; lia]|].
      cbn [firstn forallb length]. rewrite Hc.
      destruct (IH j) as [H1 H2]; [cbn in Hj; lia|]. split; [exact H1 | lia].
    + assert (j = 0) as -> by lia. split; [reflexivity | cbn; lia].
Qed.

Lemma run_repeat (c : char) (n : nat) :
  run (N.eqb c) None (repeat c n) = n.
Proof.
  induction n as [|n IH]; cbn; [reflexivity|].
  rewrite N.eqb_refl. cbn. now rewrite IH.
Qed.

Lemma forallb_eqb_repeat (c : char) (s : str) :
  forallb (N.eqb c) s = true <-> s = repeat c (length s).
Proof.
  induction s as [|a s IH]; cbn; [tauto|].
  rewrite andb_true_iff, N.eqb_eq, IH. split.
  - intros [-> H]. now rewrite <- H.
  - intros H. injection H as <- H. split; [reflexivity | exact H].
Qed.

(** A successful repetition ran the continuation after some number of
    characters between the bounds. *)
Lemma rep_try_some (n lo : nat) (st : cursor)
      (k : cursor -> option cursor) (c : cursor) :
  lo <= n -> rep_try n lo st k = Some c ->
  exists j, lo <= j <= n /\ k (advance j st) = Some c.
Proof.
  induction n as [|n IH]; intros Hlo H; cbn in H.
  - destruct (k (advance 0 st)) eqn:E; [|discriminate].
    exists 0. split; [lia | congruence].
  - destruct (k (advance (S n) st)) eqn:E.
    + exists (S n). split; [lia | congruence].
    + destruct (Nat.leb_spec lo n) as [Hle | Hgt]; [|discriminate].
      destruct (IH Hle H) as (j & Hj & Hk). exists j. split; [lia | exact Hk].
Qed.

(** The longest repetition is tried first. *)
Lemma rep_try_first (n lo : nat) (st : cursor)
      (k : cursor -> option cursor) (c : cursor) :
  k (advance n st) = Some c -> rep_try n lo st k = Some c.
Proof. intros H. destruct n; cbn; now rewrite H. Qed.

Lemma exec_rep_some (p : char -> bool) (lo : nat) (st : cursor)
      (k : cursor -> option cursor) (c : cursor) :
  exec (Rep p lo None) st k = Some c ->
  exists j, lo <= j /\ forallb p (firstn j (rest st)) = true
            /\ j <= length (rest st) /\ k (advance j st) = Some c.
Proof.
  cbn [exec]. destruct (Nat.leb_spec lo (run p None (rest st))) as [Hlo | Hlo];
    [|discriminate].
  intros H. destruct (rep_try_some _ _ Hlo H) as (j & Hj & Hk).
  destruct (run_firstn p (rest st) (j := j)) as [H1 H2]; [lia|].
  exists j. repeat split; (lia || assumption).
Qed.

Lemma one_single (c : string) (a x : char) :
  py c = [a] -> one c x = true -> x = a.
Proof.
  unfold one, char_in. intros ->. cbn. rewrite orb_false_r.
  apply N.eqb_eq.
Qed.

(** Unfolding equations of the matcher. *)
Lemma exec_cat (r1 r2 : regex) (st : cursor) (k : cursor -> option cursor) :
  exec (r1 >> r2) st k = exec r1 st (fun st' => exec r2 st' k).
Proof. reflexivity. Qed.

Lemma exec_alt_some (r1 r2 : regex) (st : cursor)
      (k : cursor -> option cursor) (c : cursor) :
  exec (Alt r1 r2) st k = Some c ->
  exec r1 st k = Some c \/ exec r2 st k = Some c.
Proof.
  cbn [exec]. destruct (exec r1 st k); [left | right]; assumption.
Qed.

Lemma exec_opt_some (r : regex) (st : cursor)
      (k : cursor -> option cursor) (c : cursor) :
  exec (Opt r) st k = Some c -> exec r st k = Some c \/ k st = Some c.
Proof.
  cbn [exec]. destruct (exec r st k); [left | right]; assumption.
Qed.

Lemma exec_grp (i : nat) (r : regex) (st : cursor)
      (k : cursor -> option cursor) :
  exec (Grp i r) st k
  = exec r st (fun st' =>
                 k (set_group i (firstn (pos st' - pos st) (rest st)) st')).
Proof. reflexivity. Qed.

Lemma exec_eol_some (st : cursor) (k : cursor -> option cursor) (c : cursor) :
  exec Eol st k = Some c -> k st = Some c.
Proof.
  cbn [exec]. destruct (rest st) as [|a [|b r]]; try discriminate; [tauto|].
  destruct (N.eqb a NL); [tauto | discriminate].
Qed.

Lemma pos_advance (j : nat) (st : cursor) : pos (advance j st) - pos st = j.
Proof. cbn. lia. Qed.

(** A group around a repetition captures the characters repeated. *)
Lemma exec_grp_rep_some (i : nat) (p : char -> bool) (lo : nat)
      (st : cursor) (k : cursor -> option cursor) (c : cursor) :
  exec (Grp i (Rep p lo None)) st k = Some c ->
  exists j, lo <= j /\ forallb p (firstn j (rest st)) = true
            /\ j <= length (rest st)
            /\ k (set_group i (firstn j (rest st)) (advance j st)) = Some c.
Proof.
  rewrite exec_grp. intros H. apply exec_rep_some in H.
  destruct H as (j & Hlo & Hp & Hlen & Hk). rewrite pos_advance in Hk.
  exists j. repeat split; assumption.
Qed.

Lemma forallb_one_repeat (cls : string) (a : char) (l : str) :
  py cls = [a] -> forallb (one cls) l = true -> l = repeat a (length l).
Proof.
  intros Hcls H. apply forallb_eqb_repeat.
  rewrite forallb_forall in *. intros x Hx.
  apply N.eqb_eq. symmetry. exact (@one_single cls a x Hcls (H x Hx)).
Qed.

Section Segmenter.

Variable db : unicode_db.

(** What follows the fence in the opening pattern leaves group 1 as it
    is. *)
Lemma fence_tail_group1 (st c : cursor) :
  exec (Opt (Grp 2 (Rep (isword db) 0 None)) >> Eol) st Some = Some c ->
  group 1 (groups c) = group 1 (groups st).
Proof.
  rewrite exec_cat. intros H. apply exec_opt_some in H.
  destruct H as [H | H].
  - apply exec_grp_rep_some in H. destruct H as (j & _ & _ & _ & H).
    apply exec_eol_some in H. injection H as <-. reflexivity.
  - apply exec_eol_some in H. injection H as <-. reflexivity.
Qed.

(** A line matches the opening pattern only if it starts with three
    or more backquotes or tildes, which are group 1. *)
Lemma fence_re_match (s : str) (m : match_obj) :
  re_match (fence_re db) s = Some m ->
  exists ch j, (ch = 96 \/ ch = 126)%N /\ 3 <= j <= length s
               /\ firstn j s = repeat ch j
               /\ group 1 (m_groups m) = repeat ch j.
Proof.
  unfold re_match. destruct (exec _ _ _) as [c|] eqn:E; [|discriminate].
  intros H. injection H as <-. cbn [m_groups].
  unfold fence_re in E. rewrite exec_cat in E.
  change (exec Bol (start_cursor s) ?k) with (k (start_cursor s)) in E.
  cbn beta in E. rewrite exec_cat, exec_grp in E.
  assert (Hrun : forall cls ch,
             py cls = [ch] ->
             exec (Rep (one cls) 3 None) (start_cursor s)
                  (fun st' =>
                     exec (Opt (Grp 2 (Rep (isword db) 0 None)) >> Eol)
                          (set_group 1
                             (firstn (pos st' - pos (start_cursor s))
                                     (rest (start_cursor s))) st')
                          Some) = Some c ->
             exists j, 3 <= j <= length s /\ firstn j s = repeat ch j
                       /\ group 1 (groups c) = repeat ch j).
  { intros cls ch Hcls H. apply exec_rep_some in H.
    destruct H as (j & Hlo & Hp & Hlen & Hk). cbn [rest start_cursor] in *.
    rewrite pos_advance in Hk. apply fence_tail_group1 in Hk.
    cbn [groups set_group group advance Nat.eqb] in Hk.
    apply (@forallb_one_repeat cls ch _ Hcls) in Hp.
    rewrite length_firstn, Nat.min_l in Hp by exact Hlen.
    exists j. repeat split; try (lia || assumption). congruence. }
  apply exec_alt_some in E. destruct E as [E | E].
  - destruct (Hrun "`" 96%N eq_refl E) as (j & H). exists 96%N, j. tauto.
  - destruct (Hrun "~" 126%N eq_refl E) as (j & H). exists 126%N, j. tauto.
Qed.

(** The closing pattern matches a run of three or more fence
    characters. *)
Lemma close_re_repeat (ch : char) (n : nat) :
  3 <= n -> is_match (re_match (close_re [ch]) (repeat ch n)) = true.
Proof.
  intros Hn. unfold re_match, close_re. rewrite exec_cat.
  change (exec Bol (start_cursor ?s) ?k) with (k (start_cursor s)).
  cbn beta. rewrite exec_cat. cbn [exec rest start_cursor].
  rewrite run_repeat.
  replace (3 <=? n) with true by (symmetry; now apply Nat.leb_le).
  rewrite (rep_try_first n 3 _ _
             (c := advance n (start_cursor (repeat ch n)))).
  - reflexivity.
  - cbn [advance rest start_cursor].
    rewrite skipn_all2 by (rewrite repeat_length; lia). reflexivity.
Qed.

(** The test that ends a code block holds exactly of the lines that,
    stripped, are three or more fence characters. *)
Lemma closes_fence_run (ch : char) (line : str) :
  closes_fence [ch] line = is_fence_run ch line.
Proof.
  unfold closes_fence, is_fence_run. rewrite str_mul_single.
  set (s := strip line).
  apply eq_true_iff_eq. rewrite !andb_true_iff, str_eqb_eq, str_mul_single.
  rewrite Nat.leb_le, forallb_eqb_repeat, startswith_true. split.
  - intros [[[r Hr] Hs] _]. split; [|exact Hs].
    apply (f_equal (@length _)) in Hr. rewrite length_app in Hr.
    cbn in Hr. lia.
  - intros [Hlen Hs]. split; [split; [|exact Hs]|].
    + exists (repeat ch (length s - 3)). rewrite <- repeat_app.
      rewrite Hs at 1. f_equal. lia.
    + rewrite Hs. now apply close_re_repeat.
Qed.

(** The fence character recorded at the opening is the first character
    of the stripped line, a backquote or a tilde, and the line starts
    with three of them. *)
Lemma fence_opening (line : str) (m : match_obj) :
  re_match (fence_re db) (strip line) = Some m ->
  exists ch, (ch = 96 \/ ch = 126)%N
             /\ hd_error (strip line) = Some ch
             /\ firstn 1 (group 1 (m_groups m)) = [ch]
             /\ startswith (repeat ch 3) (strip line) = true.
Proof.
  intros H. apply fence_re_match in H.
  destruct H as (ch & j & Hch & Hj & Hfirst & Hgroup).
  exists ch. split; [exact Hch|].
  destruct j as [|[|[|j]]]; try lia.
  rewrite Hgroup. split; [|split; [reflexivity|]].
  - rewrite <- (firstn_skipn (S (S (S j))) (strip line)), Hfirst. reflexivity.
  - apply startswith_true.
    exists (repeat ch j ++ skipn (S (S (S j))) (strip line)).
    rewrite <- (firstn_skipn (S (S (S j))) (strip line)) at 1.
    rewrite Hfirst. reflexivity.
Qed.

(** ** The loop of [_split_blocks] *)

Lemma flush_prepend (b bs cur : list str) :
  flush (b ++ bs) cur = b ++ flush bs cur.
Proof. destruct cur; cbn; [reflexivity | now rewrite app_assoc]. Qed.

Lemma split_step_prepend (b : list str) (st : split_state) (l : str) :
  split_step db (prepend b st) l = prepend b (split_step db st l).
Proof.
  unfold split_step, prepend. cbn [blocks current_block in_code_block code_fence].
  destruct (re_match (fence_re db) (strip l)), (in_code_block st);
    try destruct (closes_fence _ _); try destruct (str_eqb _ _);
    cbn [blocks current_block in_code_block code_fence];
    rewrite ?flush_prepend, ?app_assoc; reflexivity.
Qed.

Lemma split_loop_prepend (b : list str) (ls : list str) (st : split_state) :
  fold_left (split_step db) ls (prepend b st)
  = prepend b (fold_left (split_step db) ls st).
Proof.
  revert st. induction ls as [|l ls IH]; intros st; cbn; [reflexivity|].
  now rewrite split_step_prepend, IH.
Qed.

Lemma split_step_same (st1 st2 : split_state) (l : str) :
  same_outside st1 st2 ->
  same_outside (split_step db st1 l) (split_step db st2 l).
Proof.
  destruct st1 as [b1 c1 i1 f1], st2 as [b2 c2 i2 f2].
  unfold same_outside. cbn. intros (-> & -> & -> & Hf).
  unfold split_step. cbn [blocks current_block in_code_block code_fence].
  destruct i2.
  - rewrite (Hf eq_refl).
    destruct (re_match (fence_re db) (strip l)), (closes_fence f2 l);
      cbn; repeat split; try reflexivity; discriminate.
  - destruct (re_match (fence_re db) (strip l)); [|destruct (str_eqb _ _)];
      cbn; repeat split; try reflexivity; discriminate.
Qed.

Lemma split_loop_same (ls : list str) (st1 st2 : split_state) :
  same_outside st1 st2 ->
  same_outside (fold_left (split_step db) ls st1)
               (fold_left (split_step db) ls st2).
Proof.
  revert st1 st2. induction ls as [|l ls IH]; intros st1 st2 H; cbn;
    [exact H | apply IH, split_step_same, H].
Qed.

(** Inside a code block the lines that do not end it are appended to
    the open block. *)
Lemma split_loop_inside (ch : char) (body : list str) :
  Forall (fun l => is_fence_run ch l = false) body ->
  forall (b cur : list str),
    fold_left (split_step db) body
              {| blocks := b; current_block := cur; in_code_block := true;
                 code_fence := [ch] |}
    = {| blocks := b; current_block := cur ++ body; in_code_block := true;
         code_fence := [ch] |}.
Proof.
  induction 1 as [|l body Hl _ IH]; intros b cur; cbn [fold_left].
  - now rewrite app_nil_r.
  - unfold split_step at 2.
    cbn [blocks current_block in_code_block code_fence].
    rewrite closes_fence_run, Hl.
    replace (match re_match (fence_re db) (strip l) with
             | Some _ | _ => _ end)
      with {| blocks := b; current_block := cur ++ [l];
              in_code_block := true; code_fence := [ch] |}
      by (destruct (re_match (fence_re db) (strip l)); reflexivity).
    rewrite IH, <- app_assoc. reflexivity.
Qed.

(** The lines from the opening fence to the first line that ends the
    block make one block, whatever the lines between are. *)
Lemma split_lines_fence (pre : list str) (opening : str) (body : list str)
      (closing : str) (post : list str) (ch : char) :
  in_code_block (fold_left (split_step db) pre split_init) = false ->
  is_match (re_match (fence_re db) (strip opening)) = true ->
  hd_error (strip opening) = Some ch ->
  Forall (fun l => is_fence_run ch l = false) body ->
  is_fence_run ch closing = true ->
  split_lines db (pre ++ opening :: body ++ closing :: post)
  = split_lines db pre
    ++ [str_join [NL] (opening :: body ++ [closing])]
    ++ split_lines db post.
Proof.
  intros Hpre Hopen Hch Hbody Hclose.
  destruct (re_match (fence_re db) (strip opening)) as [m|] eqn:Hm;
    [clear Hopen | discriminate].
  destruct (fence_opening _ Hm) as (ch' & _ & Hhd & Hgrp & _).
  assert (ch' = ch) as -> by congruence.
  unfold split_lines. rewrite fold_left_app.
  set (st0 := fold_left (split_step db) pre split_init) in *.
  cbn [fold_left].
  assert (H1 : split_step db st0 opening
               = {| blocks := split_finish st0; current_block := [opening];
                    in_code_block := true; code_fence := [ch] |}).
  { unfold split_step. rewrite Hm, Hpre, Hgrp. reflexivity. }
  rewrite H1, fold_left_app, (@split_loop_inside ch body Hbody). cbn [fold_left].
  unfold split_step at 2.
  cbn [blocks current_block in_code_block code_fence].
  rewrite closes_fence_run, Hclose.
  replace (match re_match (fence_re db) (strip closing) with
           | Some _ | _ => _ end)
    with (prepend (split_finish st0
                   ++ [str_join [NL] (([opening] ++ body) ++ [closing])])
                  {| blocks := []; current_block := []; in_code_block := false;
                     code_fence := [ch] |})
    by (unfold prepend; cbn; rewrite app_nil_r;
        destruct (re_match (fence_re db) (strip closing)); reflexivity).
  rewrite split_loop_prepend.
  assert (Hsame : same_outside
            (fold_left (split_step db) post
               {| blocks := []; current_block := []; in_code_block := false;
                  code_fence := [ch] |})
            (fold_left (split_step db) post split_init)).
  { apply split_loop_same. repeat split. discriminate. }
  destruct Hsame as (Hb & Hc & _).
  unfold split_finish, prepend. cbn [blocks current_block].
  rewrite flush_prepend, Hb, Hc, <- app_assoc. reflexivity.
Qed.

Lemma is_fence_run_true (ch : char) (line : str) :
  is_fence_run ch line = true
  <-> exists n, 3 <= n /\ strip line = repeat ch n.
Proof.
  unfold is_fence_run.
  rewrite andb_true_iff, Nat.leb_le, forallb_eqb_repeat. split.
  - intros [Hlen Hs]. now exists (length (strip line)).
  - intros (n & Hn & Hs). rewrite Hs, repeat_length. split; [exact Hn|].
    reflexivity.
Qed.

(** Blank lines, and lines that start with a character that is neither
    whitespace nor the fence character, do not end a code block. *)
Lemma blank_not_fence_run (ch : char) (line : str) :
  strip line = [] -> is_fence_run ch line = false.
Proof. unfold is_fence_run. now intros ->. Qed.

Lemma lstrip_snoc (a : str) (x : char) :
  isspace x = false -> lstrip (a ++ [x]) = lstrip a ++ [x].
Proof.
  intros Hx. induction a as [|c a IH]; cbn.
  - now rewrite Hx.
  - destruct (isspace c); [exact IH | reflexivity].
Qed.

Lemma strip_cons (x : char) (t : str) :
  isspace x = false -> exists t', strip (x :: t) = x :: t'.
Proof.
  intros Hx. unfold strip, rstrip. cbn [lstrip]. rewrite Hx.
  cbn [rev]. rewrite lstrip_snoc by exact Hx. rewrite rev_app_distr.
  cbn. now eexists.
Qed.

Lemma marked_not_fence_run (ch x : char) (line : str) :
  startswith [x] line = true -> isspace x = false -> x <> ch ->
  is_fence_run ch line = false.
Proof.
  intros Hs Hx Hne. apply startswith_true in Hs. destruct Hs as [t ->].
  destruct (@strip_cons x t Hx) as [t' Ht]. unfold is_fence_run.
  cbn [app] in *. rewrite Ht. cbn [forallb].
  destruct (N.eqb_spec ch x) as [-> | _]; [congruence|].
  now rewrite andb_false_r.
Qed.

End Segmenter.

(** C2 (the code departs from the claim).  The segmenter opens a fence
    only on a line that, stripped, is three or more backquotes or three
    or more tildes followed by word characters and nothing else.  The
    line of a fence with the info string c++ is not such a line,
    although [_process_block] and [_process_code_block] take every
    block that starts with three backquotes or tildes for a fenced code
    block.  No fence is open after it, so the blank line of the body
    ends the block, the line that starts with # becomes a block of its
    own, and the closing fence opens a fence: three blocks instead of
    one, and the # line is rendered as a heading. *)
Theorem fence_with_info_string_cut (db : unicode_db) :
  is_match (re_match (fence_re db) (strip (py "```c++"))) = false
  /\ _split_blocks db
       (text_of ["```c++"; "int x;"; EmptyString; "# not a heading"; "```"])
     = [text_of ["```c++"; "int x;"]; py "# not a heading"; py "```"]
  /\ markdown_to_nodes db
       (text_of ["```c++"; "int x;"; EmptyString; "# not a heading"; "```"])
     = Some [elem TagPre [Text (py "int x;")];
             elem TagH3 [Text (py "not a heading")]].
Proof. vm_compute. repeat constructor. Qed.

(** The same fence under the info string cpp is one block, and
    converts to one preformatted node. *)
Example fence_with_word_info_string (db : unicode_db) :
  _split_blocks db
    (text_of ["```cpp"; "int x;"; EmptyString; "# not a heading"; "```"])
  = [text_of ["```cpp"; "int x;"; EmptyString; "# not a heading"; "```"]]
  /\ markdown_to_nodes db
       (text_of ["```cpp"; "int x;"; EmptyString; "# not a heading"; "```"])
     = Some [elem TagPre
               [Text (text_of ["int x;"; EmptyString; "# not a heading"])]].
Proof. vm_compute. repeat constructor. Qed.

(** X25.  Take a text whose lines are [pre], then a line [opening] that,
    stripped, matches the pattern of the segmenter for an opening fence
    (three or more backquotes or three or more tildes, then word
    characters only) while no fence is open, then lines [body] none of
    which is a run of three or more fence characters (blank lines and
    lines starting with #, - or > are such lines, see
    [blank_not_fence_run] and [marked_not_fence_run]), then such a run
    [closing], then [post].  The blocks of the text are the blocks of
    [pre], one block made of the lines from [opening] to [closing], and
    the blocks of [post]: nothing is cut while the fence is open. *)
Theorem fence_kept_whole (db : unicode_db) (text : str) (pre : list str)
        (opening : str) (body : list str) (closing : str) (post : list str)
        (ch : char) :
  str_split NL text = pre ++ opening :: body ++ closing :: post ->
  in_code_block (fold_left (split_step db) pre split_init) = false ->
  is_match (re_match (fence_re db) (strip opening)) = true ->
  hd_error (strip opening) = Some ch ->
  Forall (fun l => is_fence_run ch l = false) body ->
  is_fence_run ch closing = true ->
  _split_blocks db text
  = split_lines db pre
    ++ [str_join [NL] (opening :: body ++ [closing])]
    ++ split_lines db post.
Proof.
  intros Hlines Hpre Hopen Hch Hbody Hclose. unfold _split_blocks.
  rewrite Hlines. now apply split_lines_fence with (ch := ch).
Qed.

Lemma fence_kept_whole_witness :
  _split_blocks latin1_db
    (text_of ["intro"; "```py"; EmptyString; "# not a heading"; "- item";
              "> quote"; "```"; "outro"])
  = split_lines latin1_db [py "intro"]
    ++ [str_join [NL] (py "```py"
                       :: [[]; py "# not a heading"; py "- item"; py "> quote"]
                       ++ [py "```"])]
    ++ split_lines latin1_db [py "outro"].
Proof.
  apply (@fence_kept_whole latin1_db _ [py "intro"] (py "```py")
           [[]; py "# not a heading"; py "- item"; py "> quote"]
           (py "```") [py "outro"] 96%N).
  - reflexivity.
  - reflexivity.
  - reflexivity.
  - reflexivity.
  - repeat constructor.
  - reflexivity.
Defined.

(** C7, as the source has it.  Once a line has opened a fence with the
    character [ch], and as long as no line is a run of three or more
    [ch] (after stripping), the block stays open; the next line closes
    it exactly when it is such a run, whatever the length of the
    opening fence, and then the block from the opening line to that
    line is emitted. *)
Theorem fence_closed_by_run (db : unicode_db) (st : split_state)
        (opening : str) (body : list str) (ch : char) :
  in_code_block st = false ->
  is_match (re_match (fence_re db) (strip opening)) = true ->
  hd_error (strip opening) = Some ch ->
  Forall (fun l => is_fence_run ch l = false) body ->
  let st' := fold_left (split_step db) (opening :: body) st in
  in_code_block st' = true
  /\ forall line,
       in_code_block (split_step db st' line) = negb (is_fence_run ch line)
       /\ (is_fence_run ch line = true ->
           blocks (split_step db st' line)
           = blocks st' ++ [str_join [NL] (opening :: body ++ [line])]).
Proof.
  intros Hst Hopen Hch Hbody st'.
  destruct (re_match (fence_re db) (strip opening)) as [m|] eqn:Hm;
    [clear Hopen | discriminate].
  destruct (fence_opening _ _ Hm) as (ch' & _ & Hhd & Hgrp & _).
  assert (ch' = ch) as -> by congruence.
  assert (Hst' : st' = {| blocks := split_finish st;
                          current_block := opening :: body;
                          in_code_block := true; code_fence := [ch] |}).
  { unfold st'. cbn [fold_left].
    replace (split_step db st opening)
      with {| blocks := split_finish st; current_block := [opening];
              in_code_block := true; code_fence := [ch] |}
      by (unfold split_step; rewrite Hm, Hst, Hgrp; reflexivity).
    now rewrite (@split_loop_inside db ch body Hbody). }
  rewrite Hst'. split; [reflexivity|]. intros line.
  unfold split_step. cbn [blocks current_block in_code_block code_fence].
  rewrite closes_fence_run.
  destruct (is_fence_run ch line);
    destruct (re_match (fence_re db) (strip line));
    (split; [reflexivity | (reflexivity || discriminate)]).
Qed.

Lemma fence_closed_by_run_witness :
  let st' := fold_left (split_step latin1_db)
                       (py "````" :: [py "code"; py "``"]) split_init in
  in_code_block st' = true
  /\ forall line,
       in_code_block (split_step latin1_db st' line)
       = negb (is_fence_run 96%N line)
       /\ (is_fence_run 96%N line = true ->
           blocks (split_step latin1_db st' line)
           = blocks st'
             ++ [str_join [NL] (py "````" :: [py "code"; py "``"] ++ [line])]).
Proof.
  apply (@fence_closed_by_run latin1_db split_init (py "````")
           [py "code"; py "``"] 96%N).
  - reflexivity.
  - reflexivity.
  - reflexivity.
  - repeat constructor.
Defined.

(** A fence of three backquotes closes a block opened by four: the
    length of the opening fence plays no part. *)
Lemma shorter_fence_closes_counterexample :
  is_match (re_match (fence_re latin1_db) (strip (py "````"))) = true
  /\ length (py "```") < length (py "````")
  /\ in_code_block
       (fold_left (split_step latin1_db) [py "````"; py "code"; py "```"]
                  split_init) = false
  /\ _split_blocks latin1_db (text_of ["````"; "code"; "```"; "after"])
     = [text_of ["````"; "code"; "```"]; py "after"].
Proof.
  split; [|split; [|split]].
  - reflexivity.
  - cbn. lia.
  - reflexivity.
  - reflexivity.
Qed.

(* ================================================================== *)
(** * Termination of the inline tokenizer *)
(* ================================================================== *)

Lemma moved_refl (st : cursor) : moved 0 st st.
Proof.
  repeat split; [lia | lia | ]. exists []. split; [reflexivity | constructor].
Qed.

Lemma moved_advance (j : nat) (st : cursor) :
  j <= length (rest st) -> moved j st (advance j st).
Proof.
  intros Hj. repeat split; [exact Hj|]. exists [].
  split; [reflexivity | constructor].
Qed.

Lemma moved_trans (n1 n2 : nat) (st st1 st2 : cursor) :
  moved n1 st st1 -> moved n2 st1 st2 -> moved (n1 + n2) st st2.
Proof.
  intros (Hp1 & Hl1 & Hr1 & gs1 & Hg1 & Hf1) (Hp2 & Hl2 & Hr2 & gs2 & Hg2 & Hf2).
  rewrite Hr1, length_skipn in Hl2.
  repeat split.
  - lia.
  - lia.
  - rewrite Hr2, Hr1, skipn_skipn. f_equal. lia.
  - exists (gs2 ++ gs1). split.
    + now rewrite Hg2, Hg1, app_assoc.
    + apply Forall_app. split;
        (eapply Forall_impl; [|eassumption]); cbn; intros; lia.
Qed.

Lemma moved_group (n : nat) (i : nat) (st st' : cursor) :
  moved n st st' ->
  moved n st (set_group i (firstn (pos st' - pos st) (rest st)) st').
Proof.
  intros (Hp & Hl & Hr & gs & Hg & Hf). repeat split; try assumption.
  exists ((i, firstn (pos st' - pos st) (rest st)) :: gs). split.
  - cbn. now rewrite Hg.
  - constructor; [|exact Hf]. cbn. rewrite length_firstn. lia.
Qed.

Lemma run_le_length (p : char -> bool) (hi : option nat) (s : str) :
  run p hi s <= length s.
Proof.
  revert hi. induction s as [|c s IH]; intros hi.
  - destruct hi as [[|h]|]; cbn; lia.
  - destruct hi as [[|h]|]; cbn; [lia | |]; destruct (p c); cbn;
      try lia; (etransitivity; [apply le_n_S, IH | lia]).
Qed.

(** A successful match ran its continuation on a cursor further on. *)
Lemma exec_moved (r : regex) :
  forall (st : cursor) (k : cursor -> option cursor) (c : cursor),
    exec r st k = Some c ->
    exists n st', min_len r <= n /\ moved n st st' /\ k st' = Some c.
Proof.
  induction r as [| |p|p lo hi|r IH|r1 IH1 r2 IH2|r1 IH1 r2 IH2|i r IH|p|p];
    intros st k c H; cbn [exec min_len] in *.
  - destruct (pos st =? 0); [|discriminate].
    exists 0, st. split; [lia | split; [apply moved_refl | exact H]].
  - exists 0, st. split; [lia | split; [apply moved_refl|]].
    destruct (rest st) as [|a [|b t]]; try discriminate; [exact H|].
    destruct (N.eqb a NL); [exact H | discriminate].
  - destruct (rest st) as [|a t] eqn:E; [discriminate|].
    destruct (p a); [|discriminate].
    exists 1, (advance 1 st). split; [lia | split; [|exact H]].
    apply moved_advance. rewrite E. cbn. lia.
  - destruct (Nat.leb_spec lo (run p hi (rest st))) as [Hlo | Hlo];
      [|discriminate].
    destruct (rep_try_some _ _ Hlo H) as (j & Hj & Hk).
    exists j, (advance j st). split; [lia | split; [|exact Hk]].
    apply moved_advance. pose proof (run_le_length p hi (rest st)). lia.
  - destruct (exec r st k) as [c'|] eqn:E.
    + destruct (IH _ _ _ E) as (n & st' & _ & Hm & Hk).
      exists n, st'. split; [lia | split; [exact Hm | congruence]].
    + exists 0, st. split; [lia | split; [apply moved_refl | exact H]].
  - destruct (IH1 _ _ _ H) as (n1 & st1 & Hn1 & Hm1 & Hk1).
    destruct (IH2 _ _ _ Hk1) as (n2 & st2 & Hn2 & Hm2 & Hk2).
    exists (n1 + n2), st2. split; [lia | split; [|exact Hk2]].
    eapply moved_trans; eassumption.
  - destruct (exec r1 st k) as [c'|] eqn:E.
    + destruct (IH1 _ _ _ E) as (n & st' & Hn & Hm & Hk).
      exists n, st'. split; [lia | split; [exact Hm | congruence]].
    + destruct (IH2 _ _ _ H) as (n & st' & Hn & Hm & Hk).
      exists n, st'. split; [lia | split; [exact Hm | exact Hk]].
  - destruct (IH _ _ _ H) as (n & st' & Hn & Hm & Hk).
    exists n, (set_group i (firstn (pos st' - pos st) (rest st)) st').
    split; [exact Hn | split; [|exact Hk]]. now apply moved_group.
  - exists 0, st. split; [lia | split; [apply moved_refl|]].
    destruct (prev st) as [a|]; [|exact H].
    destruct (p a); [discriminate | exact H].
  - exists 0, st. split; [lia | split; [apply moved_refl|]].
    destruct (rest st) as [|a t]; [exact H|].
    destruct (p a); [discriminate | exact H].
Qed.

Lemma group_length (i n : nat) (gs : list (nat * str)) :
  Forall (fun g => length (snd g) <= n) gs -> length (group i gs) <= n.
Proof.
  induction 1 as [|[j g] gs Hg _ IH]; cbn; [lia|].
  destruct (i =? j); [exact Hg | exact IH].
Qed.

Lemma consuming_chr (p : char -> bool) (r : regex) : consuming (Chr p >> r).
Proof.
  intros st c Hg H. rewrite exec_cat in H. cbn [exec] in H.
  destruct (rest st) as [|a t] eqn:E; [discriminate|].
  destruct (p a); [|discriminate].
  destruct (exec_moved _ _ _ H) as (n & st' & _ & Hm & Hk).
  injection Hk as <-.
  destruct Hm as (Hp & Hl & _ & gs & Hgs & Hf).
  cbn [advance pos rest groups] in *. rewrite E in *. cbn [skipn length] in *.
  split; [lia|]. intros i. rewrite Hgs, Hg, app_nil_r.
  pose proof (group_length i Hf). lia.
Qed.

Lemma consuming_behind (q p : char -> bool) (r : regex) :
  consuming (NotBehind q >> Chr p >> r).
Proof.
  intros st c Hg H. rewrite exec_cat in H. cbn [exec] in H.
  apply (@consuming_chr p r st c Hg).
  destruct (prev st) as [a|]; [|exact H].
  destruct (q a); [discriminate | exact H].
Qed.

Lemma search_from_consuming (r : regex) :
  consuming r ->
  forall (s : str) (p : nat) (pv : option char) (m : match_obj),
    search_from r p pv s = Some m ->
    p <= m_start m /\ m_start m < m_end m <= p + length s
    /\ forall i, length (group i (m_groups m)) < length s.
Proof.
  intros Hr. induction s as [|a s IH]; intros p pv m H; cbn [search_from] in H.
  - destruct (exec r _ Some) as [c|] eqn:E; [|discriminate].
    injection H as <-. apply Hr in E; [|reflexivity].
    cbn [pos rest m_start m_end m_groups length] in *. lia.
  - destruct (exec r _ Some) as [c|] eqn:E.
    + injection H as <-. apply Hr in E; [|reflexivity].
      cbn [pos rest m_start m_end m_groups] in *.
      destruct E as [E1 E2]. split; [lia | split; [lia | exact E2]].
    + apply IH in H. destruct H as (H1 & H2 & H3). cbn [length].
      split; [lia | split; [lia|]]. intros i. specialize (H3 i). lia.
Qed.

Section Tokenizer.

Variable db : unicode_db.

Lemma patterns_consuming :
  Forall (fun ph => consuming (fst ph)) (patterns db).
Proof.
  unfold patterns.
  repeat (constructor; [first [apply consuming_chr | apply consuming_behind]|]).
  constructor.
Qed.

(** The match chosen by the loop over the patterns comes from one of
    them. *)
Lemma earliest_from_pattern (remaining : str) (m : match_obj) (h : handler) :
  earliest db remaining = Some (m, h) ->
  exists r, consuming r /\ re_search r remaining = Some m.
Proof.
  unfold earliest.
  assert (Hgen : forall ps acc,
             Forall (fun ph => consuming (fst ph)) ps ->
             (forall m h, fst acc = Some (m, h) ->
                          exists r, consuming r
                                    /\ re_search r remaining = Some m) ->
             forall m h,
               fst (fold_left (earliest_step remaining) ps acc) = Some (m, h) ->
               exists r, consuming r /\ re_search r remaining = Some m).
  { induction ps as [|[r0 h0] ps IH]; intros acc Hps Hacc m0 h1 H;
      cbn [fold_left] in H; [now apply (Hacc m0 h1)|].
    inversion Hps as [|? ? Hr0 Hps']; subst.
    apply (IH _ Hps') in H; [exact H|].
    intros m1 h2. unfold earliest_step. cbn [fst snd].
    destruct (re_search r0 remaining) as [m2|] eqn:E; [|apply Hacc].
    destruct (m_start m2 <? snd acc); [|apply Hacc].
    cbn [fst]. intros Heq. injection Heq as <- <-. now exists r0. }
  apply Hgen; [apply patterns_consuming|]. cbn. discriminate.
Qed.

(** The loop returns when its bound exceeds the length of the text. *)
Lemma parse_loop_returns (fuel : nat) :
  forall (remaining : str) (result : list node),
    length remaining < fuel ->
    exists r, parse_loop db fuel remaining result = Some r.
Proof.
  induction fuel as [|fuel IH]; intros remaining result Hlen; [lia|].
  cbn [parse_loop]. destruct remaining as [|a s]; [now eexists|].
  set (remaining := a :: s) in *.
  destruct (earliest db remaining) as [[m h]|] eqn:E; [|now eexists].
  destruct (earliest_from_pattern _ E) as (r & Hr & Hs).
  apply (search_from_consuming Hr) in Hs.
  destruct Hs as (_ & Hend & Hgrp).
  assert (Hnext : forall res,
             exists r', parse_loop db fuel (skipn (m_end m) remaining) res
                        = Some r').
  { intros res. apply IH. rewrite length_skipn. lia. }
  assert (Hnested : exists r', parse_loop db fuel (group 1 (m_groups m)) []
                               = Some r').
  { apply IH. specialize (Hgrp 1). lia. }
  destruct Hnested as [inner Hinner]. rewrite Hinner.
  destruct h; apply Hnext.
Qed.

(** [_parse_inline] returns a list of nodes for every text. *)
Lemma parse_inline_total (text : str) :
  exists nodes, _parse_inline db text = Some nodes.
Proof.
  unfold _parse_inline.
  destruct (parse_loop_returns (fuel := S (length text)) text [])
    as [r Hr]; [lia|].
  rewrite Hr. now eexists.
Qed.

Lemma list_items_total (items : list str) :
  exists nodes, list_items db items = Some nodes.
Proof.
  induction items as [|item items [ns IH]]; cbn [list_items]; [now eexists|].
  destruct (parse_inline_total item) as [c Hc]. rewrite Hc, IH. now eexists.
Qed.

Lemma process_block_total (nodes : list node) (block : str) :
  exists nodes', _process_block db nodes block = Some nodes'.
Proof.
  unfold _process_block.
  repeat match goal with
         | |- context [if ?b then _ else _] => destruct b
         end; try (now eexists).
  - unfold _process_heading. destruct (re_match _ _); [|now eexists].
    destruct (parse_inline_total (strip (group 2 (m_groups m)))) as [c Hc].
    rewrite Hc. now eexists.
  - unfold _process_blockquote.
    match goal with
    | |- context [_parse_inline db ?t] =>
      destruct (parse_inline_total t) as [c Hc]; rewrite Hc
    end. now eexists.
  - unfold _process_list. destruct (fold_left _ _ _) as [items cur].
    match goal with
    | |- context [list_items db ?t] =>
      destruct (list_items_total t) as [c Hc]; rewrite Hc
    end. now eexists.
  - unfold _process_table. destruct (map _ _) as [|row rows] eqn:E;
      [now eexists|].
    match goal with
    | |- context [list_items db ?t] =>
      destruct (list_items_total t) as [c Hc]; rewrite Hc
    end. now eexists.
  - unfold _process_paragraph. destruct (strip _) as [|a t] eqn:E;
      [now eexists|].
    destruct (parse_inline_total (a :: t)) as [c Hc]. rewrite Hc.
    now eexists.
Qed.

(** The converter returns a document for every text: the bound of the
    tokenizer is never reached. *)
Theorem markdown_to_nodes_total (markdown : str) :
  exists nodes, markdown_to_nodes db markdown = Some nodes.
Proof.
  unfold markdown_to_nodes, convert.
  generalize (_split_blocks db
                (replace [CR] [NL] (replace [CR; NL] [NL] markdown))).
  generalize (@nil node).
  intros nodes bs. revert nodes.
  induction bs as [|block bs IH]; intros nodes; cbn [convert_blocks];
    [now eexists|].
  destruct (nonblank block); [|apply IH].
  destruct (process_block_total nodes block) as [nodes' H]. rewrite H.
  apply IH.
Qed.

End Tokenizer.

(* ================================================================== *)
(** * Evaluations of the converter *)
(* ================================================================== *)

(** The document of the specification's end-to-end scenario. *)
Example convert_scenario (db : unicode_db) :
  markdown_to_nodes db
    (text_of ["# Title"; EmptyString; "Hello **world**."; EmptyString;
              "- a"; "- b"; EmptyString])
  = Some [ elem TagH3 [Text (py "Title")];
           elem TagP [Text (py "Hello "); elem TagB [Text (py "world")];
                      Text (py ".")];
           elem TagUl [elem TagLi [Text (py "a")];
                       elem TagLi [Text (py "b")]] ].
Proof. vm_compute. reflexivity. Qed.

Example parse_inline_plain (db : unicode_db) :
  _parse_inline db (py "plain text") = Some [Text (py "plain text")].
Proof. vm_compute. reflexivity. Qed.

Example parse_inline_empty (db : unicode_db) :
  _parse_inline db [] = Some [Text []].
Proof. vm_compute. reflexivity. Qed.

Example parse_inline_image (db : unicode_db) :
  _parse_inline db (py "![alt](http://x/i.png)")
  = Some [Element TagImg
            (Some [(py "src", py "http://x/i.png"); (py "alt", py "alt")])
            None].
Proof. vm_compute. reflexivity. Qed.

(** C3 (the code departs from the claim).  The bold pattern admits no
    asterisk between its delimiters, so it does not match the text;
    the italic pattern matches [*b*], and the text around it stays
    literal, asterisks included. *)
Theorem parse_inline_bold_with_starred_italic (db : unicode_db) :
  _parse_inline db (py "**a *b* c**")
  = Some [Text (py "**a "); elem TagI [Text (py "b")]; Text (py " c**")].
Proof. vm_compute. reflexivity. Qed.

(** The sibling forms nest: bold content is tokenized again, and an
    italic span written with the other delimiter ends up inside the
    bold node. *)
Example parse_inline_bold_with_underscored_italic (db : unicode_db) :
  _parse_inline db (py "**a _b_ c**")
  = Some [elem TagB [Text (py "a "); elem TagI [Text (py "b")];
                     Text (py " c")]].
Proof. vm_compute. reflexivity. Qed.

Example parse_inline_underscored_bold_with_italic (db : unicode_db) :
  _parse_inline db (py "__a *b* c__")
  = Some [elem TagB [Text (py "a "); elem TagI [Text (py "b")];
                     Text (py " c")]].
Proof. vm_compute. reflexivity. Qed.

(** C8 (the code departs from the claim).  A block whose first line
    starts with [#] goes to [_process_heading] and [_process_block]
    returns; when the line is not a heading, nothing is appended: the
    block is dropped, not rendered as a paragraph. *)
Theorem hash_block_dropped (db : unicode_db) :
  markdown_to_nodes db (py "#NoSpace") = Some []
  /\ _process_block db [] (py "#NoSpace") = Some []
  /\ _process_paragraph db [] (py "#NoSpace")
     = Some [elem TagP [Text (py "#NoSpace")]].
Proof. vm_compute. repeat constructor. Qed.

(** A block that none of the rules 1 to 6 matches and that does not
    start with [#] is a paragraph: its lines are trimmed and joined by
    single spaces. *)
Example paragraph_block (db : unicode_db) :
  markdown_to_nodes db (text_of ["  plain"; "text *it*  "])
  = Some [elem TagP [Text (py "plain text "); elem TagI [Text (py "it")]]].
Proof. vm_compute. reflexivity. Qed.

(** The input with 4681 rules that the partitioner returns as one
    chunk over the budget. *)
Example rules_convert (db : unicode_db) :
  markdown_to_nodes db (rules 4681) = Some (repeat (leaf TagHr) 4681).
Proof. vm_compute. reflexivity. Qed.

(* ================================================================== *)
(** * Empty code blocks *)
(* ================================================================== *)


Lemma fence_run_fence_start (ch : char) (line : str) :
  (ch = 96 \/ ch = 126)%N -> is_fence_run ch line = true ->
  is_fence_start line = true.
Proof.
  intros Hch H. apply is_fence_run_true in H. destruct H as (n & Hn & Hs).
  unfold is_fence_start. rewrite Hs.
  replace n with (3 + (n - 3)) by lia. rewrite repeat_app.
  destruct Hch as [-> | ->]; apply orb_true_iff; [left | right];
    apply startswith_true; now eexists.
Qed.



(** A fence with a body that is not empty gives a [pre] node, and so
    does a body of two empty lines. *)
Example fence_with_body (db : unicode_db) :
  markdown_to_nodes db (text_of ["```"; "x = 1"; EmptyString; "y"; "```"])
  = Some [elem TagPre [Text (text_of ["x = 1"; EmptyString; "y"])]]
  /\ markdown_to_nodes db
       (text_of ["```"; EmptyString; EmptyString; "```"])
     = Some [elem TagPre [Text [NL]]].
Proof. vm_compute. split; reflexivity. Qed.

(* ================================================================== *)
(** * Properties of the size partitioner *)
(* ================================================================== *)

Section Partitioner.

Variable max_size : Z.

Lemma part_step_concat (st : part_state) (n : node) :
  concat (parts (part_step max_size st n))
  ++ current_part (part_step max_size st n)
  = (concat (parts st) ++ current_part st) ++ [n].
Proof.
  unfold part_step.
  destruct ((_ >? _)%Z && _); cbn [parts current_part].
  - rewrite concat_app. cbn. now rewrite !app_nil_r.
  - now rewrite app_assoc.
Qed.

Lemma part_loop_concat (content : list node) (st : part_state) :
  let st' := fold_left (part_step max_size) content st in
  concat (parts st') ++ current_part st'
  = (concat (parts st) ++ current_part st) ++ content.
Proof.
  revert st. induction content as [|n content IH]; intros st; cbn.
  - now rewrite app_nil_r.
  - cbn in IH. rewrite IH, part_step_concat, <- app_assoc. reflexivity.
Qed.

Lemma part_finish_concat (st : part_state) :
  concat (part_finish st) = concat (parts st) ++ current_part st.
Proof.
  unfold part_finish. destruct (current_part st); cbn.
  - now rewrite app_nil_r.
  - rewrite concat_app. cbn. now rewrite app_nil_r.
Qed.

End Partitioner.

(** C6.  For every node list and every budget, the chunks returned by
    [split_content_for_publishing], concatenated in order, are the
    input list: no node is dropped, duplicated or moved. *)
Theorem split_content_concat (content : list node) (max_size : Z) :
  concat (split_content_for_publishing content max_size) = content.
Proof.
  unfold split_content_for_publishing.
  destruct (_ <=? _)%Z.
  - cbn. apply app_nil_r.
  - rewrite part_finish_concat.
    exact (part_loop_concat max_size content part_init).
Qed.

(** ** What the loop guarantees about sizes *)

Local Open Scope Z_scope.

Lemma byte_len_app (a b : str) : byte_len (a ++ b) = byte_len a + byte_len b.
Proof.
  unfold byte_len, utf8_encode.
  rewrite flat_map_app, length_app. lia.
Qed.

Lemma byte_len_nonneg (a : str) : 0 <= byte_len a.
Proof. unfold byte_len. lia. Qed.

Lemma sum_sizes_app (a b : list node) :
  sum_sizes (a ++ b) = sum_sizes a + sum_sizes b.
Proof. induction a as [|n a IH]; cbn [sum_sizes app]; lia. Qed.

Lemma byte_len_join_dumps (n : node) (more : list node) :
  byte_len (str_join (py ", ") (map dumps (n :: more)))
  = sum_sizes (n :: more) + 2 * Z.of_nat (length more).
Proof.
  revert n. induction more as [|n' more IH]; intros n.
  - cbn [map str_join sum_sizes length]. lia.
  - change (str_join (py ", ") (map dumps (n :: n' :: more)))
      with (dumps n ++ py ", " ++ str_join (py ", ") (map dumps (n' :: more))).
    rewrite !byte_len_app, IH.
    change (byte_len (py ", ")) with 2.
    cbn [sum_sizes length]. lia.
Qed.

(** The serialized size of a chunk: two brackets, the nodes, and two
    bytes between neighbours. *)
Lemma estimate_content_size_cons (n : node) (more : list node) :
  estimate_content_size (n :: more)
  = 2 + sum_sizes (n :: more) + 2 * Z.of_nat (length more).
Proof.
  unfold estimate_content_size, dumps_list.
  rewrite !byte_len_app, byte_len_join_dumps.
  change (byte_len (py "[")) with 1. change (byte_len (py "]")) with 1.
  lia.
Qed.

Lemma accounted_size_snoc (chunk : list node) (n : node) :
  accounted_size (chunk ++ [n]) = accounted_size chunk + (byte_len (dumps n) + 1).
Proof.
  unfold accounted_size.
  rewrite sum_sizes_app, length_app, Nat2Z.inj_add.
  cbn [sum_sizes length]. lia.
Qed.

Lemma part_step_inv (max_size : Z) (st : part_state) (n : node) :
  part_inv max_size st -> part_inv max_size (part_step max_size st n).
Proof.
  intros [Hsize Hparts Hcur]. unfold part_step.
  destruct (current_size st + (byte_len (dumps n) + 1) >? max_size) eqn:Hover;
    [destruct (current_part st) as [|n0 cur] eqn:Hc|]; cbn [andb nonempty].
  - (* nothing to close: the node starts the chunk *)
    constructor; cbn [parts current_part current_size].
    + rewrite Hsize, Hc, ?Hc. unfold accounted_size.
      cbn [app sum_sizes length]. lia.
    + exact Hparts.
    + right. rewrite ?Hc. split; [discriminate | now left].
  - (* the chunk is closed and the node starts the next one *)
    constructor; cbn [parts current_part current_size].
    + unfold accounted_size. cbn [app sum_sizes length]. lia.
    + apply Forall_app. split; [exact Hparts|].
      constructor; [|constructor].
      destruct Hcur as [Hnil | Hok]; [discriminate | exact Hok].
    + right. split; [discriminate | now left].
  - (* the node fits *)
    constructor; cbn [parts current_part current_size].
    + rewrite accounted_size_snoc, Hsize. reflexivity.
    + exact Hparts.
    + right. split.
      * destruct (current_part st); discriminate.
      * right. rewrite accounted_size_snoc, <- Hsize.
        rewrite Z.gtb_ltb in Hover. apply Z.ltb_ge in Hover. exact Hover.
Qed.

Lemma part_loop_inv (max_size : Z) (content : list node) (st : part_state) :
  part_inv max_size st ->
  part_inv max_size (fold_left (part_step max_size) content st).
Proof.
  revert st. induction content as [|n content IH]; intros st H; cbn.
  - exact H.
  - apply IH, part_step_inv, H.
Qed.

Lemma part_init_inv (max_size : Z) : part_inv max_size part_init.
Proof.
  constructor; cbn.
  - reflexivity.
  - constructor.
  - now left.
Qed.

(** X11.  Every chunk is a single node, or its serialized size is within the
    budget plus one byte for every node after the second: the loop
    counts one byte between neighbours where the serialization has
    two. *)
Lemma chunk_size_guarantee (content : list node) (max_size : Z)
      (chunk : list node) :
  In chunk (split_content_for_publishing content max_size) ->
  length chunk = 1%nat
  \/ estimate_content_size chunk
     <= max_size + Z.max 0 (Z.of_nat (length chunk) - 2).
Proof.
  unfold split_content_for_publishing.
  destruct (estimate_content_size content <=? max_size) eqn:Hfit.
  - intros [<- | []]. right. apply Z.leb_le in Hfit. lia.
  - intros Hin.
    destruct (part_loop_inv content (part_init_inv max_size))
      as [_ Hparts Hcur].
    assert (Hok : chunk_ok max_size chunk).
    { unfold part_finish in Hin.
      destruct (current_part _) as [|n0 cur] eqn:Hc; cbn [nonempty] in Hin.
      - rewrite Forall_forall in Hparts. now apply Hparts.
      - apply in_app_or in Hin. destruct Hin as [Hin | [<- | []]].
        + rewrite Forall_forall in Hparts. now apply Hparts.
        + destruct Hcur as [Hnil | Hok]; [discriminate | exact Hok]. }
    destruct Hok as [Hne [Hone | Hacc]]; [now left | right].
    destruct chunk as [|n more]; [congruence|].
    rewrite estimate_content_size_cons.
    unfold accounted_size in Hacc. cbn [length] in *. lia.
Qed.

Local Close Scope Z_scope.

(** C1 (the code departs from the claim).  4681 horizontal rules
    serialize to 70215 bytes, more than the budget of 65536, and
    [split_content_for_publishing] returns them as one chunk: each rule
    takes 13 bytes and is accounted 14, while it takes 15 in a list, so
    the accounted size is 65536 and the run is never cut. *)
Theorem chunk_over_budget :
  let content := repeat (leaf TagHr) 4681 in
  MAX_CONTENT_SIZE = 65536%Z
  /\ split_content_for_publishing content MAX_CONTENT_SIZE = [content]
  /\ length content = 4681
  /\ estimate_content_size content = 70215%Z.
Proof. vm_compute. repeat split. Qed.

(* ================================================================== *)
(** * Properties of the navigation linker *)
(* ================================================================== *)

Lemma nav_part_chunk (n : nat) (urls : list str) (title : str) (i : nat)
      (part : list node) :
  length urls = n -> i < n ->
  nav_part n urls title i part
  = Some (nav_chunk labels_of_source n urls title i part).
Proof.
  intros Hlen Hi. unfold nav_part, nav_chunk.
  rewrite (nth_error_nth' urls [] (n := 0)) by lia.
  destruct (Nat.ltb_spec i (n - 1)) as [Hn | Hn];
    destruct (Nat.ltb_spec 0 i) as [H0 | H0];
    destruct (Nat.eqb_spec i 0) as [E | E]; try lia;
    rewrite ?(nth_error_nth' urls [] (n := i - 1)) by lia;
    rewrite ?(nth_error_nth' urls [] (n := i + 1)) by lia;
    reflexivity.
Qed.

Lemma nav_loop_chunks (n : nat) (urls : list str) (title : str)
      (ps : list (list node)) :
  length urls = n ->
  forall (i : nat) (result : list (list node)),
    i + length ps <= n ->
    nav_loop n urls title i ps result
    = Some (result ++ nav_chunks labels_of_source n urls title i ps).
Proof.
  intros Hlen. induction ps as [|part more IH]; intros i result Hi.
  - cbn. now rewrite app_nil_r.
  - cbn [nav_loop nav_chunks]. cbn [length] in Hi.
    rewrite nav_part_chunk by lia.
    rewrite IH by lia. now rewrite <- app_assoc.
Qed.

Lemma nav_chunks_length (L : nav_labels) (n : nat) (urls : list str)
      (title : str) (ps : list (list node)) (i : nat) :
  length (nav_chunks L n urls title i ps) = length ps.
Proof.
  revert i. induction ps as [|part more IH]; intros i; cbn; [|rewrite IH];
    reflexivity.
Qed.

Lemma nav_chunks_nth (L : nav_labels) (n : nat) (urls : list str)
      (title : str) (ps : list (list node)) (i j : nat) (part : list node) :
  nth_error ps j = Some part ->
  nth_error (nav_chunks L n urls title i ps) j
  = Some (nav_chunk L n urls title (i + j) part).
Proof.
  revert i j. induction ps as [|p more IH]; intros i j H.
  - destruct j; discriminate.
  - destruct j as [|j]; cbn [nth_error nav_chunks] in *.
    + injection H as ->. now rewrite Nat.add_0_r.
    + rewrite (IH (S i) j H). now rewrite Nat.add_succ_r.
Qed.

(** C9, as the source has it.  For [n >= 2] chunks and [n] URLs,
    [add_navigation_links] returns [n] chunks, and chunk [i] is the
    counter paragraph, the chunk, a rule and the paragraph of links of
    [nav_chunk], with the texts of the source: the link back to
    [urls[i-1]] and a separator only when [i > 0], the link to
    [urls[0]] always, a separator and the link on to [urls[i+1]] only
    when [i < n - 1]. *)
Theorem add_navigation_links_chunks (ps : list (list node))
        (urls : list str) (title : str) :
  2 <= length ps -> length urls = length ps ->
  exists result,
    add_navigation_links ps urls title = Some result
    /\ length result = length ps
    /\ forall i part,
         nth_error ps i = Some part ->
         nth_error result i
         = Some (nav_chunk labels_of_source (length ps) urls title i part).
Proof.
  intros Hn Hlen.
  exists (nav_chunks labels_of_source (length ps) urls title 0 ps).
  split; [|split].
  - unfold add_navigation_links.
    replace (length ps <=? 1) with false by (symmetry; apply Nat.leb_gt; lia).
    now rewrite nav_loop_chunks by (assumption || lia).
  - apply nav_chunks_length.
  - intros i part H. now rewrite (nav_chunks_nth _ _ _ _ _ 0 _ H).
Qed.

Lemma add_navigation_links_chunks_witness :
  exists result,
    add_navigation_links [[Text (py "x")]; [Text (py "y")]; [Text (py "z")]]
                         [py "u0"; py "u1"; py "u2"] (py "T") = Some result
    /\ length result = 3
    /\ forall i part,
         nth_error [[Text (py "x")]; [Text (py "y")]; [Text (py "z")]] i
         = Some part ->
         nth_error result i
         = Some (nav_chunk labels_of_source 3 [py "u0"; py "u1"; py "u2"]
                           (py "T") i part).
Proof.
  apply (add_navigation_links_chunks
           [[Text (py "x")]; [Text (py "y")]; [Text (py "z")]]
           [py "u0"; py "u1"; py "u2"] (py "T")).
  - simpl. lia.
  - reflexivity.
Defined.

(** The texts of the specification are not those of the source: with
    two chunks the result differs from the chunks worded as in the
    specification. *)
Lemma nav_labels_counterexample :
  add_navigation_links [[Text (py "x")]; [Text (py "y")]]
                       [py "u0"; py "u1"] (py "T")
  <> Some (nav_chunks labels_of_spec 2 [py "u0"; py "u1"] (py "T") 0
                      [[Text (py "x")]; [Text (py "y")]]).
Proof. vm_compute. discriminate. Qed.

(** With three chunks: the middle one links back to [u0] and on to
    [u2], the first has no link back, the last no link on. *)
Example nav_three_chunks :
  add_navigation_links [[Text (py "x")]; [Text (py "y")]; [Text (py "z")]]
                       [py "u0"; py "u1"; py "u2"] (py "T")
  = Some
      [ [elem TagP [elem TagI [Text (py "Часть 1 из 3")]]; Text (py "x");
         leaf TagHr;
         elem TagP [link (py "u0") (py "T (начало)"); Text (py " | ");
                    link (py "u1") (py "Далее →")]];
        [elem TagP [elem TagI [Text (py "Часть 2 из 3")]]; Text (py "y");
         leaf TagHr;
         elem TagP [link (py "u0") (py "← Назад"); Text (py " | ");
                    link (py "u0") (py "T (начало)"); Text (py " | ");
                    link (py "u2") (py "Далее →")]];
        [elem TagP [elem TagI [Text (py "Часть 3 из 3")]]; Text (py "z");
         leaf TagHr;
         elem TagP [link (py "u1") (py "← Назад"); Text (py " | ");
                    link (py "u0") (py "T (начало)")]] ].
Proof. reflexivity. Qed.

(* ================================================================== *)
(** * Properties of the publish command *)
(* ================================================================== *)

Section PublishProperties.

Variable db : unicode_db.
Variable srv : service.
Variables (token title : str) (author : option str).
Variable ps : list (list node).

Let call := create_call token title author ps.
Let calls := create_calls token title author ps.

Lemma create_calls_S (i : nat) : calls (S i) = calls i ++ [call i].
Proof.
  unfold calls, create_calls. rewrite seq_S, map_app. reflexivity.
Qed.

(** The loop stops at the first request that fails: it prints which
    part failed and exits with status 1, having issued the requests up
    to that one and no other. *)
Lemma create_parts_fails (k : nat) (e : str) :
  (forall i, i < k -> exists pg, srv (calls i) (call i) = ApiOk pg) ->
  srv (calls k) (call k) = ApiError e ->
  forall (more : list (list node)) (i : nat) (urls paths : list str),
    skipn i ps = more -> i <= k -> k < length ps ->
    create_parts srv token title author i more urls paths (calls i)
    = (Exit (ReportError (py "Failed to create part " ++ str_of_nat (k + 1)
                          ++ py ": " ++ e)) 1%Z,
       calls (k + 1)).
Proof.
  intros Hok Hfail more.
  induction more as [|part more IH]; intros i urls paths Hskip Hik Hk.
  - apply (f_equal (@length _)) in Hskip. rewrite length_skipn in Hskip.
    cbn in Hskip. lia.
  - assert (Hpart : nth i ps [] = part).
    { rewrite <- (firstn_skipn i ps) at 1. rewrite Hskip.
      rewrite app_nth2; rewrite length_firstn; [|lia].
      replace (i - Nat.min i (length ps)) with 0 by lia. reflexivity. }
    cbn [create_parts]. unfold bind, create_page, api_request.
    rewrite <- Hpart. fold (create_call token title author ps i). fold (call i).
    destruct (Nat.eq_dec i k) as [-> | Hne].
    + rewrite Hfail. unfold sys_exit.
      rewrite <- create_calls_S. now rewrite Nat.add_1_r.
    + destruct (Hok i) as [pg Hpg]; [lia|]. rewrite Hpg.
      rewrite <- create_calls_S. apply IH; try lia.
      replace (S i) with (1 + i) by lia.
      rewrite <- skipn_skipn, Hskip. reflexivity.
Qed.

Lemma nth_of_skipn (i : nat) (part : list node) (more : list (list node)) :
  skipn i ps = part :: more ->
  nth i ps [] = part /\ skipn (S i) ps = more /\ i < length ps.
Proof.
  intros Hskip.
  assert (Hi : i < length ps).
  { apply (f_equal (@length _)) in Hskip. rewrite length_skipn in Hskip.
    cbn in Hskip. lia. }
  split; [|split; [|exact Hi]].
  - rewrite <- (firstn_skipn i ps) at 1. rewrite Hskip.
    rewrite app_nth2; rewrite length_firstn; [|lia].
    replace (i - Nat.min i (length ps)) with 0 by lia. reflexivity.
  - replace (S i) with (1 + i) by lia.
    rewrite <- skipn_skipn, Hskip. reflexivity.
Qed.

Variable pg : nat -> page.

Let url_of (i : nat) : str := telegraph_url (page_path (pg i)).
Let path_of (i : nat) : str := page_path (pg i).

(** When every request succeeds the loop returns the URLs and paths of
    the pages in the order of the parts. *)
Lemma create_parts_succeeds :
  (forall i, i < length ps -> srv (calls i) (call i) = ApiOk (pg i)) ->
  forall (more : list (list node)) (i : nat) (urls paths : list str),
    skipn i ps = more -> i <= length ps ->
    create_parts srv token title author i more urls paths (calls i)
    = (Return (urls ++ map url_of (seq i (length more)),
               paths ++ map path_of (seq i (length more))),
       calls (length ps)).
Proof.
  intros Hok more.
  induction more as [|part more IH]; intros i urls paths Hskip Hi.
  - cbn [create_parts length seq map]. unfold ret. rewrite !app_nil_r.
    apply (f_equal (@length _)) in Hskip. rewrite length_skipn in Hskip.
    cbn in Hskip. replace i with (length ps) by lia. reflexivity.
  - destruct (nth_of_skipn i Hskip) as (Hpart & Hmore & Hlt).
    cbn [create_parts]. unfold bind, create_page, api_request.
    rewrite <- Hpart. fold (create_call token title author ps i). fold (call i).
    rewrite Hok by exact Hlt. rewrite <- create_calls_S.
    rewrite IH by (assumption || lia).
    cbn [length seq map]. now rewrite <- !app_assoc.
Qed.

(** The loop of edits issues one request per pair and goes on whatever
    the answers are. *)
Lemma edit_parts_runs (pairs : list (str * list node)) :
  forall (i : nat) (h : list api_call),
    edit_parts srv token title author i pairs h
    = (Return tt, h ++ edit_calls token title author i pairs).
Proof.
  induction pairs as [|[path part] pairs IH]; intros i h.
  - cbn. now rewrite app_nil_r.
  - cbn [edit_parts edit_calls]. unfold bind, edit_page, api_request.
    rewrite IH, <- app_assoc. reflexivity.
Qed.

(** With at least two parts, a failed request to create part [k]
    (counted from 0) ends the command: no page is edited. *)
Lemma publish_parts_fails (k : nat) (e : str) :
  k < length ps ->
  (forall i, i < k -> exists p, srv (calls i) (call i) = ApiOk p) ->
  srv (calls k) (call k) = ApiError e ->
  publish_parts srv token title author ps []
  = (Exit (ReportError (py "Failed to create part " ++ str_of_nat (k + 1)
                        ++ py ": " ++ e)) 1%Z,
     calls (k + 1)).
Proof.
  intros Hk Hok Hfail. unfold publish_parts, bind.
  change (@nil api_call) with (calls 0).
  rewrite (create_parts_fails Hok Hfail (more := ps) (i := 0) [] [] eq_refl)
    by lia.
  reflexivity.
Qed.

(** With at least two parts that are all created, every page is edited
    once and the command reports success with the URLs of the pages:
    the answers to the edits have no part in the report. *)
Lemma publish_parts_succeeds :
  2 <= length ps ->
  (forall i, i < length ps -> srv (calls i) (call i) = ApiOk (pg i)) ->
  let urls := map url_of (seq 0 (length ps)) in
  let paths := map path_of (seq 0 (length ps)) in
  publish_parts srv token title author ps []
  = (Return (ReportParts (length ps) urls (url_of 0)),
     calls (length ps)
     ++ edit_calls token title author 0
          (combine paths
                   (nav_chunks labels_of_source (length ps) urls title 0 ps))).
Proof.
  intros Hn Hok urls paths. unfold publish_parts, bind.
  change (@nil api_call) with (calls 0).
  rewrite (create_parts_succeeds Hok (more := ps) (i := 0) [] [] eq_refl)
    by lia.
  cbn [app]. fold urls. fold paths.
  assert (Hlen : length urls = length ps).
  { unfold urls. now rewrite length_map, length_seq. }
  unfold add_navigation_links.
  replace (length ps <=? 1) with false by (symmetry; apply Nat.leb_gt; lia).
  rewrite nav_loop_chunks by (assumption || lia).
  cbn [app]. rewrite edit_parts_runs.
  unfold urls at 2. destruct (length ps) as [|n] eqn:En; [lia|].
  reflexivity.
Qed.

End PublishProperties.

(** From the arguments to the branch for several parts. *)
Lemma cmd_publish_parts (db : unicode_db) (srv : service)
      (args : publish_args) (cfg : option str) (md : str)
      (content : list node) (tok : str) :
  py_or (arg_token args) cfg = Some tok -> tok <> [] ->
  markdown_to_nodes db md = Some content ->
  2 <= length (split_content_for_publishing content MAX_CONTENT_SIZE) ->
  cmd_publish db srv args cfg (Contents md)
  = Some (publish_parts srv tok (arg_title args) (arg_author args)
            (split_content_for_publishing content MAX_CONTENT_SIZE)).
Proof.
  intros Htok Hne Hmd Hlen. unfold cmd_publish. rewrite Htok.
  destruct tok as [|c tok]; [congruence|]. rewrite Hmd.
  destruct content as [|n content].
  - vm_compute in Hlen. lia.
  - destruct (split_content_for_publishing (n :: content) MAX_CONTENT_SIZE)
      as [|p1 [|p2 more]]; cbn in Hlen; try lia; reflexivity.
Qed.

(** C4, as the source has it.  When the document is split into at
    least two chunks and the request that creates part [k] (counted
    from 0) is the first to fail, [cmd_publish] prints
    [{"success": False, "error": "Failed to create part k+1: <error>"}]
    and exits with status 1, after the [k + 1] requests to create the
    parts 0 to [k]: no further page is created and no page is edited.
    The printed object names the part that failed; it does not carry
    the paths or URLs of the pages created before. *)
Theorem create_failure_aborts (db : unicode_db) (srv : service)
        (args : publish_args) (cfg : option str) (md : str)
        (content : list node) (tok : str) (k : nat) (e : str) :
  let ps := split_content_for_publishing content MAX_CONTENT_SIZE in
  let call := create_call tok (arg_title args) (arg_author args) ps in
  let calls := create_calls tok (arg_title args) (arg_author args) ps in
  py_or (arg_token args) cfg = Some tok -> tok <> [] ->
  markdown_to_nodes db md = Some content ->
  2 <= length ps -> k < length ps ->
  (forall i, i < k -> exists p, srv (calls i) (call i) = ApiOk p) ->
  srv (calls k) (call k) = ApiError e ->
  exists run,
    cmd_publish db srv args cfg (Contents md) = Some run
    /\ run []
       = (Exit (ReportError (py "Failed to create part " ++ str_of_nat (k + 1)
                             ++ py ": " ++ e)) 1%Z,
          calls (k + 1))
    /\ existsb is_edit (calls (k + 1)) = false.
Proof.
  intros ps call calls Htok Hne Hmd Hlen Hk Hok Hfail.
  exists (publish_parts srv tok (arg_title args) (arg_author args) ps).
  split; [|split].
  - now apply cmd_publish_parts.
  - now apply publish_parts_fails.
  - unfold calls, create_calls.
    induction (seq 0 (k + 1)) as [|i l IH]; [reflexivity | exact IH].
Qed.

Lemma create_failure_aborts_witness :
  let ps := split_content_for_publishing (repeat (leaf TagHr) 4682)
                                         MAX_CONTENT_SIZE in
  let calls := create_calls (py "secret") (py "T") None ps in
  exists run,
    cmd_publish latin1_db second_create_fails demo_args None
                (Contents (rules 4682)) = Some run
    /\ run []
       = (Exit (ReportError (py "Failed to create part " ++ str_of_nat (1 + 1)
                             ++ py ": " ++ py "boom")) 1%Z,
          calls (1 + 1))
    /\ existsb is_edit (calls (1 + 1)) = false.
Proof.
  apply (@create_failure_aborts latin1_db second_create_fails demo_args None
           (rules 4682) (repeat (leaf TagHr) 4682) (py "secret") 1 (py "boom")).
  - reflexivity.
  - discriminate.
  - vm_compute. reflexivity.
  - vm_compute. lia.
  - vm_compute. lia.
  - intros i Hi. assert (i = 0) as -> by lia. eexists. reflexivity.
  - reflexivity.
Defined.

(** The report of a failed creation does not carry the path of the
    page created before: the first page is created at [page-0], the
    second request fails, and no string of the printed object contains
    [page-0]. *)
Lemma create_failure_report_counterexample :
  let ps := split_content_for_publishing (repeat (leaf TagHr) 4682)
                                         MAX_CONTENT_SIZE in
  exists run printed,
    cmd_publish latin1_db second_create_fails demo_args None
                (Contents (rules 4682)) = Some run
    /\ length ps = 2
    /\ second_create_fails [] (create_call (py "secret") (py "T") None ps 0)
       = ApiOk {| page_path := py "page-0"; page_title := py "T";
                  page_views := Some 0%Z |}
    /\ fst (run []) = Exit printed 1%Z
    /\ printed = ReportError (py "Failed to create part 2: boom")
    /\ existsb (contains (py "page-0")) (report_texts printed) = false.
Proof.
  intros ps.
  exists (publish_parts second_create_fails (py "secret") (py "T") None ps).
  exists (ReportError (py "Failed to create part 2: boom")).
  split; [|split; [|split; [|split; [|split]]]].
  - apply (@cmd_publish_parts latin1_db second_create_fails demo_args None
             (rules 4682) (repeat (leaf TagHr) 4682) (py "secret")).
    + reflexivity.
    + discriminate.
    + vm_compute. reflexivity.
    + vm_compute. lia.
  - vm_compute. reflexivity.
  - reflexivity.
  - vm_compute. reflexivity.
  - reflexivity.
  - vm_compute. reflexivity.
Qed.

(** C5 (the code departs from the claim).  Two pages are created and
    both edits fail; [cmd_publish] issues the two edits, looks at
    neither answer, and prints
    [{"success": True, "parts": 2, "urls": [...], "main_url": ...}]:
    the failures are not collected and the report has no entry per
    part. *)
Theorem edit_failures_unreported :
  let ps := split_content_for_publishing (repeat (leaf TagHr) 4682)
                                         MAX_CONTENT_SIZE in
  exists run,
    cmd_publish latin1_db edits_fail demo_args None (Contents (rules 4682))
    = Some run
    /\ length ps = 2
    /\ fst (run [])
       = Return (ReportParts 2 [py "https://telegra.ph/page-0";
                                py "https://telegra.ph/page-1"]
                             (py "https://telegra.ph/page-0"))
    /\ map is_edit (snd (run [])) = [false; false; true; true]
    /\ (forall h c, is_edit c = true -> edits_fail h c = ApiError (py "boom")).
Proof.
  intros ps.
  exists (publish_parts edits_fail (py "secret") (py "T") None ps).
  split; [|split; [|split; [|split]]].
  - apply (@cmd_publish_parts latin1_db edits_fail demo_args None
             (rules 4682) (repeat (leaf TagHr) 4682) (py "secret")).
    + reflexivity.
    + discriminate.
    + vm_compute. reflexivity.
    + vm_compute. lia.
  - vm_compute. reflexivity.
  - vm_compute. reflexivity.
  - vm_compute. reflexivity.
  - intros h [] H; [discriminate | reflexivity].
Qed.

(* ================================================================== *)
(** * Further properties of the block segmenter *)
(* ================================================================== *)

Lemma nonblank_join (l : str) (ls : list str) :
  nonblank l = true -> nonblank (str_join [NL] (l :: ls)) = true.
Proof.
  rewrite !nonblank_true. intros Hl Hnil. apply Hl.
  apply strip_nil in Hnil. apply strip_nil.
  destruct (forallb isspace l) eqn:E; [reflexivity|].
  now rewrite (forallb_join_false isspace [NL] l ls E) in Hnil.
Qed.

Section SegmenterInvariants.

Variable db : unicode_db.

Lemma flush_nonblank (bs cur : list str) :
  Forall (fun b => nonblank b = true) bs ->
  match cur with [] => True | l :: _ => nonblank l = true end ->
  Forall (fun b => nonblank b = true) (flush bs cur).
Proof.
  intros Hbs Hcur. destruct cur as [|l cur]; cbn [flush]; [exact Hbs|].
  apply Forall_app. split; [exact Hbs|].
  constructor; [now apply nonblank_join | constructor].
Qed.

Lemma fence_line_nonblank (line : str) (m : match_obj) :
  re_match (fence_re db) (strip line) = Some m -> nonblank line = true.
Proof.
  intros H. apply fence_re_match in H.
  destruct H as (ch & j & _ & Hj & _). apply nonblank_true.
  intros Hnil. rewrite Hnil in Hj. cbn in Hj. lia.
Qed.

Lemma split_step_inv (st : split_state) (line : str) :
  split_inv st -> split_inv (split_step db st line).
Proof.
  intros [Hb Hf]. unfold split_step.
  destruct (re_match (fence_re db) (strip line)) as [m|] eqn:Hm;
    destruct (in_code_block st) eqn:Hin.
  - destruct (closes_fence (code_fence st) line); constructor;
      cbn [blocks current_block in_code_block].
    + apply Forall_app. split; [exact Hb|]. constructor; [|constructor].
      destruct (current_block st) as [|l cur]; [discriminate|].
      now apply nonblank_join.
    + reflexivity.
    + exact Hb.
    + destruct (current_block st) as [|l cur]; [discriminate | exact Hf].
  - constructor; cbn [blocks current_block in_code_block].
    + apply flush_nonblank; [exact Hb|].
      destruct (current_block st); [exact I | exact Hf].
    + exact (fence_line_nonblank _ Hm).
  - destruct (closes_fence (code_fence st) line); constructor;
      cbn [blocks current_block in_code_block].
    + apply Forall_app. split; [exact Hb|]. constructor; [|constructor].
      destruct (current_block st) as [|l cur]; [discriminate|].
      now apply nonblank_join.
    + reflexivity.
    + exact Hb.
    + destruct (current_block st) as [|l cur]; [discriminate | exact Hf].
  - destruct (str_eqb (strip line) []) eqn:Hblank; constructor;
      cbn [blocks current_block in_code_block].
    + apply flush_nonblank; [exact Hb|].
      destruct (current_block st); [exact I | exact Hf].
    + reflexivity.
    + exact Hb.
    + destruct (current_block st) as [|l cur]; cbn [app]; [|exact Hf].
      apply nonblank_true. intros Hnil. rewrite Hnil in Hblank.
      discriminate.
Qed.

Lemma split_loop_inv (lines : list str) (st : split_state) :
  split_inv st -> split_inv (fold_left (split_step db) lines st).
Proof.
  revert st. induction lines as [|l lines IH]; intros st H; cbn;
    [exact H | apply IH, split_step_inv, H].
Qed.

Lemma split_lines_nonblank (lines : list str) :
  Forall (fun b => nonblank b = true) (split_lines db lines).
Proof.
  unfold split_lines, split_finish.
  destruct (split_loop_inv lines (st := split_init)) as [Hb Hf].
  { constructor; [constructor | reflexivity]. }
  apply flush_nonblank; [exact Hb|].
  destruct (current_block _); [exact I | exact Hf].
Qed.

End SegmenterInvariants.

(** X1.  No block returned by [_split_blocks] is blank: every block has
    a character that is not whitespace, so [convert] skips none of
    them. *)
Theorem split_blocks_nonblank (db : unicode_db) (text : str) :
  Forall (fun b => nonblank b = true) (_split_blocks db text).
Proof. apply split_lines_nonblank. Qed.

Lemma flush_lines (bs cur : list str) :
  Forall (fun l => ~ In NL l) cur ->
  concat (map (str_split NL) (flush bs cur))
  = concat (map (str_split NL) bs) ++ cur.
Proof.
  intros Hcur. destruct cur as [|l cur]; cbn [flush].
  - now rewrite app_nil_r.
  - rewrite map_app, concat_app. cbn [map concat].
    rewrite str_split_join by (discriminate || exact Hcur).
    now rewrite app_nil_r.
Qed.

Lemma str_eqb_nil_nonblank (line : str) :
  str_eqb (strip line) [] = negb (nonblank line).
Proof.
  unfold nonblank. destruct (strip line); reflexivity.
Qed.

Section SegmenterLines.

Variable db : unicode_db.

(** One step keeps the line, unless it is a blank line outside a code
    block. *)
Lemma split_step_lines (st : split_state) (line : str) :
  Forall (fun l => ~ In NL l) (current_block st) -> ~ In NL line ->
  Forall (fun l => ~ In NL l) (current_block (split_step db st line))
  /\ filter nonblank (kept_lines (split_step db st line))
     = filter nonblank (kept_lines st ++ [line]).
Proof.
  intros Hcur Hline.
  assert (Hsnoc : Forall (fun l => ~ In NL l) (current_block st ++ [line])).
  { apply Forall_app. split; [exact Hcur | now constructor]. }
  assert (Hflush : concat (map (str_split NL)
                              (flush (blocks st) (current_block st)))
                   = kept_lines st) by now apply flush_lines.
  assert (Hclose : concat (map (str_split NL)
                     (blocks st ++ [str_join [NL] (current_block st ++ [line])]))
                   = kept_lines st ++ [line]).
  { rewrite map_app, concat_app. cbn [map concat].
    rewrite str_split_join
      by (assumption || (destruct (current_block st); discriminate)).
    unfold kept_lines. now rewrite app_nil_r, app_assoc. }
  assert (Hadd : concat (map (str_split NL) (blocks st))
                 ++ current_block st ++ [line] = kept_lines st ++ [line]).
  { unfold kept_lines. now rewrite app_assoc. }
  unfold split_step.
  destruct (re_match (fence_re db) (strip line)) as [m|] eqn:Hm;
    destruct (in_code_block st) eqn:Hin.
  - destruct (closes_fence (code_fence st) line);
      unfold kept_lines at 1; cbn [blocks current_block].
    + rewrite Hclose, app_nil_r. split; [constructor | reflexivity].
    + rewrite Hadd. split; [exact Hsnoc | reflexivity].
  - unfold kept_lines at 1; cbn [blocks current_block]. rewrite Hflush.
    split; [now constructor | reflexivity].
  - destruct (closes_fence (code_fence st) line);
      unfold kept_lines at 1; cbn [blocks current_block].
    + rewrite Hclose, app_nil_r. split; [constructor | reflexivity].
    + rewrite Hadd. split; [exact Hsnoc | reflexivity].
  - destruct (str_eqb (strip line) []) eqn:Hblank;
      unfold kept_lines at 1; cbn [blocks current_block].
    + rewrite Hflush, app_nil_r. split; [constructor|].
      rewrite str_eqb_nil_nonblank in Hblank.
      rewrite filter_app. cbn [filter].
      destruct (nonblank line); [discriminate|]. now rewrite app_nil_r.
    + rewrite Hadd. split; [exact Hsnoc | reflexivity].
Qed.

Lemma split_loop_lines (lines : list str) :
  Forall (fun l => ~ In NL l) lines ->
  forall (st : split_state),
    Forall (fun l => ~ In NL l) (current_block st) ->
    let st' := fold_left (split_step db) lines st in
    Forall (fun l => ~ In NL l) (current_block st')
    /\ filter nonblank (kept_lines st')
       = filter nonblank (kept_lines st ++ lines).
Proof.
  induction 1 as [|l lines Hl _ IH]; intros st Hst; cbn [fold_left].
  - now rewrite app_nil_r.
  - destruct (@split_step_lines st l Hst Hl) as [H1 H2].
    destruct (IH _ H1) as [H3 H4]. split; [exact H3|].
    rewrite H4, filter_app, H2, <- filter_app, <- app_assoc. reflexivity.
Qed.

(** After the opening of a fence, lines that do not close it stay in
    the open block, which is emitted at the end of the text. *)
Lemma split_lines_open_fence (pre : list str) (opening : str)
      (body : list str) (ch : char) :
  in_code_block (fold_left (split_step db) pre split_init) = false ->
  is_match (re_match (fence_re db) (strip opening)) = true ->
  hd_error (strip opening) = Some ch ->
  Forall (fun l => is_fence_run ch l = false) body ->
  split_lines db (pre ++ opening :: body)
  = split_lines db pre ++ [str_join [NL] (opening :: body)].
Proof.
  intros Hpre Hopen Hch Hbody.
  destruct (re_match (fence_re db) (strip opening)) as [m|] eqn:Hm;
    [clear Hopen | discriminate].
  destruct (fence_opening _ _ Hm) as (ch' & _ & Hhd & Hgrp & _).
  assert (ch' = ch) as -> by congruence.
  unfold split_lines. rewrite fold_left_app.
  set (st0 := fold_left (split_step db) pre split_init) in *.
  cbn [fold_left].
  replace (split_step db st0 opening)
    with {| blocks := split_finish st0; current_block := [opening];
            in_code_block := true; code_fence := [ch] |}
    by (unfold split_step; rewrite Hm, Hpre, Hgrp; reflexivity).
  rewrite (@split_loop_inside db ch body Hbody). reflexivity.
Qed.

End SegmenterLines.

(** X2.  The segmenter loses no line that is not blank and adds none:
    the lines of the blocks, in order, without the blank ones, are the
    lines of the text without the blank ones. *)
Theorem split_blocks_keeps_lines (db : unicode_db) (text : str) :
  filter nonblank (concat (map (str_split NL) (_split_blocks db text)))
  = filter nonblank (str_split NL text).
Proof.
  unfold _split_blocks, split_lines, split_finish.
  destruct (@split_loop_lines db _ (str_split_no_sep NL text) split_init)
    as [Hcur Hkept]; [constructor|].
  rewrite flush_lines by exact Hcur. exact Hkept.
Qed.

(** X3.  A fence that the segmenter opens and that is never closed runs
    to the end of the text: when a line, stripped, matches the pattern
    of the segmenter for an opening fence (three or more backquotes or
    three or more tildes, then word characters only) while no fence is
    open, and no line after it is a run of three or more fence
    characters, the lines from that line on make up the last block. *)
Theorem unclosed_fence_runs_to_end (db : unicode_db) (text : str)
        (pre : list str) (opening : str) (body : list str) (ch : char) :
  str_split NL text = pre ++ opening :: body ->
  in_code_block (fold_left (split_step db) pre split_init) = false ->
  is_match (re_match (fence_re db) (strip opening)) = true ->
  hd_error (strip opening) = Some ch ->
  Forall (fun l => is_fence_run ch l = false) body ->
  _split_blocks db text
  = split_lines db pre ++ [str_join [NL] (opening :: body)].
Proof.
  intros Hlines Hpre Hopen Hch Hbody. unfold _split_blocks.
  rewrite Hlines. now apply split_lines_open_fence with (ch := ch).
Qed.

Lemma unclosed_fence_runs_to_end_witness :
  _split_blocks latin1_db
    (text_of ["intro"; EmptyString; "~~~"; "code"; EmptyString; "# text";
              "```"; EmptyString; "more"])
  = split_lines latin1_db [py "intro"; []]
    ++ [str_join [NL] (py "~~~" :: [py "code"; []; py "# text"; py "```";
                                    []; py "more"])].
Proof.
  apply (@unclosed_fence_runs_to_end latin1_db _ [py "intro"; []] (py "~~~")
           [py "code"; []; py "# text"; py "```"; []; py "more"] 126%N).
  - reflexivity.
  - reflexivity.
  - reflexivity.
  - reflexivity.
  - repeat constructor.
Defined.

(* ================================================================== *)
(** * Further properties of the inline tokenizer *)
(* ================================================================== *)

Lemma ends_with_text_cons (a : node) (l : list node) :
  ends_with_text (a :: l)
  = match l with [] => is_text a | _ => ends_with_text l end.
Proof.
  unfold ends_with_text. cbn [rev]. destruct l as [|b l]; [reflexivity|].
  destruct (rev (b :: l)) as [|c r] eqn:E; [|reflexivity].
  apply (f_equal (@length _)) in E. rewrite length_rev in E. discriminate.
Qed.

Lemma merged_snoc (l : list node) (x : node) :
  merged (l ++ [x])
  = merged l && negb (is_empty_text x)
    && negb (is_text x && ends_with_text l).
Proof.
  induction l as [|a l IH].
  - cbn. now rewrite !andb_true_r, andb_false_r, andb_true_r.
  - cbn [app merged]. rewrite IH, ends_with_text_cons.
    destruct l as [|b l]; cbn [app starts_with_text merged];
      destruct (is_empty_text a), (is_text a), (is_text x),
        (is_empty_text x); cbn; try reflexivity;
      try (now rewrite ?andb_true_r, ?andb_false_r);
      destruct (is_text b), (is_empty_text b), (merged l),
        (ends_with_text (b :: l)), (starts_with_text l); reflexivity.
Qed.

Lemma clean_step_merged (cleaned : list node) (item : node) :
  merged cleaned = true -> merged (clean_step cleaned item) = true.
Proof.
  intros H. unfold clean_step. destruct item as [s | t a c].
  - destruct (rev cleaned) as [|[t | t a c] before] eqn:E.
    + assert (cleaned = []) as ->
          by (apply (f_equal (@rev _)) in E; now rewrite rev_involutive in E).
      destruct s; reflexivity.
    + assert (Hc : cleaned = rev before ++ [Text t])
        by (apply (f_equal (@rev _)) in E; now rewrite rev_involutive in E).
      rewrite Hc, merged_snoc in H. rewrite merged_snoc.
      cbn [is_text] in *.
      apply andb_true_iff in H. destruct H as [H H2].
      apply andb_true_iff in H. destruct H as [H H1].
      rewrite H, H2. destruct t as [|x t]; [discriminate|]. reflexivity.
    + destruct s as [|x s]; [exact H|].
      rewrite merged_snoc, H. unfold ends_with_text. rewrite E. reflexivity.
  - rewrite merged_snoc, H. reflexivity.
Qed.

Lemma clean_loop_merged (result cleaned : list node) :
  merged cleaned = true ->
  merged (fold_left clean_step result cleaned) = true.
Proof.
  revert cleaned. induction result as [|item result IH]; intros cleaned H;
    cbn; [exact H | apply IH, clean_step_merged, H].
Qed.

Lemma clean_shape (result : list node) :
  clean result <> []
  /\ (clean result = [Text []] \/ merged (clean result) = true).
Proof.
  unfold clean.
  pose proof (clean_loop_merged result [] eq_refl) as H.
  destruct (fold_left clean_step result []) as [|n l];
    [split; [discriminate | now left] | split; [discriminate | now right]].
Qed.

(** Patterns that start with a character that the text does not have
    match nowhere. *)
Lemma search_chr_none (p : char -> bool) (r : regex) (s : str) :
  forallb (fun c => negb (p c)) s = true ->
  forall (i : nat) (pv : option char),
    search_from (Chr p >> r) i pv s = None.
Proof.
  induction s as [|a s IH]; intros Hs i pv; cbn [search_from].
  - reflexivity.
  - cbn in Hs. apply andb_true_iff in Hs. destruct Hs as [Ha Hs].
    cbn [exec rest].
    destruct (p a); [discriminate|]. now apply IH.
Qed.

Lemma search_behind_chr_none (q p : char -> bool) (r : regex) (s : str) :
  forallb (fun c => negb (p c)) s = true ->
  forall (i : nat) (pv : option char),
    search_from (NotBehind q >> Chr p >> r) i pv s = None.
Proof.
  induction s as [|a s IH]; intros Hs i pv; cbn [search_from].
  - cbn [exec prev rest].
    destruct pv as [c|]; [destruct (q c)|]; reflexivity.
  - cbn in Hs. apply andb_true_iff in Hs. destruct Hs as [Ha Hs].
    cbn [exec prev rest].
    destruct (p a); [discriminate|].
    destruct pv as [c|]; [destruct (q c)|]; now apply IH.
Qed.

Lemma search_chr_chr_none (p0 p : char -> bool) (r : regex) (s : str) :
  forallb (fun c => negb (p c)) s = true ->
  forall (i : nat) (pv : option char),
    search_from (Chr p0 >> Chr p >> r) i pv s = None.
Proof.
  induction s as [|a s IH]; intros Hs i pv; cbn [search_from].
  - reflexivity.
  - cbn in Hs. apply andb_true_iff in Hs. destruct Hs as [Ha Hs].
    cbn [exec rest advance skipn]. rewrite (IH Hs).
    destruct (p0 a); [|reflexivity].
    destruct s as [|b s]; [reflexivity|].
    cbn in Hs. destruct (p b); [discriminate | reflexivity].
Qed.

Lemma plain_without (c : string) (a : char) (s : str) :
  py c = [a] -> In a (py "[*_`") ->
  plain s = true -> forallb (fun x => negb (one c x)) s = true.
Proof.
  intros Hc Ha Hs. unfold plain in Hs. rewrite forallb_forall in *.
  intros x Hx. specialize (Hs x Hx). unfold none_of in Hs. unfold one.
  rewrite Hc. cbn. rewrite orb_false_r.
  destruct (N.eqb_spec x a) as [-> | _]; [|reflexivity].
  apply negb_true_iff in Hs. exfalso.
  assert (Hin : char_in (py "[*_`") a = true)
    by (apply existsb_exists; exists a; split; [exact Ha | apply N.eqb_refl]).
  congruence.
Qed.

Section TokenizerShape.

Variable db : unicode_db.

Lemma earliest_plain (s : str) : plain s = true -> earliest db s = None.
Proof.
  intros Hs.
  assert (H1 := @plain_without "[" 91%N s eq_refl ltac:(cbn; tauto) Hs).
  assert (H2 := @plain_without "*" 42%N s eq_refl ltac:(cbn; tauto) Hs).
  assert (H3 := @plain_without "_" 95%N s eq_refl ltac:(cbn; tauto) Hs).
  assert (H4 := @plain_without "`" 96%N s eq_refl ltac:(cbn; tauto) Hs).
  unfold earliest, patterns, earliest_step, re_search.
  cbn [fold_left fst snd].
  rewrite (@search_chr_chr_none _ _ _ _ H1).
  rewrite (@search_chr_none _ _ _ H1).
  rewrite (@search_chr_none _ _ _ H2).
  rewrite (@search_chr_none _ _ _ H3).
  rewrite (@search_behind_chr_none _ _ _ _ H2).
  rewrite (@search_behind_chr_none _ _ _ _ H3).
  rewrite (@search_chr_none _ _ _ H4).
  reflexivity.
Qed.

End TokenizerShape.

(** X4.  For every text the tokenizer returns a list of nodes that is
    not empty; it is the single empty string, or it has no empty
    string and no two strings next to each other. *)
Theorem parse_inline_shape (db : unicode_db) (text : str) :
  exists nodes,
    _parse_inline db text = Some nodes
    /\ nodes <> []
    /\ (nodes = [Text []] \/ merged nodes = true).
Proof.
  unfold _parse_inline.
  destruct (@parse_loop_returns db (S (length text)) text []) as [r Hr];
    [lia|].
  rewrite Hr. exists (clean r). split; [reflexivity | apply clean_shape].
Qed.

(** X5.  A text without an opening bracket, an asterisk, an underscore
    and a backquote is returned as it is, as one string. *)
Theorem parse_inline_plain_text (db : unicode_db) (text : str) :
  plain text = true -> _parse_inline db text = Some [Text text].
Proof.
  intros H. unfold _parse_inline. cbn [parse_loop].
  destruct text as [|a s]; [reflexivity|].
  rewrite (earliest_plain db _ H). reflexivity.
Qed.

Lemma parse_inline_plain_text_witness :
  _parse_inline latin1_db (py "Hello, world! (1 + 2 = 3)")
  = Some [Text (py "Hello, world! (1 + 2 = 3)")].
Proof.
  apply (@parse_inline_plain_text latin1_db (py "Hello, world! (1 + 2 = 3)")).
  reflexivity.
Defined.

(* ================================================================== *)
(** * Further properties of the block classifier *)
(* ================================================================== *)

Lemma run_app (p : char -> bool) (a b : str) :
  forallb p a = true -> stops p b -> run p None (a ++ b) = length a.
Proof.
  intros Ha Hb. induction a as [|x a IH]; cbn [app length].
  - destruct b as [|c b]; cbn; [reflexivity | now rewrite Hb].
  - cbn in Ha. apply andb_true_iff in Ha. destruct Ha as [Hx Ha].
    cbn [run option_map]. rewrite Hx, (IH Ha). reflexivity.
Qed.

Lemma run_app_bounded (p : char -> bool) (a b : str) (h : nat) :
  forallb p a = true -> stops p b -> length a <= h ->
  run p (Some h) (a ++ b) = length a.
Proof.
  intros Ha Hb. revert h. induction a as [|x a IH]; intros h Hh;
    cbn [app length] in *.
  - destruct h, b as [|c b]; cbn; try reflexivity. now rewrite Hb.
  - cbn in Ha. apply andb_true_iff in Ha. destruct Ha as [Hx Ha].
    destruct h as [|h]; [lia|]. cbn [run option_map Nat.pred].
    rewrite Hx, (IH Ha) by lia. reflexivity.
Qed.

(** A repetition followed by a continuation that accepts the longest
    run succeeds with it. *)
Lemma exec_rep_greedy (p : char -> bool) (lo : nat) (hi : option nat)
      (st : cursor) (k : cursor -> option cursor) (c : cursor) (n : nat) :
  run p hi (rest st) = n -> lo <= n -> k (advance n st) = Some c ->
  exec (Rep p lo hi) st k = Some c.
Proof.
  intros Hrun Hlo Hk. cbn [exec]. rewrite Hrun.
  replace (lo <=? n) with true by (symmetry; now apply Nat.leb_le).
  now apply rep_try_first.
Qed.

Lemma firstn_length_app {A : Type} (a b : list A) :
  firstn (length a) (a ++ b) = a.
Proof.
  rewrite firstn_app, Nat.sub_diag, firstn_all. cbn. apply app_nil_r.
Qed.

Lemma skipn_length_app {A : Type} (a b : list A) :
  skipn (length a) (a ++ b) = b.
Proof.
  rewrite skipn_app, Nat.sub_diag, skipn_all. reflexivity.
Qed.

(** The heading pattern on a line made of one to six hashes, some
    whitespace and a text: group 1 is the hashes, group 2 the text. *)
Lemma heading_re_match (k : nat) (ws body : str) :
  1 <= k <= 6 -> ws <> [] -> forallb isspace ws = true ->
  body <> [] -> stops isspace body -> forallb not_newline body = true ->
  exists m,
    re_match heading_re (repeat 35%N k ++ ws ++ body) = Some m
    /\ group 1 (m_groups m) = repeat 35%N k
    /\ group 2 (m_groups m) = body.
Proof.
  intros Hk Hws Hsp Hbody Hstop Hnl.
  set (s := repeat 35%N k ++ ws ++ body).
  set (st0 := start_cursor s).
  set (st1 := set_group 1 (repeat 35%N k) (advance k st0)).
  set (st2 := advance (length ws) st1).
  set (st3 := set_group 2 body (advance (length body) st2)).
  assert (Hr1 : rest st1 = ws ++ body).
  { unfold st1, st0, s. cbn [rest set_group advance start_cursor].
    rewrite <- (repeat_length 35%N k) at 1. apply skipn_length_app. }
  assert (Hr2 : rest st2 = body).
  { unfold st2. cbn [rest advance]. rewrite Hr1. apply skipn_length_app. }
  exists {| m_start := 0; m_end := pos st3; m_groups := groups st3 |}.
  split; [|split; reflexivity].
  unfold re_match, heading_re. fold st0.
  replace (exec _ st0 Some) with (Some st3); [reflexivity|]. symmetry.
  rewrite exec_cat.
  change (exec Bol st0 ?k) with (k st0). cbn beta.
  rewrite exec_cat, exec_grp.
  apply exec_rep_greedy with (n := k).
  - unfold st0, s. cbn [rest start_cursor].
    rewrite <- (repeat_length 35%N k) at 2.
    apply run_app_bounded.
    + apply forallb_forall. intros x Hx. apply repeat_spec in Hx. rewrite Hx. reflexivity.
    + destruct ws as [|w ws]; [congruence|]. cbn in *.
      apply andb_true_iff in Hsp. destruct Hsp as [Hw _].
      unfold one, char_in. cbn. rewrite orb_false_r.
      destruct (N.eqb_spec w 35%N) as [-> | _]; [discriminate | reflexivity].
    + rewrite repeat_length. lia.
  - lia.
  - rewrite pos_advance.
    replace (firstn k (rest st0)) with (repeat 35%N k)
      by (unfold st0, s; cbn [rest start_cursor];
          rewrite <- (repeat_length 35%N k) at 2;
          now rewrite firstn_length_app).
    fold st1. rewrite exec_cat.
    apply exec_rep_greedy with (n := length ws).
    + rewrite Hr1. apply run_app; [exact Hsp | exact Hstop].
    + destruct ws; [congruence | cbn; lia].
    + fold st2. rewrite exec_cat, exec_grp.
      apply exec_rep_greedy with (n := length body).
      * rewrite Hr2. rewrite <- (app_nil_r body) at 1.
        apply run_app; [exact Hnl | exact I].
      * destruct body; [congruence | cbn; lia].
      * rewrite pos_advance, Hr2, firstn_all. fold st3.
        cbn [exec]. unfold st3 at 1. cbn [rest set_group advance].
        rewrite Hr2, skipn_all. reflexivity.
Qed.

Lemma run_all (p : char -> bool) (s : str) :
  forallb p s = true -> run p None s = length s.
Proof.
  intros H. rewrite <- (app_nil_r s) at 1. now apply run_app.
Qed.

(** The rule pattern on three or more of its characters. *)
Lemma hr_re_match (s : str) :
  3 <= length s -> forallb (one "-*_") s = true ->
  is_match (re_match hr_re s) = true.
Proof.
  intros Hlen Hs. unfold re_match, hr_re.
  replace (exec _ (start_cursor s) Some)
    with (Some (advance (length s) (start_cursor s))); [reflexivity|].
  symmetry. rewrite exec_cat.
  change (exec Bol (start_cursor s) ?k) with (k (start_cursor s)). cbn beta.
  rewrite exec_cat. apply exec_rep_greedy with (n := length s).
  - now apply run_all.
  - exact Hlen.
  - cbn [exec rest advance start_cursor]. rewrite skipn_all. reflexivity.
Qed.

Section Classifier.

Variable db : unicode_db.

(** X6.  A block whose first line is one to six hashes, whitespace and
    a text becomes one heading whose children are the tokens of the
    text: [h3] for one or two hashes, [h4] for three to six.  The
    other lines of the block are not used. *)
Theorem heading_levels (nodes : list node) (block : str) (k : nat)
        (ws body : str) (c : char) :
  strip (hd [] (str_split NL block)) = repeat 35%N k ++ ws ++ body ->
  1 <= k <= 6 ->
  ws <> [] -> forallb isspace ws = true ->
  hd_error body = Some c -> isspace c = false -> ~ In NL body ->
  _process_block db nodes block
  = option_map
      (fun children =>
         nodes ++ [elem (if k <=? 2 then TagH3 else TagH4) children])
      (_parse_inline db (strip body)).
Proof.
  intros Hline Hk Hws Hsp Hc Hcs Hnl.
  assert (Hbody : body <> []) by (destruct body; discriminate).
  assert (Hstop : stops isspace body)
    by (destruct body; [exact I | injection Hc as ->; exact Hcs]).
  assert (Hnot : forallb not_newline body = true).
  { apply forallb_forall. intros x Hx. unfold not_newline.
    destruct (N.eqb_spec x NL) as [-> | _]; [contradiction | reflexivity]. }
  destruct (heading_re_match Hk Hws Hsp Hbody Hstop Hnot)
    as (m & Hm & Hg1 & Hg2).
  unfold _process_block. rewrite Hline.
  destruct k as [|k]; [lia|]. cbn [repeat app startswith N.eqb Pos.eqb].
  cbn [andb orb].
  change (35%N :: repeat 35%N k ++ ws ++ body)
    with (repeat 35%N (S k) ++ ws ++ body).
  unfold _process_heading. rewrite Hm, Hg1, Hg2, repeat_length.
  destruct (_parse_inline db (strip body)); reflexivity.
Qed.

(** X7.  A block whose first line is three or more characters among
    the hyphen, the asterisk and the underscore becomes one rule; the
    other lines of the block are dropped. *)
Theorem rule_block (nodes : list node) (block : str) :
  3 <= length (strip (hd [] (str_split NL block))) ->
  forallb (one "-*_") (strip (hd [] (str_split NL block))) = true ->
  _process_block db nodes block = Some (nodes ++ [leaf TagHr]).
Proof.
  intros Hlen Hs. unfold _process_block.
  rewrite (hr_re_match _ Hlen Hs).
  destruct (strip (hd [] (str_split NL block))) as [|x s]; [cbn in Hlen; lia|].
  cbn in Hs. apply andb_true_iff in Hs. destruct Hs as [Hx _].
  unfold one, char_in in Hx. cbn in Hx. rewrite orb_false_r in Hx.
  cbn [startswith py].
  repeat (apply orb_true_iff in Hx; destruct Hx as [Hx | Hx]);
    apply N.eqb_eq in Hx; subst x; reflexivity.
Qed.

End Classifier.

Lemma heading_levels_witness :
  _process_block latin1_db [] (text_of ["  ### Set *up*  "; "dropped"])
  = option_map
      (fun children => [] ++ [elem (if 3 <=? 2 then TagH3 else TagH4) children])
      (_parse_inline latin1_db (strip (py "Set *up*"))).
Proof.
  apply (@heading_levels latin1_db [] _ 3 (py " ") (py "Set *up*") 83%N).
  - reflexivity.
  - lia.
  - discriminate.
  - reflexivity.
  - reflexivity.
  - reflexivity.
  - cbn. intuition discriminate.
Defined.

Lemma rule_block_witness :
  _process_block latin1_db [] (text_of ["-*_-"; "dropped"])
  = Some ([] ++ [leaf TagHr]).
Proof.
  apply (@rule_block latin1_db [] (text_of ["-*_-"; "dropped"])).
  - cbn. lia.
  - reflexivity.
Defined.

(** ** Code blocks, blank documents and table rows *)

Section CodeBlocks.

Variable db : unicode_db.

(** The document made of one fence. *)
Lemma fenced_document (markdown : str) (opening : str) (body : list str)
      (closing : str) (ch : char) :
  str_split NL (replace [CR] [NL] (replace [CR; NL] [NL] markdown))
  = opening :: body ++ [closing] ->
  is_match (re_match (fence_re db) (strip opening)) = true ->
  hd_error (strip opening) = Some ch ->
  Forall (fun l => is_fence_run ch l = false) body ->
  is_fence_run ch closing = true ->
  markdown_to_nodes db markdown
  = Some match str_join [NL] body with
         | [] => []
         | _ => [elem TagPre [Text (str_join [NL] body)]]
         end.
Proof.
  intros Hlines Hopen Hch Hrun Hclose.
  unfold markdown_to_nodes, convert.
  set (text := replace [CR] [NL] (replace [CR; NL] [NL] markdown)) in *.
  assert (Hnosep : Forall (fun l => ~ In NL l) (opening :: body ++ [closing])).
  { rewrite <- Hlines. apply str_split_no_sep. }
  destruct (re_match (fence_re db) (strip opening)) as [m|] eqn:Hm;
    [|discriminate].
  destruct (fence_opening _ _ Hm) as (ch' & Hch' & Hhd & _ & Hstart).
  assert (ch' = ch) as -> by congruence.
  unfold _split_blocks. rewrite Hlines.
  change (opening :: body ++ [closing])
    with ([] ++ opening :: body ++ closing :: []).
  rewrite (@split_lines_fence db [] opening body closing [] ch);
    try assumption; try reflexivity; [|now rewrite Hm].
  change (split_lines db []) with (@nil str). cbn [app].
  set (block := str_join [NL] (opening :: body ++ [closing])).
  assert (Hsplit : str_split NL block = opening :: body ++ [closing]).
  { apply str_split_join; [discriminate | exact Hnosep]. }
  assert (Hfirst : is_fence_start opening = true).
  { unfold is_fence_start.
    destruct Hch' as [-> | ->]; apply orb_true_iff; [left | right];
      exact Hstart. }
  assert (Hblock : nonblank block = true).
  { apply nonblank_join. apply nonblank_true. intros Hnil.
    rewrite Hnil in Hhd. discriminate. }
  cbn [convert_blocks]. rewrite Hblock.
  unfold _process_block. rewrite Hsplit. cbn [hd].
  pose proof Hfirst as Hfirst'. unfold is_fence_start in Hfirst'.
  rewrite Hfirst'.
  unfold _process_code_block. rewrite Hsplit. cbn [hd tl]. rewrite Hfirst.
  assert (Hlast : last (body ++ [closing]) [] = closing) by apply last_last.
  assert (Hrem : removelast (body ++ [closing]) = body)
    by apply removelast_last.
  destruct (body ++ [closing]) as [|l0 ls0] eqn:Hbc;
    [destruct body; discriminate|].
  rewrite Hlast, Hrem, (@fence_run_fence_start ch closing Hch' Hclose).
  destruct (str_join [NL] body); reflexivity.
Qed.

Lemma blank_line_step (st : split_state) (line : str) :
  in_code_block st = false -> current_block st = [] ->
  forallb isspace line = true ->
  split_step db st line = st.
Proof.
  intros Hin Hcur Hline. apply strip_nil in Hline. unfold split_step.
  rewrite Hline, Hin, Hcur. destruct st as [b c i f]. cbn in *. subst.
  reflexivity.
Qed.

Lemma blank_lines_loop (lines : list str) (st : split_state) :
  in_code_block st = false -> current_block st = [] ->
  Forall (fun l => forallb isspace l = true) lines ->
  fold_left (split_step db) lines st = st.
Proof.
  intros Hin Hcur Hall. induction Hall as [|l lines Hl _ IH]; cbn;
    [reflexivity|].
  now rewrite blank_line_step.
Qed.

End CodeBlocks.

Lemma forallb_replace_from (f : char -> bool) (old new : str) (s : str) :
  forallb f new = true -> forallb f s = true ->
  forall skip, forallb f (replace_from old new skip s) = true.
Proof.
  intros Hnew. induction s as [|c s IH]; intros Hs skip; cbn [replace_from];
    [reflexivity|].
  cbn in Hs. apply andb_true_iff in Hs. destruct Hs as [Hc Hs].
  destruct skip as [|k]; [|now apply IH].
  destruct (startswith old (c :: s)).
  - rewrite forallb_app, Hnew. now apply IH.
  - cbn. rewrite Hc. now apply IH.
Qed.

Lemma forallb_str_split (f : char -> bool) (sep : char) (s : str) :
  forallb f s = true ->
  Forall (fun l => forallb f l = true) (str_split sep s).
Proof.
  induction s as [|c s IH]; intros Hs; cbn [str_split].
  - constructor; [reflexivity | constructor].
  - cbn in Hs. apply andb_true_iff in Hs. destruct Hs as [Hc Hs].
    specialize (IH Hs). destruct (N.eqb c sep).
    + constructor; [reflexivity | exact IH].
    + destruct (str_split sep s) as [|w ws].
      * constructor; [cbn; now rewrite Hc | constructor].
      * inversion IH as [|? ? Hw Hws]; subst.
        constructor; [cbn; now rewrite Hc | exact Hws].
Qed.

(** X8.  A fenced code block that the segmenter recognizes is kept as
    it is written.  When the first line of the document, stripped,
    matches the pattern of the segmenter for an opening fence (three or
    more backquotes or three or more tildes, then word characters
    only), the last line is a run of three or more fence characters and
    no line between them is, the lines between them, joined by line
    breaks, are the one string of a [pre] node, the only node of the
    document; they are not tokenized, and blank lines among them are
    kept. *)
Theorem code_block_verbatim (db : unicode_db) (markdown : str)
        (opening : str) (body : list str) (closing : str) (ch : char) :
  str_split NL (replace [CR] [NL] (replace [CR; NL] [NL] markdown))
  = opening :: body ++ [closing] ->
  is_match (re_match (fence_re db) (strip opening)) = true ->
  hd_error (strip opening) = Some ch ->
  Forall (fun l => is_fence_run ch l = false) body ->
  is_fence_run ch closing = true ->
  str_join [NL] body <> [] ->
  markdown_to_nodes db markdown
  = Some [elem TagPre [Text (str_join [NL] body)]].
Proof.
  intros Hlines Hopen Hch Hrun Hclose Hbody.
  rewrite (@fenced_document db markdown opening body closing ch
             Hlines Hopen Hch Hrun Hclose).
  destruct (str_join [NL] body); [congruence | reflexivity].
Qed.

Lemma code_block_verbatim_witness :
  markdown_to_nodes latin1_db
    (text_of ["```python"; "x = **1**"; EmptyString; "# comment"; "```"])
  = Some [elem TagPre
            [Text (str_join [NL] [py "x = **1**"; []; py "# comment"])]].
Proof.
  apply (@code_block_verbatim latin1_db _ (py "```python")
           [py "x = **1**"; []; py "# comment"] (py "```") 96%N).
  - reflexivity.
  - reflexivity.
  - reflexivity.
  - repeat constructor.
  - reflexivity.
  - discriminate.
Defined.

Lemma convert_blank (db : unicode_db) (markdown : str) :
  forallb isspace markdown = true -> convert db markdown = Some [].
Proof.
  intros H. unfold convert, _split_blocks, split_lines.
  rewrite blank_lines_loop; [reflexivity | reflexivity | reflexivity |].
  apply forallb_str_split. unfold replace.
  apply forallb_replace_from; [reflexivity|].
  apply forallb_replace_from; [reflexivity | exact H].
Qed.

(** X9.  A text of whitespace only converts to the empty document. *)
Theorem blank_document (db : unicode_db) (markdown : str) :
  forallb isspace markdown = true -> markdown_to_nodes db markdown = Some [].
Proof. intros H. unfold markdown_to_nodes. now apply convert_blank. Qed.

Lemma blank_document_witness :
  markdown_to_nodes latin1_db [SP; CR; NL; 9%N; NL; NL; SP] = Some [].
Proof.
  apply (@blank_document latin1_db [SP; CR; NL; 9%N; NL; NL; SP]).
  reflexivity.
Defined.

Lemma lstrip_fixed (s : str) :
  stops isspace s -> lstrip s = s.
Proof. destruct s as [|c s]; cbn; [reflexivity | now intros ->]. Qed.

Lemma lstrip_stops (s : str) : stops isspace (lstrip s).
Proof.
  destruct (lstrip s) as [|c t] eqn:E; [exact I|].
  exact (lstrip_head _ E).
Qed.

Lemma rstrip_stops (s : str) : stops isspace s -> stops isspace (rstrip s).
Proof.
  destruct s as [|c s]; [intros _; exact I|]. cbn [stops]. intros Hc.
  unfold rstrip. cbn [rev]. rewrite lstrip_snoc by exact Hc.
  rewrite rev_app_distr. exact Hc.
Qed.

(** Stripping twice is stripping once. *)
Lemma strip_strip (s : str) : strip (strip s) = strip s.
Proof.
  unfold strip.
  rewrite (@lstrip_fixed (rstrip (lstrip s)))
    by apply rstrip_stops, lstrip_stops.
  unfold rstrip. rewrite rev_involutive.
  now rewrite (@lstrip_fixed (lstrip (rev (lstrip s))))
    by apply lstrip_stops.
Qed.

Lemma lstrip_incl (s : str) (x : char) : In x (lstrip s) -> In x s.
Proof.
  induction s as [|c s IH]; cbn; [tauto|].
  destruct (isspace c); [intros H; right; now apply IH | tauto].
Qed.

Lemma strip_incl (s : str) (x : char) : In x (strip s) -> In x s.
Proof.
  unfold strip, rstrip. intros H. apply in_rev in H.
  apply lstrip_incl in H. apply in_rev in H. now apply lstrip_incl in H.
Qed.

(** X10.  The cells of a table row are stripped and hold no pipe; a
    row has at least one cell. *)
Theorem table_row_cells (line : str) :
  _parse_table_row line <> []
  /\ Forall (fun cell => strip cell = cell /\ ~ In PIPE cell)
            (_parse_table_row line).
Proof.
  unfold _parse_table_row.
  set (inner := if endswith _ _ then _ else _).
  split.
  - pose proof (str_split_not_nil PIPE inner) as H.
    destruct (str_split PIPE inner); [congruence | discriminate].
  - apply Forall_map.
    eapply Forall_impl; [|apply (str_split_no_sep PIPE inner)].
    cbn beta. intros cell Hcell. split; [apply strip_strip|].
    intros Hin. apply Hcell. now apply strip_incl.
Qed.

(* ================================================================== *)
(** * Further properties of the size partitioner *)
(* ================================================================== *)

Local Open Scope Z_scope.

Lemma sum_sizes_nonneg (chunk : list node) : 0 <= sum_sizes chunk.
Proof.
  induction chunk as [|n chunk IH]; cbn [sum_sizes]; [lia|].
  pose proof (byte_len_nonneg (dumps n)). lia.
Qed.

Lemma sum_sizes_in (n : node) (chunk : list node) :
  In n chunk -> byte_len (dumps n) <= sum_sizes chunk.
Proof.
  induction chunk as [|x chunk IH]; intros H; [contradiction|].
  cbn [sum_sizes]. destruct H as [-> | H].
  - pose proof (sum_sizes_nonneg chunk). lia.
  - specialize (IH H). pose proof (byte_len_nonneg (dumps x)). lia.
Qed.

Lemma estimate_content_size_nonempty (chunk : list node) :
  chunk <> [] ->
  estimate_content_size chunk
  = sum_sizes chunk + 2 * Z.of_nat (length chunk).
Proof.
  destruct chunk as [|n more]; [congruence|]. intros _.
  rewrite estimate_content_size_cons. cbn [length]. lia.
Qed.

(** The chunks that the loop returns satisfy [chunk_ok]. *)
Lemma split_loop_chunks_ok (content : list node) (max_size : Z)
      (chunk : list node) :
  In chunk (part_finish (fold_left (part_step max_size) content part_init)) ->
  chunk_ok max_size chunk.
Proof.
  intros Hin.
  destruct (part_loop_inv content (part_init_inv max_size))
    as [_ Hparts Hcur].
  unfold part_finish in Hin.
  destruct (current_part _) as [|n0 cur] eqn:Hc; cbn [nonempty] in Hin.
  - rewrite Forall_forall in Hparts. now apply Hparts.
  - apply in_app_or in Hin. destruct Hin as [Hin | [<- | []]].
    + rewrite Forall_forall in Hparts. now apply Hparts.
    + destruct Hcur as [Hnil | Hok]; [discriminate | exact Hok].
Qed.

Lemma part_step_current (max_size : Z) (st : part_state) (n : node) :
  current_part (part_step max_size st n) <> [].
Proof.
  unfold part_step. cbn [current_part].
  destruct (_ && _); cbn [current_part];
    [discriminate | destruct (current_part st); discriminate].
Qed.

Lemma part_loop_current (max_size : Z) (content : list node)
      (st : part_state) :
  current_part st <> [] \/ content <> [] ->
  current_part (fold_left (part_step max_size) content st) <> [].
Proof.
  revert st. induction content as [|n content IH]; intros st H; cbn.
  - destruct H; [assumption | congruence].
  - apply IH. left. apply part_step_current.
Qed.

(** X12.  A document that is not empty is split into at least one
    chunk, and no chunk is empty. *)
Theorem chunks_nonempty (content : list node) (max_size : Z) :
  content <> [] ->
  split_content_for_publishing content max_size <> []
  /\ Forall (fun chunk => chunk <> [])
            (split_content_for_publishing content max_size).
Proof.
  intros Hne. unfold split_content_for_publishing.
  destruct (estimate_content_size content <=? max_size).
  - split; [discriminate | constructor; [exact Hne | constructor]].
  - split.
    + unfold part_finish.
      pose proof (@part_loop_current max_size content part_init
                                     (or_intror Hne)) as Hcur.
      destruct (current_part _); [congruence|]. cbn [nonempty].
      destruct (parts _); discriminate.
    + apply Forall_forall. intros chunk Hin.
      now destruct (split_loop_chunks_ok _ _ _ Hin).
Qed.

Lemma chunks_nonempty_witness :
  split_content_for_publishing [leaf TagHr; leaf TagHr; leaf TagHr] 30 <> []
  /\ Forall (fun chunk => chunk <> [])
            (split_content_for_publishing [leaf TagHr; leaf TagHr; leaf TagHr]
                                          30).
Proof.
  apply (@chunks_nonempty [leaf TagHr; leaf TagHr; leaf TagHr] 30).
  discriminate.
Defined.

(** X13.  A node that alone does not fit the budget (its serialized
    size plus the brackets and the byte of the separator) is the only
    node of its chunk. *)
Theorem oversized_node_alone (content : list node) (max_size : Z)
        (chunk : list node) (n : node) :
  In chunk (split_content_for_publishing content max_size) ->
  In n chunk ->
  max_size < byte_len (dumps n) + 3 ->
  chunk = [n].
Proof.
  unfold split_content_for_publishing.
  destruct (estimate_content_size content <=? max_size) eqn:Hfit.
  - intros [<- | []] Hn Hbig. apply Z.leb_le in Hfit.
    destruct content as [|x [|y more]]; [contradiction | |].
    + destruct Hn as [-> | []]. reflexivity.
    + exfalso. rewrite estimate_content_size_cons in Hfit.
      pose proof (sum_sizes_in _ _ Hn). cbn [length] in Hfit. lia.
  - intros Hin Hn Hbig.
    destruct (split_loop_chunks_ok _ _ _ Hin) as [Hne [Hone | Hacc]].
    + destruct chunk as [|x [|y more]]; try discriminate.
      destruct Hn as [-> | []]. reflexivity.
    + exfalso. unfold accounted_size in Hacc.
      pose proof (sum_sizes_in _ _ Hn).
      destruct chunk; [contradiction|]. cbn [length] in Hacc. lia.
Qed.

Lemma oversized_node_alone_witness :
  In [elem TagP [Text (py "a long paragraph")]]
     (split_content_for_publishing
        [leaf TagHr; elem TagP [Text (py "a long paragraph")]; leaf TagHr] 40)
  /\ [elem TagP [Text (py "a long paragraph")]]
     = [elem TagP [Text (py "a long paragraph")]].
Proof.
  split; [vm_compute; right; left; reflexivity|].
  apply (@oversized_node_alone
           [leaf TagHr; elem TagP [Text (py "a long paragraph")]; leaf TagHr]
           40 _ (elem TagP [Text (py "a long paragraph")])).
  - vm_compute. right. left. reflexivity.
  - left. reflexivity.
  - vm_compute. reflexivity.
Defined.

(** ** Chunks are closed only when full *)

Lemma closed_when_full_snoc (max_size : Z) (cs : list (list node))
      (c d : list node) (n : node) :
  closed_when_full max_size (cs ++ [c]) ->
  max_size < accounted_size c + (byte_len (dumps n) + 1) ->
  closed_when_full max_size (cs ++ [c; n :: d]).
Proof.
  induction cs as [|x cs IH]; intros H Hc.
  - cbn. tauto.
  - cbn [app closed_when_full] in *. destruct H as [H1 H2]. split.
    + destruct cs; exact H1.
    + now apply IH.
Qed.

Lemma closed_when_full_last (max_size : Z) (cs : list (list node))
      (n : node) (c c' : list node) :
  closed_when_full max_size (cs ++ [n :: c]) ->
  closed_when_full max_size (cs ++ [n :: c']).
Proof.
  induction cs as [|x cs IH]; intros H.
  - cbn. tauto.
  - cbn [app closed_when_full] in *. destruct H as [H1 H2]. split.
    + destruct cs; exact H1.
    + now apply IH.
Qed.

Lemma part_step_full (max_size : Z) (st : part_state) (n : node) :
  full_inv max_size st -> full_inv max_size (part_step max_size st n).
Proof.
  intros [Hsize Hfirst Hclosed]. unfold part_step.
  destruct (current_size st + (byte_len (dumps n) + 1) >? max_size) eqn:Hover;
    [destruct (current_part st) as [|n0 cur] eqn:Hc|]; cbn [andb nonempty].
  - constructor; cbn [parts current_part current_size].
    + rewrite Hsize, Hc, ?Hc. unfold accounted_size.
      cbn [app sum_sizes length]. lia.
    + rewrite ?Hc. discriminate.
    + rewrite ?Hc, (Hfirst eq_refl). cbn. tauto.
  - constructor; cbn [parts current_part current_size].
    + unfold accounted_size. cbn [app sum_sizes length]. lia.
    + discriminate.
    + rewrite <- app_assoc. cbn [app].
      apply closed_when_full_snoc; [exact Hclosed|].
      rewrite <- Hsize. rewrite Z.gtb_ltb in Hover.
      now apply Z.ltb_lt in Hover.
  - constructor; cbn [parts current_part current_size].
    + rewrite accounted_size_snoc, Hsize. reflexivity.
    + destruct (current_part st); discriminate.
    + destruct (current_part st) as [|n0 cur] eqn:Hc.
      * rewrite (Hfirst eq_refl). cbn. tauto.
      * cbn [app]. now apply closed_when_full_last with (c := cur).
Qed.

Lemma part_loop_full (max_size : Z) (content : list node) (st : part_state) :
  full_inv max_size st ->
  full_inv max_size (fold_left (part_step max_size) content st).
Proof.
  revert st. induction content as [|n content IH]; intros st H; cbn;
    [exact H | apply IH, part_step_full, H].
Qed.

Lemma closed_when_full_nth (max_size : Z) (cs : list (list node)) :
  closed_when_full max_size cs ->
  forall (i : nat) (c d : list node),
    nth_error cs i = Some c -> nth_error cs (S i) = Some d ->
    exists n more,
      d = n :: more
      /\ max_size < accounted_size c + (byte_len (dumps n) + 1).
Proof.
  induction cs as [|x cs IH]; intros H i c d Hc Hd.
  - destruct i; discriminate.
  - cbn [closed_when_full] in H. destruct H as [H1 H2].
    destruct i as [|i].
    + cbn in Hc, Hd. injection Hc as ->.
      destruct cs as [|y cs]; [discriminate|]. cbn in Hd.
      injection Hd as ->. destruct d as [|n more]; [contradiction|].
      now exists n, more.
    + cbn [nth_error] in Hc, Hd. exact (IH H2 i c d Hc Hd).
Qed.

(** X14.  The partitioner is greedy: a chunk is followed by another
    only if the first node of that one did not fit, that is, if the
    size accounted for the chunk (its nodes, the brackets and one byte
    per node) plus the size of the node and its byte exceeds the
    budget. *)
Theorem chunk_closed_when_full (content : list node) (max_size : Z)
        (i : nat) (c d : list node) :
  nth_error (split_content_for_publishing content max_size) i = Some c ->
  nth_error (split_content_for_publishing content max_size) (S i) = Some d ->
  exists n more,
    d = n :: more
    /\ max_size < accounted_size c + (byte_len (dumps n) + 1).
Proof.
  unfold split_content_for_publishing.
  destruct (estimate_content_size content <=? max_size).
  - intros _ H. destruct i; discriminate.
  - apply closed_when_full_nth.
    destruct (@part_loop_full max_size content part_init) as [_ Hfirst Hcl].
    { constructor; [reflexivity | reflexivity | cbn; tauto]. }
    unfold part_finish.
    destruct (current_part _) as [|n0 cur] eqn:Hc; cbn [nonempty];
      [|exact Hcl].
    rewrite (Hfirst eq_refl). exact I.
Qed.

Lemma chunk_closed_when_full_witness :
  exists n more,
    [leaf TagHr] = n :: more
    /\ 30 < accounted_size [leaf TagHr; leaf TagHr] + (byte_len (dumps n) + 1).
Proof.
  apply (@chunk_closed_when_full [leaf TagHr; leaf TagHr; leaf TagHr] 30 0
           [leaf TagHr; leaf TagHr] [leaf TagHr]).
  - reflexivity.
  - reflexivity.
Defined.

(** ** The sizes of the chunks add up *)

Lemma total_size_concat (chunks : list (list node)) :
  Forall (fun chunk => chunk <> []) chunks ->
  total_size chunks
  = sum_sizes (concat chunks) + 2 * Z.of_nat (length (concat chunks)).
Proof.
  induction 1 as [|c chunks Hc _ IH]; cbn [total_size concat]; [reflexivity|].
  rewrite IH, (estimate_content_size_nonempty Hc), sum_sizes_app, length_app.
  lia.
Qed.

(** X15.  Splitting adds no byte: the serialized sizes of the chunks of
    a document that is not empty add up to the serialized size of the
    document (the two bytes between neighbours become the brackets of
    a chunk). *)
Theorem chunk_sizes_add_up (content : list node) (max_size : Z) :
  content <> [] ->
  total_size (split_content_for_publishing content max_size)
  = estimate_content_size content.
Proof.
  intros Hne.
  assert (Hall : Forall (fun chunk => chunk <> [])
                        (split_content_for_publishing content max_size)).
  { unfold split_content_for_publishing.
    destruct (estimate_content_size content <=? max_size).
    - constructor; [exact Hne | constructor].
    - apply Forall_forall. intros chunk Hin.
      now destruct (split_loop_chunks_ok _ _ _ Hin). }
  assert (Hcat : concat (split_content_for_publishing content max_size)
                 = content).
  { unfold split_content_for_publishing.
    destruct (estimate_content_size content <=? max_size).
    - cbn. apply app_nil_r.
    - rewrite part_finish_concat.
      exact (part_loop_concat max_size content part_init). }
  rewrite (total_size_concat Hall), Hcat.
  now rewrite (estimate_content_size_nonempty Hne).
Qed.

Lemma chunk_sizes_add_up_witness :
  total_size (split_content_for_publishing
                [leaf TagHr; leaf TagHr; leaf TagHr] 30)
  = estimate_content_size [leaf TagHr; leaf TagHr; leaf TagHr].
Proof.
  apply (@chunk_sizes_add_up [leaf TagHr; leaf TagHr; leaf TagHr] 30).
  discriminate.
Defined.

Local Close Scope Z_scope.

Lemma chunk_size_guarantee_witness :
  length [leaf TagHr; leaf TagHr] = 1
  \/ (estimate_content_size [leaf TagHr; leaf TagHr]
      <= 43 + Z.max 0 (Z.of_nat (length [leaf TagHr; leaf TagHr]) - 2))%Z.
Proof.
  apply (@chunk_size_guarantee
           [leaf TagHr; leaf TagHr; leaf TagHr; leaf TagHr] 43%Z).
  vm_compute. left. reflexivity.
Defined.

(* ================================================================== *)
(** * Further properties of the navigation linker *)
(* ================================================================== *)

Lemma nav_part_enough (n : nat) (urls : list str) (title : str) (i : nat)
      (part : list node) :
  n <= length urls -> i < n ->
  nav_part n urls title i part
  = Some (nav_chunk labels_of_source n urls title i part).
Proof.
  intros Hlen Hi. unfold nav_part, nav_chunk.
  rewrite (nth_error_nth' urls [] (n := 0)) by lia.
  destruct (Nat.ltb_spec i (n - 1)) as [Hn | Hn];
    destruct (Nat.ltb_spec 0 i) as [H0 | H0];
    destruct (Nat.eqb_spec i 0) as [E | E]; try lia;
    rewrite ?(nth_error_nth' urls [] (n := i - 1)) by lia;
    rewrite ?(nth_error_nth' urls [] (n := i + 1)) by lia;
    reflexivity.
Qed.

Lemma nav_loop_enough (n : nat) (urls : list str) (title : str)
      (ps : list (list node)) :
  n <= length urls ->
  forall (i : nat) (result : list (list node)),
    i + length ps <= n ->
    nav_loop n urls title i ps result
    = Some (result ++ nav_chunks labels_of_source n urls title i ps).
Proof.
  intros Hlen. induction ps as [|part more IH]; intros i result Hi.
  - cbn. now rewrite app_nil_r.
  - cbn [nav_loop nav_chunks]. cbn [length] in Hi.
    rewrite nav_part_enough by lia.
    rewrite IH by lia. now rewrite <- app_assoc.
Qed.

(** A part whose links need a URL that is not there. *)
Lemma nav_part_missing (n : nat) (urls : list str) (title : str)
      (part : list node) :
  length urls < n ->
  nav_part n urls title (length urls - 1) part = None.
Proof.
  intros Hlen. unfold nav_part.
  destruct urls as [|u urls].
  - cbn [length Nat.sub nth_error].
    destruct (0 <? 0); destruct (0 <? n - 1); reflexivity.
  - cbn [length] in *.
    replace (S (length urls) - 1 <? n - 1) with true
      by (symmetry; apply Nat.ltb_lt; lia).
    replace (nth_error (u :: urls) (S (length urls) - 1 + 1))
      with (@None str)
      by (symmetry; apply nth_error_None; cbn [length]; lia).
    destruct (0 <? _); [destruct (nth_error _ _)|];
      destruct (nth_error (u :: urls) 0); reflexivity.
Qed.

Lemma nav_loop_missing (n : nat) (urls : list str) (title : str)
      (ps : list (list node)) :
  forall (i j : nat) (result : list (list node)),
    i <= j < i + length ps ->
    (forall part, nav_part n urls title j part = None) ->
    nav_loop n urls title i ps result = None.
Proof.
  induction ps as [|part more IH]; intros i j result Hj Hnone;
    cbn [length] in Hj; [lia|].
  cbn [nav_loop]. destruct (Nat.eq_dec i j) as [-> | Hne].
  - now rewrite Hnone.
  - destruct (nav_part n urls title i part); [|reflexivity].
    apply (IH (S i) j); [lia | exact Hnone].
Qed.

Lemma add_navigation_links_none (ps : list (list node)) (urls : list str)
      (title : str) :
  2 <= length ps -> length urls < length ps ->
  add_navigation_links ps urls title = None.
Proof.
  intros Hn Hgt. unfold add_navigation_links.
  replace (length ps <=? 1) with false by (symmetry; apply Nat.leb_gt; lia).
  apply (@nav_loop_missing (length ps) urls title ps 0 (length urls - 1) []).
  - lia.
  - intros part. now apply nav_part_missing.
Qed.

(** X16.  With two parts or more, the linker succeeds exactly when
    there are at least as many URLs as parts; with fewer it ends in an
    IndexError. *)
Theorem add_navigation_links_needs_urls (ps : list (list node))
        (urls : list str) (title : str) :
  2 <= length ps ->
  (add_navigation_links ps urls title <> None
   <-> length ps <= length urls).
Proof.
  intros Hn.
  destruct (Nat.le_gt_cases (length ps) (length urls)) as [Hle | Hgt].
  - unfold add_navigation_links.
    replace (length ps <=? 1) with false by (symmetry; apply Nat.leb_gt; lia).
    rewrite nav_loop_enough by (assumption || lia).
    split; [intros _; exact Hle | discriminate].
  - rewrite add_navigation_links_none by assumption.
    split; [congruence | lia].
Qed.

Lemma add_navigation_links_needs_urls_witness :
  add_navigation_links [[Text (py "x")]; [Text (py "y")]] [py "u0"] (py "T")
  <> None
  <-> length [[Text (py "x")]; [Text (py "y")]] <= length [py "u0"].
Proof.
  apply (@add_navigation_links_needs_urls
           [[Text (py "x")]; [Text (py "y")]] [py "u0"] (py "T")).
  simpl. lia.
Defined.

Local Open Scope Z_scope.

(** X17.  Linking makes every chunk larger: each new chunk has three
    nodes more than the chunk it comes from, and a larger serialized
    size.  The budget is not applied again after linking. *)
Theorem add_navigation_links_grows (ps : list (list node))
        (urls : list str) (title : str) (result : list (list node))
        (i : nat) (part new_part : list node) :
  (2 <= length ps)%nat ->
  add_navigation_links ps urls title = Some result ->
  nth_error ps i = Some part ->
  nth_error result i = Some new_part ->
  length new_part = (length part + 3)%nat
  /\ estimate_content_size part + 6 <= estimate_content_size new_part.
Proof.
  intros Hn Hres Hpart Hnew.
  assert (Hlen : (length ps <= length urls)%nat).
  { destruct (Nat.le_gt_cases (length ps) (length urls)) as [H | H];
      [exact H|].
    rewrite add_navigation_links_none in Hres by assumption.
    discriminate. }
  unfold add_navigation_links in Hres.
  replace (length ps <=? 1)%nat with false in Hres
    by (symmetry; apply Nat.leb_gt; lia).
  rewrite nav_loop_enough in Hres by (assumption || lia).
  injection Hres as <-. cbn [app] in Hnew.
  rewrite (nav_chunks_nth _ _ _ _ _ 0 _ Hpart) in Hnew.
  injection Hnew as <-. unfold nav_chunk. split.
  - cbn [app length]. rewrite length_app. cbn [length]. lia.
  - cbn [app]. rewrite estimate_content_size_cons, length_app.
    cbn [sum_sizes]. rewrite sum_sizes_app. cbn [sum_sizes].
    rewrite Nat2Z.inj_add.
    change (byte_len (dumps (leaf TagHr))) with 13.
    set (header := byte_len _). set (links := byte_len _).
    assert (0 <= header) by apply byte_len_nonneg.
    assert (0 <= links) by apply byte_len_nonneg.
    destruct part as [|n more].
    + change (estimate_content_size []) with 2. cbn [sum_sizes length]. lia.
    + rewrite estimate_content_size_cons. cbn [sum_sizes length]. lia.
Qed.

Local Close Scope Z_scope.

Lemma add_navigation_links_grows_witness :
  length (nav_chunk labels_of_source 2 [py "u0"; py "u1"] (py "T") 0
                    [Text (py "x")])
  = (length [Text (py "x")] + 3)%nat
  /\ (estimate_content_size [Text (py "x")] + 6
      <= estimate_content_size
           (nav_chunk labels_of_source 2 [py "u0"; py "u1"] (py "T") 0
                      [Text (py "x")]))%Z.
Proof.
  apply (@add_navigation_links_grows
           [[Text (py "x")]; [Text (py "y")]] [py "u0"; py "u1"] (py "T")
           (nav_chunks labels_of_source 2 [py "u0"; py "u1"] (py "T") 0
                       [[Text (py "x")]; [Text (py "y")]])
           0 [Text (py "x")]
           (nav_chunk labels_of_source 2 [py "u0"; py "u1"] (py "T") 0
                      [Text (py "x")])).
  - simpl. lia.
  - reflexivity.
  - reflexivity.
  - reflexivity.
Defined.

(* ================================================================== *)
(** * Further properties of the publish command *)
(* ================================================================== *)

Section PublishOutcome.

Variable srv : service.
Variables (token title : str) (author : option str).
Variable ps : list (list node).

Let call := create_call token title author ps.
Let calls := create_calls token title author ps.



End PublishOutcome.

(** X18.  When the document is split into two chunks or more and every
    request to create a page succeeds, the command issues the requests
    to create the pages in the order of the chunks (the first under
    the title, the others under the title with the part number), then
    one request per page to rewrite it, at the path that was returned
    for it, with the chunk and its navigation links; it reports the
    URLs of the pages in the order of the chunks.  The answers to the
    rewrites play no part. *)
Theorem publish_multi_part (db : unicode_db) (srv : service)
        (args : publish_args) (cfg : option str) (md : str)
        (content : list node) (tok : str) (pg : nat -> page) :
  let ps := split_content_for_publishing content MAX_CONTENT_SIZE in
  let title := arg_title args in
  let author := arg_author args in
  let urls := map (fun i => telegraph_url (page_path (pg i)))
                  (seq 0 (length ps)) in
  let paths := map (fun i => page_path (pg i)) (seq 0 (length ps)) in
  py_or (arg_token args) cfg = Some tok -> tok <> [] ->
  markdown_to_nodes db md = Some content ->
  2 <= length ps ->
  (forall i, i < length ps ->
             srv (create_calls tok title author ps i)
                 (create_call tok title author ps i) = ApiOk (pg i)) ->
  exists run,
    cmd_publish db srv args cfg (Contents md) = Some run
    /\ run []
       = (Return (ReportParts (length ps) urls
                              (telegraph_url (page_path (pg 0)))),
          create_calls tok title author ps (length ps)
          ++ edit_calls tok title author 0
               (combine paths
                  (nav_chunks labels_of_source (length ps) urls title 0 ps))).
Proof.
  intros ps title author urls paths Htok Hne Hmd Hlen Hok.
  exists (publish_parts srv tok title author ps). split.
  - now apply cmd_publish_parts.
  - exact (publish_parts_succeeds srv tok title author ps pg Hlen Hok).
Qed.


(** X20.  A document that converts to nodes whose serialized size is
    within the budget is published with one request: the whole
    document under the title.  When the request succeeds the command
    reports the URL, the path, the title and the views of the page
    (0 when the answer has none); when it fails it prints the error of
    the service and exits with status 1. *)
Theorem publish_single_page (db : unicode_db) (srv : service)
        (args : publish_args) (cfg : option str) (md : str)
        (content : list node) (tok : str) :
  let request :=
      CreatePage tok (arg_title args) content (arg_author args) in
  py_or (arg_token args) cfg = Some tok -> tok <> [] ->
  markdown_to_nodes db md = Some content -> content <> [] ->
  (estimate_content_size content <= MAX_CONTENT_SIZE)%Z ->
  exists run,
    cmd_publish db srv args cfg (Contents md) = Some run
    /\ run []
       = (match srv [] request with
          | ApiOk p =>
            Return (ReportPage (telegraph_url (page_path p)) (page_path p)
                               (page_title p)
                               (match page_views p with
                                | Some v => v
                                | None => 0%Z
                                end))
          | ApiError e => Exit (ReportError e) 1%Z
          end,
          [request]).
Proof.
  intros request Htok Hne Hmd Hcontent Hfit.
  exists (publish_single srv tok (arg_title args) (arg_author args) content).
  split.
  - unfold cmd_publish. rewrite Htok.
    destruct tok as [|c tok]; [congruence|]. rewrite Hmd.
    destruct content as [|n content]; [congruence|].
    unfold split_content_for_publishing.
    apply Z.leb_le in Hfit. rewrite Hfit. reflexivity.
  - unfold publish_single, bind, create_page, api_request. fold request.
    destruct (srv [] request); reflexivity.
Qed.

Lemma publish_multi_part_witness :
  let ps := split_content_for_publishing (repeat (leaf TagHr) 4682)
                                         MAX_CONTENT_SIZE in
  let pg := fun i => {| page_path := py "page-" ++ str_of_nat i;
                        page_title := part_title (py "T") i;
                        page_views := Some 0%Z |} in
  let urls := map (fun i => telegraph_url (page_path (pg i)))
                  (seq 0 (length ps)) in
  let paths := map (fun i => page_path (pg i)) (seq 0 (length ps)) in
  exists run,
    cmd_publish latin1_db edits_fail demo_args None (Contents (rules 4682))
    = Some run
    /\ run []
       = (Return (ReportParts (length ps) urls
                              (telegraph_url (page_path (pg 0)))),
          create_calls (py "secret") (py "T") None ps (length ps)
          ++ edit_calls (py "secret") (py "T") None 0
               (combine paths
                  (nav_chunks labels_of_source (length ps) urls (py "T")
                              0 ps))).
Proof.
  apply (@publish_multi_part latin1_db edits_fail demo_args None
           (rules 4682) (repeat (leaf TagHr) 4682) (py "secret")
           (fun i => {| page_path := py "page-" ++ str_of_nat i;
                        page_title := part_title (py "T") i;
                        page_views := Some 0%Z |})).
  - reflexivity.
  - discriminate.
  - vm_compute. reflexivity.
  - vm_compute. lia.
  - intros i Hi. unfold edits_fail, create_call, create_calls.
    rewrite length_map, length_seq. reflexivity.
Defined.


Lemma publish_single_page_witness :
  let request :=
      CreatePage (py "secret") (py "T") [elem TagH3 [Text (py "Title")]]
                 None in
  exists run,
    cmd_publish latin1_db edits_fail demo_args None (Contents (py "# Title"))
    = Some run
    /\ run []
       = (match edits_fail [] request with
          | ApiOk p =>
            Return (ReportPage (telegraph_url (page_path p)) (page_path p)
                               (page_title p)
                               (match page_views p with
                                | Some v => v
                                | None => 0%Z
                                end))
          | ApiError e => Exit (ReportError e) 1%Z
          end,
          [request]).
Proof.
  apply (@publish_single_page latin1_db edits_fail demo_args None
           (py "# Title") [elem TagH3 [Text (py "Title")]] (py "secret")).
  - reflexivity.
  - discriminate.
  - reflexivity.
  - discriminate.
  - vm_compute. discriminate.
Defined.

(** X21.  A file of whitespace only is not published: the command
    prints that the content is empty after conversion and exits with
    status 1 without a request to the service. *)
Theorem publish_blank_file (db : unicode_db) (srv : service)
        (args : publish_args) (cfg : option str) (md : str) (tok : str)
        (h : list api_call) :
  py_or (arg_token args) cfg = Some tok -> tok <> [] ->
  forallb isspace md = true ->
  exists run,
    cmd_publish db srv args cfg (Contents md) = Some run
    /\ run h
       = (Exit (ReportError (py "Empty content after conversion")) 1%Z, h).
Proof.
  intros Htok Hne Hmd. unfold cmd_publish. rewrite Htok.
  destruct tok as [|c tok]; [congruence|].
  unfold markdown_to_nodes. rewrite (convert_blank db md Hmd).
  eexists. split; reflexivity.
Qed.

Lemma publish_blank_file_witness :
  exists run,
    cmd_publish latin1_db edits_fail demo_args None (Contents [SP; NL; NL])
    = Some run
    /\ run []
       = (Exit (ReportError (py "Empty content after conversion")) 1%Z, []).
Proof.
  apply (@publish_blank_file latin1_db edits_fail demo_args None [SP; NL; NL]
           (py "secret") []).
  - reflexivity.
  - discriminate.
  - reflexivity.
Defined.

(* ================================================================== *)
(** * Properties of the edit command *)
(* ================================================================== *)

Lemma url_path_telegraph (path : str) : url_path (telegraph_url path) = path.
Proof.
  unfold url_path, telegraph_url.
  replace (startswith (py "https://telegra.ph/")
                      (py "https://telegra.ph/" ++ path)) with true
    by (symmetry; apply startswith_true; now eexists).
  apply skipn_length_app.
Qed.

(** A run that ends after the request to get the page. *)
Ltac only_get_requested :=
  eexists; eexists; split; [reflexivity|]; split;
  [right; split; [reflexivity | now left]
  | apply Forall_cons; [exact I | apply Forall_nil]].

(** X22.  The edit command ends for every input, after at most two
    requests.  Without a token it issues none, prints that there is no
    token and exits with status 1.  With a token its first request
    gets the page at the path of the URL; it asks to rewrite the page
    only after that request succeeded, and only with a document that
    is not empty and whose serialized size is within the budget. *)
Theorem cmd_edit_requests (db : unicode_db) (srv : edit_service)
        (args : edit_args) (cfg : option str) (file : read_result) :
  let get := GetPageCall (url_path (earg_url args)) true in
  exists (out : outcome report) (log : list edit_request),
    cmd_edit db srv args cfg file = Some (out, log)
    /\ (truthy (py_or (earg_token args) cfg) = false
        /\ log = []
        /\ out = Exit (ReportError (py "No Telegraph token. Run 'create-account' first or provide --token")) 1%Z
        \/ truthy (py_or (earg_token args) cfg) = true
           /\ (log = [get]
               \/ exists edit current,
                   log = [get; edit]
                   /\ answer_get srv [] get = GetOk current
                   /\ edit_within_budget edit))
    /\ Forall edit_within_budget log.
Proof.
  cbv zeta. unfold cmd_edit.
  set (get := GetPageCall (url_path (earg_url args)) true).
  destruct (py_or (earg_token args) cfg) as [[|c tok]|]; cbn [truthy];
    try (eexists; eexists; split; [reflexivity|]; split;
         [left; repeat split | apply Forall_nil]).
  destruct (answer_get srv [] get) as [current | e] eqn:Hget;
    [|only_get_requested].
  destruct file as [| e | md]; try only_get_requested.
  destruct (markdown_to_nodes_total db md) as [nodes Hnodes]. rewrite Hnodes.
  destruct nodes as [|n content]; [only_get_requested|].
  destruct (estimate_content_size (n :: content) >? MAX_CONTENT_SIZE)%Z
           eqn:Hsize; [only_get_requested|].
  assert (Hok : edit_within_budget
                  (EditPageCall (c :: tok) (url_path (earg_url args))
                                (edit_title (earg_title args) current)
                                (n :: content) (earg_author args))).
  { split; [discriminate|]. rewrite Z.gtb_ltb in Hsize.
    now apply Z.ltb_ge in Hsize. }
  destruct (answer_edit srv [get] _);
    (eexists; eexists; split; [reflexivity|]; split;
     [right; split; [reflexivity|]; right; eexists; eexists;
      split; [reflexivity|]; split; [reflexivity | exact Hok]
     | apply Forall_cons; [exact I|];
       apply Forall_cons; [exact Hok | apply Forall_nil]]).
Qed.

(** Without a token nothing is requested, whatever the service is; with
    one, a page that is found and a short document, the page is fetched
    and rewritten. *)
Example cmd_edit_without_token :
  cmd_edit latin1_db always_ok
           {| earg_url := py "https://telegra.ph/Page-01-01";
              earg_file := py "doc.md"; earg_title := None;
              earg_author := None; earg_token := Some [] |}
           None (Contents (py "# Title"))
  = Some (Exit (ReportError (py "No Telegraph token. Run 'create-account' first or provide --token")) 1%Z,
          []).
Proof. reflexivity. Qed.

Example cmd_edit_with_token :
  cmd_edit latin1_db always_ok demo_edit_args None (Contents (py "# Title"))
  = Some (Return (ReportPage (py "https://telegra.ph/Page-01-01")
                             (py "Page-01-01") (py "Old title") 0%Z),
          [GetPageCall (py "Page-01-01") true;
           EditPageCall (py "secret") (py "Page-01-01") (py "Old title")
                        [elem TagH3 [Text (py "Title")]] None]).
Proof. reflexivity. Qed.

(** X23.  The URL that the publish command reports for a page is
    accepted by the edit command: with a token, a page that the service
    finds and a document within the budget, it gets the page at the
    path of the URL, rewrites it at that path, under the title given
    or else the current title of the page (Untitled when it has none),
    and reports what the service answers. *)
Theorem cmd_edit_published_page (db : unicode_db) (srv : edit_service)
        (args : edit_args) (cfg : option str) (md : str)
        (content : list node) (tok path : str) (current : option str) :
  let get := GetPageCall path true in
  let edit := EditPageCall tok path (edit_title (earg_title args) current)
                           content (earg_author args) in
  earg_url args = telegraph_url path ->
  py_or (earg_token args) cfg = Some tok -> tok <> [] ->
  answer_get srv [] get = GetOk current ->
  markdown_to_nodes db md = Some content -> content <> [] ->
  (estimate_content_size content <= MAX_CONTENT_SIZE)%Z ->
  cmd_edit db srv args cfg (Contents md)
  = Some (match answer_edit srv [get] edit with
          | ApiOk p =>
            Return (ReportPage (telegraph_url (page_path p)) (page_path p)
                               (page_title p)
                               (match page_views p with
                                | Some v => v
                                | None => 0%Z
                                end))
          | ApiError e => Exit (ReportError e) 1%Z
          end,
          [get; edit]).
Proof.
  intros get edit Hurl Htok Hne Hget Hmd Hcontent Hfit.
  unfold cmd_edit. rewrite Htok, Hurl, url_path_telegraph.
  destruct tok as [|c tok]; [congruence|]. fold get. rewrite Hget, Hmd.
  destruct content as [|n content]; [congruence|].
  replace (estimate_content_size (n :: content) >? MAX_CONTENT_SIZE)%Z
    with false
    by (symmetry; rewrite Z.gtb_ltb; now apply Z.ltb_ge).
  fold edit. destruct (answer_edit srv [get] edit); reflexivity.
Qed.

Lemma cmd_edit_published_page_witness :
  let get := GetPageCall (py "Page-01-01") true in
  let edit := EditPageCall (py "secret") (py "Page-01-01")
                           (edit_title (earg_title demo_edit_args)
                                       (Some (py "Old title")))
                           [elem TagH3 [Text (py "Title")]]
                           (earg_author demo_edit_args) in
  cmd_edit latin1_db always_ok demo_edit_args None (Contents (py "# Title"))
  = Some (match answer_edit always_ok [get] edit with
          | ApiOk p =>
            Return (ReportPage (telegraph_url (page_path p)) (page_path p)
                               (page_title p)
                               (match page_views p with
                                | Some v => v
                                | None => 0%Z
                                end))
          | ApiError e => Exit (ReportError e) 1%Z
          end,
          [get; edit]).
Proof.
  apply (@cmd_edit_published_page latin1_db always_ok demo_edit_args None
           (py "# Title") [elem TagH3 [Text (py "Title")]] (py "secret")
           (py "Page-01-01") (Some (py "Old title"))).
  - reflexivity.
  - reflexivity.
  - discriminate.
  - reflexivity.
  - reflexivity.
  - discriminate.
  - vm_compute. discriminate.
Defined.

(* ================================================================== *)
(** * Code spans *)
(* ================================================================== *)

Lemma search_after_first (r : regex) (c : char) (s : str) (m : match_obj) :
  consuming r ->
  exec r {| pos := 0; prev := None; rest := c :: s; groups := [] |} Some
  = None ->
  re_search r (c :: s) = Some m -> 1 <= m_start m.
Proof.
  intros Hr Hex. unfold re_search. cbn [search_from]. rewrite Hex.
  intros H. now apply (@search_from_consuming _ Hr) in H.
Qed.

Lemma earliest_fold_after_first (c : char) (s : str)
      (ps : list (regex * handler)) :
  Forall (fun ph =>
            consuming (fst ph)
            /\ exec (fst ph)
                    {| pos := 0; prev := None; rest := c :: s; groups := [] |}
                    Some = None) ps ->
  forall acc, 1 <= snd acc ->
              1 <= snd (fold_left (earliest_step (c :: s)) ps acc).
Proof.
  induction 1 as [|ph ps [Hr Hex] _ IH]; intros acc Hacc; [exact Hacc|].
  cbn [fold_left]. apply IH. unfold earliest_step.
  destruct (re_search (fst ph) (c :: s)) as [m|] eqn:Hm; [|exact Hacc].
  destruct (m_start m <? snd acc); [|exact Hacc].
  cbn [snd]. exact (@search_after_first _ _ _ _ Hr Hex Hm).
Qed.

(** The pattern of code spans on a span. *)
Lemma code_re_match (code : str) :
  code <> [] -> forallb (none_of "`") code = true ->
  re_search (Chr (one "`") >> Grp 1 (Rep (none_of "`") 1 None)
               >> Chr (one "`"))
            (96%N :: code ++ [96%N])
  = Some {| m_start := 0; m_end := S (S (length code));
            m_groups := [(1, code)] |}.
Proof.
  intros Hne Hcode. unfold re_search.
  set (s := 96%N :: code ++ [96%N]).
  set (st0 := {| pos := 0; prev := None; rest := s; groups := [] |}).
  set (st1 := advance 1 st0).
  set (st2 := set_group 1 code (advance (length code) st1)).
  set (st3 := advance 1 st2).
  assert (Hr1 : rest st1 = code ++ [96%N]) by reflexivity.
  assert (Hr2 : rest st2 = [96%N]).
  { unfold st2. cbn [rest set_group advance]. fold st1. rewrite Hr1.
    apply skipn_length_app. }
  assert (Hex : exec (Chr (one "`") >> Grp 1 (Rep (none_of "`") 1 None)
                        >> Chr (one "`")) st0 Some = Some st3).
  { rewrite exec_cat. change (exec (Chr (one "`")) st0 ?k) with (k st1).
    cbn beta. rewrite exec_cat, exec_grp.
    apply exec_rep_greedy with (n := length code).
    - rewrite Hr1. now apply run_app.
    - destruct code; [congruence | cbn [length]; lia].
    - rewrite pos_advance, Hr1, firstn_length_app.
      fold st2. cbn [exec]. rewrite Hr2. reflexivity. }
  destruct s as [|c s'] eqn:Hs; [discriminate|].
  cbn [search_from]. fold st0. rewrite Hex. f_equal.
  unfold st3, st2, st1, st0. cbn [pos advance set_group groups].
  f_equal. lia.
Qed.

Section CodeSpans.

Variable db : unicode_db.

Lemma earliest_code_span (code : str) :
  code <> [] -> forallb (none_of "`") code = true ->
  earliest db (96%N :: code ++ [96%N])
  = Some ({| m_start := 0; m_end := S (S (length code));
             m_groups := [(1, code)] |}, HCode).
Proof.
  intros Hne Hcode. unfold earliest.
  change (patterns db) with (firstn 6 (patterns db) ++ skipn 6 (patterns db)).
  rewrite fold_left_app.
  assert (Hacc : 1 <= snd (fold_left (earliest_step (96%N :: code ++ [96%N]))
                                     (firstn 6 (patterns db))
                                     (None, length (96%N :: code ++ [96%N])))).
  { apply earliest_fold_after_first; [|cbn [snd length]; lia].
    assert (Hc := patterns_consuming db). unfold patterns in Hc.
    cbn [firstn patterns].
    repeat match goal with
           | H : Forall _ (_ :: _) |- _ => inversion H; subst; clear H
           end.
    repeat (constructor; [split; [assumption | reflexivity]|]).
    constructor. }
  destruct (fold_left _ (firstn 6 (patterns db)) _) as [best start].
  cbn [snd] in Hacc. cbn [skipn patterns fold_left fst].
  unfold earliest_step. cbn [fst snd].
  rewrite (@code_re_match code Hne Hcode). cbn [m_start].
  destruct start as [|start]; [lia|]. reflexivity.
Qed.

End CodeSpans.

(** X24.  A code span that makes up the whole text becomes one [code]
    element whose only child is the text between the backquotes, as it
    is: asterisks, underscores and brackets in it are not read as
    markup. *)
Theorem code_span_literal (db : unicode_db) (code : str) :
  code <> [] -> forallb (none_of "`") code = true ->
  _parse_inline db (py "`" ++ code ++ py "`")
  = Some [elem TagCode [Text code]].
Proof.
  intros Hne Hcode. unfold _parse_inline.
  change (py "`" ++ code ++ py "`") with (96%N :: code ++ [96%N]).
  cbn [length]. rewrite length_app. cbn [length].
  replace (length code + 1) with (S (length code)) by lia.
  assert (Hs : @skipn char (S (S (length code))) (96%N :: code ++ [96%N])
               = []).
  { replace (S (S (length code))) with (length (96%N :: code ++ [96%N]))
      by (cbn [length]; rewrite length_app; cbn [length]; lia).
    apply skipn_all. }
  cbn [parse_loop]. rewrite (@earliest_code_span db code Hne Hcode).
  cbn [m_start m_end m_groups Nat.ltb Nat.leb]. rewrite Hs. reflexivity.
Qed.

Lemma code_span_literal_witness :
  _parse_inline latin1_db (py "`" ++ py "**a** [b](c)" ++ py "`")
  = Some [elem TagCode [Text (py "**a** [b](c)")]].
Proof.
  apply (@code_span_literal latin1_db (py "**a** [b](c)")).
  - discriminate.
  - reflexivity.
Defined.
